(** * PDF-Renderer: a PostScript interpreter and a PDF cross-reference reader

    Shallow embedding of the C++ sources
      - ps_types.h (unnamed/part_000), src/ps_types.cpp     PSObject, GraphicsState
      - ps_stack.h (unnamed/part_001), its implementation
        (unnamed/part_004)                                  PSStack
      - src/parser/ps_parser.cpp                            PSParser::tokenize
      - src/interpreter/ps_interpreter.cpp                  PSInterpreter::executeToken
      - the operator library (unnamed/part_003, second
        half)                                               OperatorRegistry, Operators
      - src/pdf_parser.cpp                                  xref-stream records,
                                                            parseContentStream
      - pdf_interpreter.cpp (unnamed/part_003, first half)  executeContentStream,
                                                            mapPDFOperatorToPS

    Conventions of the embedding.
      - A [PSObjectPtr] (std::shared_ptr<PSObject>) is an address into an
        object store [heap]; [make_shared] allocates at the end of the store.
        Two handles denote the same object exactly when the addresses agree.
      - [int] is a 32-bit two's complement integer carried as a [Z]; results
        of arithmetic are reduced with [wrap32]. The overflow of a signed
        [int] is undefined in C++ (and INT_MIN / -1 traps): it is left out of
        the embedding, which agrees with the source where the exact result
        is an [int] ([in_int]). A property that asserts the result of an
        [int] computation assumes that much.
      - [double] is IEEE-754 binary64, carried by the primitive [float].
      - A thrown std::runtime_error is the outcome [Throw]; recursion through
        procedures is bounded by a fuel argument, exhausted fuel is
        [OutOfFuel].
      - std::vector stacks are lists whose head is [back()].
      - Text written to std::cout / std::cerr is not part of the state; the
        text that [PSObject::toString] builds is modelled by [toString].
        [put], [show] and [stack] print objects with [toString], which has no
        end on an array or a dictionary that contains itself: the three
        are embedded as what they do to the state, and agree with the source
        where their prints return ([prints]). A property that asserts that
        [put] returns assumes that much.
      - In the PDF reader [None] stands for undefined behaviour of the
        source: a read outside the data, an object number beyond [int]. *)

From Stdlib Require Import ZArith String Ascii List DecimalString DecimalPos.
From Stdlib Require Import Floats.PrimFloat.
From stdpp Require Import gmap strings list fin_maps.

Local Open Scope string_scope.
Local Open Scope Z_scope.

(** ** Outcomes of fallible, possibly non-terminating code *)

Inductive outcome (A : Type) : Type :=
| Done (a : A)
| Throw (what : string)
| OutOfFuel.
Arguments Done {A} a.
Arguments Throw {A} what.
Arguments OutOfFuel {A}.

#[global] Instance outcome_ret : MRet outcome := fun A a => Done a.
#[global] Instance outcome_bind : MBind outcome := fun A B f m =>
  match m with
  | Done a => f a
  | Throw w => Throw w
  | OutOfFuel => OutOfFuel
  end.

(** ** Machine integers *)

Definition INT_MIN : Z := - 2 ^ 31.
Definition INT_MAX : Z := 2 ^ 31 - 1.

Definition in_int (z : Z) : bool := (INT_MIN <=? z) && (z <=? INT_MAX).

(** Reduction of a mathematical integer to the [int] that holds it. *)
Definition wrap32 (z : Z) : Z := (z + 2 ^ 31) mod 2 ^ 32 - 2 ^ 31.

(** Conversion [int -> double]. Every step is exact below 2^53, so the
    result is the double that equals the integer. *)
Fixpoint pos_to_double (p : positive) : float :=
  match p with
  | xH => 1%float
  | xO q => (2 * pos_to_double q)%float
  | xI q => (2 * pos_to_double q + 1)%float
  end.

Definition int_to_double (z : Z) : float :=
  match z with
  | Z0 => 0%float
  | Zpos p => pos_to_double p
  | Zneg p => PrimFloat.opp (pos_to_double p)
  end.

(** ** Characters and strings (libc) *)

Definition isspace (c : ascii) : bool :=
  let n := nat_of_ascii c in
  (Nat.eqb n 32 || (Nat.leb 9 n && Nat.leb n 13))%bool.

Definition isdigit (c : ascii) : bool :=
  let n := nat_of_ascii c in (Nat.leb 48 n && Nat.leb n 57)%bool.

Definition digit_value (c : ascii) : Z := Z.of_nat (nat_of_ascii c) - 48.

Fixpoint skip_spaces (s : string) : string :=
  match s with
  | String c rest => if isspace c then skip_spaces rest else s
  | EmptyString => s
  end.

(** Longest prefix of decimal digits: its value and how many digits it has. *)
Fixpoint read_digits (s : string) (acc : Z) (n : nat) : Z * nat :=
  match s with
  | String c rest =>
      if isdigit c then read_digits rest (10 * acc + digit_value c) (S n)
      else (acc, n)
  | EmptyString => (acc, n)
  end.

(** [std::stoi]: leading white space, an optional sign, at least one digit;
    what follows the digits is ignored. [None] stands for the two exceptions
    (std::invalid_argument, std::out_of_range). *)
Definition stoi (s : string) : option Z :=
  let s1 := skip_spaces s in
  let '(neg, s2) :=
    match s1 with
    | String "-"%char rest => (true, rest)
    | String "+"%char rest => (false, rest)
    | _ => (false, s1)
    end in
  let '(v, n) := read_digits s2 0 0 in
  match n with
  | O => None
  | S _ => let r := if neg then - v else v in
           if in_int r then Some r else None
  end.

(** [token.find('.') != npos] *)
Fixpoint has_dot (s : string) : bool :=
  match s with
  | String c rest => if Ascii.eqb c "."%char then true else has_dot rest
  | EmptyString => false
  end.

Definition first_char (s : string) : option ascii :=
  match s with String c _ => Some c | EmptyString => None end.

Fixpoint last_char (s : string) : option ascii :=
  match s with
  | EmptyString => None
  | String c EmptyString => Some c
  | String _ rest => last_char rest
  end.

Definition is_char (o : option ascii) (c : ascii) : bool :=
  match o with Some d => Ascii.eqb d c | None => false end.

Definition slen (s : string) : Z := Z.of_nat (String.length s).

(** [token.substr(pos, n)] for [pos <= length]. *)
Definition substr (s : string) (pos n : nat) : string := String.substring pos n s.

(** [token.substr(pos)] *)
Definition substr_from (s : string) (pos : nat) : string :=
  String.substring pos (String.length s - pos)%nat s.

(** Interior of a token enclosed by [k] characters on each side. *)
Definition interior (k : nat) (s : string) : string :=
  substr s k (String.length s - 2 * k)%nat.

(** Remove the leading slash of a key, as [def], [load], [store] and [known] do. *)
Definition strip_slash (key : string) : string :=
  match key with
  | String "/"%char rest => rest
  | _ => key
  end.

(** ** The lexer: src/parser/ps_parser.cpp *)

Module PSParser.

(** The local variables of [tokenize]. *)
Record lexer : Type := mkLexer {
  tokens : list string;
  currentToken : string;
  inString : bool;
  escapeNext : bool;
  inComment : bool;
  inArray : bool;
  inDict : bool;
  inProc : bool;
  braceLevel : Z;
  bracketLevel : Z;
  dictLevel : Z
}.

Definition lexer0 : lexer :=
  mkLexer [] "" false false false false false false 0 0 0.

Definition isWhitespace (c : ascii) : bool := isspace c.

Definition isDelimiter (c : ascii) : bool :=
  (isWhitespace c || Ascii.eqb c "("%char || Ascii.eqb c ")"%char
   || Ascii.eqb c "["%char || Ascii.eqb c "]"%char
   || Ascii.eqb c "{"%char || Ascii.eqb c "}"%char)%bool.

(** [currentToken += c] *)
Definition add_char (c : ascii) (lx : lexer) : lexer :=
  mkLexer (tokens lx) (currentToken lx +:+ String c "") (inString lx)
    (escapeNext lx) (inComment lx) (inArray lx) (inDict lx) (inProc lx)
    (braceLevel lx) (bracketLevel lx) (dictLevel lx).

(** [if (!currentToken.empty()) { tokens.push_back(currentToken);
    currentToken.clear(); }] *)
Definition flush (lx : lexer) : lexer :=
  match currentToken lx with
  | EmptyString => lx
  | tok =>
      mkLexer (tokens lx ++ [tok]) "" (inString lx) (escapeNext lx)
        (inComment lx) (inArray lx) (inDict lx) (inProc lx)
        (braceLevel lx) (bracketLevel lx) (dictLevel lx)
  end.

Definition push_token (tok : string) (lx : lexer) : lexer :=
  mkLexer (tokens lx ++ [tok]) (currentToken lx) (inString lx)
    (escapeNext lx) (inComment lx) (inArray lx) (inDict lx) (inProc lx)
    (braceLevel lx) (bracketLevel lx) (dictLevel lx).

Definition set_inString (b : bool) (lx : lexer) : lexer :=
  mkLexer (tokens lx) (currentToken lx) b (escapeNext lx) (inComment lx)
    (inArray lx) (inDict lx) (inProc lx)
    (braceLevel lx) (bracketLevel lx) (dictLevel lx).

Definition set_escapeNext (b : bool) (lx : lexer) : lexer :=
  mkLexer (tokens lx) (currentToken lx) (inString lx) b (inComment lx)
    (inArray lx) (inDict lx) (inProc lx)
    (braceLevel lx) (bracketLevel lx) (dictLevel lx).

Definition set_inComment (b : bool) (lx : lexer) : lexer :=
  mkLexer (tokens lx) (currentToken lx) (inString lx) (escapeNext lx) b
    (inArray lx) (inDict lx) (inProc lx)
    (braceLevel lx) (bracketLevel lx) (dictLevel lx).

Definition set_array (b : bool) (level : Z) (lx : lexer) : lexer :=
  mkLexer (tokens lx) (currentToken lx) (inString lx) (escapeNext lx)
    (inComment lx) b (inDict lx) (inProc lx)
    (braceLevel lx) level (dictLevel lx).

Definition set_dict (b : bool) (level : Z) (lx : lexer) : lexer :=
  mkLexer (tokens lx) (currentToken lx) (inString lx) (escapeNext lx)
    (inComment lx) (inArray lx) b (inProc lx)
    (braceLevel lx) (bracketLevel lx) level.

Definition set_proc (b : bool) (level : Z) (lx : lexer) : lexer :=
  mkLexer (tokens lx) (currentToken lx) (inString lx) (escapeNext lx)
    (inComment lx) (inArray lx) (inDict lx) b
    level (bracketLevel lx) (dictLevel lx).

Definition next_is (c : ascii) (rest : string) : bool :=
  match rest with String d _ => Ascii.eqb d c | EmptyString => false end.

Definition newline : ascii := "010"%char.

(** The body of the [for] loop of [tokenize], one character per step; the
    two-character brackets [<<] and [>>] consume the character after them.
    On [%] the source skips ahead to the end of the line and lets the
    next iteration see the newline with [inComment] set; here the skipped
    characters are visited one by one with [inComment] set, which discards
    them in the same way. *)
Fixpoint scan (input : string) (lx : lexer) : lexer :=
  match input with
  | EmptyString => lx
  | String c rest =>
      if (Ascii.eqb c "%"%char && negb (inString lx) && negb (escapeNext lx)
          && negb (inArray lx) && negb (inDict lx) && negb (inProc lx))%bool
      then scan rest (set_inComment true lx)
      else if inComment lx
      then scan rest (if Ascii.eqb c newline then set_inComment false lx else lx)
      else if escapeNext lx
      then scan rest (set_escapeNext false (add_char c lx))
      else if (Ascii.eqb c "\"%char && inString lx)%bool
      then scan rest (set_escapeNext true lx)
      else if (Ascii.eqb c "["%char && negb (inString lx) && negb (escapeNext lx)
               && negb (inDict lx) && negb (inProc lx))%bool
      then scan rest
             (add_char c (if inArray lx
                          then set_array true (bracketLevel lx + 1) lx
                          else set_array true 1 lx))
      else if (Ascii.eqb c "]"%char && inArray lx && negb (inString lx)
               && negb (escapeNext lx))%bool
      then let level := bracketLevel lx - 1 in
           scan rest (set_array (negb (level =? 0)) level (add_char c lx))
      else if (Ascii.eqb c "<"%char && next_is "<"%char rest
               && negb (inString lx) && negb (escapeNext lx)
               && negb (inArray lx) && negb (inProc lx))%bool
      then match rest with
           | String c2 rest2 =>
               scan rest2
                 (add_char c2 (add_char c
                    (if inDict lx
                     then set_dict true (dictLevel lx + 1) lx
                     else set_dict true 1 lx)))
           | EmptyString => lx
           end
      else if (Ascii.eqb c ">"%char && next_is ">"%char rest
               && inDict lx && negb (inString lx) && negb (escapeNext lx))%bool
      then match rest with
           | String c2 rest2 =>
               let level := dictLevel lx - 1 in
               scan rest2
                 (set_dict (negb (level =? 0)) level (add_char c2 (add_char c lx)))
           | EmptyString => lx
           end
      else if (Ascii.eqb c "{"%char && negb (inString lx) && negb (escapeNext lx)
               && negb (inArray lx) && negb (inDict lx))%bool
      then scan rest
             (add_char c (if inProc lx
                          then set_proc true (braceLevel lx + 1) lx
                          else set_proc true 1 lx))
      else if (Ascii.eqb c "}"%char && inProc lx && negb (inString lx)
               && negb (escapeNext lx))%bool
      then let level := braceLevel lx - 1 in
           scan rest (set_proc (negb (level =? 0)) level (add_char c lx))
      else if (Ascii.eqb c "("%char && negb (inString lx) && negb (inArray lx)
               && negb (inDict lx) && negb (inProc lx))%bool
      then scan rest (add_char c (set_inString true lx))
      else if (Ascii.eqb c ")"%char && inString lx)%bool
      then scan rest (add_char c (set_inString false lx))
      else if (inString lx || inArray lx || inDict lx || inProc lx)%bool
      then scan rest (add_char c lx)
      else if isWhitespace c
      then scan rest (flush lx)
      else if isDelimiter c
      then scan rest (push_token (String c "") (flush lx))
      else scan rest (add_char c lx)
  end.

Definition tokenize (input : string) : list string :=
  tokens (flush (scan input lexer0)).

Definition parse (program : string) : list string := tokenize program.

End PSParser.

(** ** Functions of the C library that the sources call

    [std::stod] ([None] when it throws), [cos] and [sin] are taken as they
    come: the development holds for every implementation of them. *)

Class LibC : Type := {
  stod : string -> option float;
  cos : float -> float;
  sin : float -> float
}.

(** [M_PI] of <cmath> *)
Definition M_PI : float := 0x1.921fb54442d18p+1%float.

(** ** The value model: ps_types.h (unnamed/part_000), src/ps_types.cpp *)

Inductive ObjectType : Type :=
| INTEGER | REAL | STRING | BOOLEAN | ARRAY | DICTIONARY | PROCEDURE | NULL_OBJECT.

#[global] Instance ObjectType_eq_dec : EqDecision ObjectType.
Proof. solve_decision. Defined.

(** [PSObjectPtr]: the address of an object in the store. *)
Definition PSObjectPtr : Type := nat.

(** [PSObject]: the type tag together with the alternative of [value_] that
    the constructors pair it with. Names arrive as [STRING] objects that hold
    the token with its slash. *)
Inductive PSObject : Type :=
| PSInteger (value : Z)
| PSReal (value : float)
| PSString (value : string)
| PSBoolean (value : bool)
| PSArray (array : list PSObjectPtr)
| PSDictionary (dict : gmap string PSObjectPtr)
| PSProcedure (proc : list string)
| PSNull.

Definition getType (o : PSObject) : ObjectType :=
  match o with
  | PSInteger _ => INTEGER
  | PSReal _ => REAL
  | PSString _ => STRING
  | PSBoolean _ => BOOLEAN
  | PSArray _ => ARRAY
  | PSDictionary _ => DICTIONARY
  | PSProcedure _ => PROCEDURE
  | PSNull => NULL_OBJECT
  end.

Definition asInteger (o : PSObject) : outcome Z :=
  match o with
  | PSInteger v => Done v
  | _ => Throw "Object is not an integer"
  end.

Definition asReal (o : PSObject) : outcome float :=
  match o with
  | PSReal v => Done v
  | _ => Throw "Object is not a real number"
  end.

Definition asString (o : PSObject) : outcome string :=
  match o with
  | PSString v => Done v
  | _ => Throw "Object is not a string"
  end.

Definition asBoolean (o : PSObject) : outcome bool :=
  match o with
  | PSBoolean v => Done v
  | _ => Throw "Object is not a boolean"
  end.

Definition asArray (o : PSObject) : outcome (list PSObjectPtr) :=
  match o with
  | PSArray v => Done v
  | _ => Throw "Object is not an array"
  end.

Definition asProcedure (o : PSObject) : outcome (list string) :=
  match o with
  | PSProcedure v => Done v
  | _ => Throw "Object is not a procedure"
  end.

Definition arrayLength (o : PSObject) : outcome nat :=
  match o with
  | PSArray v => Done (length v)
  | _ => Throw "Object is not an array"
  end.

Definition arrayGet (o : PSObject) (index : nat) : outcome PSObjectPtr :=
  match o with
  | PSArray v =>
      match v !! index with
      | Some p => Done p
      | None => Throw "Array index out of bounds"
      end
  | _ => Throw "Object is not an array"
  end.

(** [arraySet] writes into the object itself; the caller stores the result
    back at the object's address. *)
Definition arraySet (o : PSObject) (index : nat) (obj : PSObjectPtr) : outcome PSObject :=
  match o with
  | PSArray v =>
      if decide (index < length v)%nat
      then Done (PSArray (<[index := obj]> v))
      else Throw "Array index out of bounds"
  | _ => Throw "Object is not an array"
  end.

Definition dictPut (o : PSObject) (key : string) (value : PSObjectPtr) : outcome PSObject :=
  match o with
  | PSDictionary d => Done (PSDictionary (<[key := value]> d))
  | _ => Throw "Object is not a dictionary"
  end.

Definition dictGet (o : PSObject) (key : string) : outcome PSObjectPtr :=
  match o with
  | PSDictionary d =>
      match d !! key with
      | Some p => Done p
      | None => Throw ("Dictionary key not found: " +:+ key)
      end
  | _ => Throw "Object is not a dictionary"
  end.

Definition dictHas (o : PSObject) (key : string) : bool :=
  match o with
  | PSDictionary d => bool_decide (is_Some (d !! key))
  | _ => false
  end.

(** The keys in the order of [map_to_list]; the source iterates an
    unordered_map, whose order is unspecified. *)
Definition dictKeys (o : PSObject) : outcome (list string) :=
  match o with
  | PSDictionary d => Done ((map_to_list d).*1)
  | _ => Throw "Object is not a dictionary"
  end.

(** ** Graphics state *)

Module Graphics.

Record Point : Type := mkPoint { x : float; y : float }.

Inductive SegmentType : Type := MoveTo | LineTo | CurveTo | ClosePath.

Record PathSegment : Type := mkPathSegment {
  type : SegmentType;
  points : list Point
}.

(** [std::array<double, 6>] *)
Record Matrix : Type := mkMatrix {
  ctm0 : float; ctm1 : float; ctm2 : float;
  ctm3 : float; ctm4 : float; ctm5 : float
}.

Record GraphicsState : Type := mkGraphicsState {
  currentPoint : Point;
  currentPath : list PathSegment;
  ctm : Matrix;
  lineWidth : float;
  r : float;
  g : float;
  b : float
}.

(** The default constructor of [GraphicsState]. *)
Definition GraphicsState0 : GraphicsState :=
  mkGraphicsState (mkPoint 0 0) [] (mkMatrix 1 0 0 1 0 0) 1 0 0 0.

End Graphics.

Abbreviation GraphicsState := Graphics.GraphicsState.

(** ** Interpreter state: include/ps_interpreter.h

    [heap] is the store behind every [PSObjectPtr] of the process; the other
    fields are the data members of [PSInterpreter]. The head of each list is
    the [back()] of the vector. *)

Record PSInterpreter : Type := mkPSInterpreter {
  heap : list PSObject;
  stack_ : list PSObjectPtr;
  dictionaryStack_ : list PSObjectPtr;
  graphicsStack_ : list GraphicsState
}.

Definition with_heap (h : list PSObject) (st : PSInterpreter) : PSInterpreter :=
  mkPSInterpreter h (stack_ st) (dictionaryStack_ st) (graphicsStack_ st).

Definition with_stack (s : list PSObjectPtr) (st : PSInterpreter) : PSInterpreter :=
  mkPSInterpreter (heap st) s (dictionaryStack_ st) (graphicsStack_ st).

Definition with_graphics (gs : list GraphicsState) (st : PSInterpreter) : PSInterpreter :=
  mkPSInterpreter (heap st) (stack_ st) (dictionaryStack_ st) gs.

(** [std::make_shared<PSObject>(o)]: a fresh address holding [o]. *)
Definition make_shared (o : PSObject) (st : PSInterpreter) : PSObjectPtr * PSInterpreter :=
  (length (heap st), with_heap (heap st ++ [o]) st).

(** [*p]. Every handle the interpreter holds is allocated; the [Throw] is
    there to keep the function total. *)
Definition deref (st : PSInterpreter) (p : PSObjectPtr) : outcome PSObject :=
  match heap st !! p with
  | Some o => Done o
  | None => Throw "null pointer"
  end.

(** Store the object mutated through [p] back at its address. *)
Definition assign (p : PSObjectPtr) (o : PSObject) (st : PSInterpreter) : PSInterpreter :=
  with_heap (<[p := o]> (heap st)) st.

(** The constructor [PSInterpreter::PSInterpreter()], run on a store [h]. *)
Definition new_interpreter (h : list PSObject) : PSInterpreter :=
  mkPSInterpreter (h ++ [PSDictionary ∅]) [] [length h] [Graphics.GraphicsState0].

Definition getCurrentDictionary (st : PSInterpreter) : option PSObjectPtr :=
  head (dictionaryStack_ st).

(** ** The operand stack: unnamed/part_004 *)

Module PSStack.

Definition size (st : PSInterpreter) : nat := length (stack_ st).

Definition empty (st : PSInterpreter) : bool :=
  match stack_ st with [] => true | _ => false end.

Definition push (obj : PSObjectPtr) (st : PSInterpreter) : PSInterpreter :=
  with_stack (obj :: stack_ st) st.

Definition pop (st : PSInterpreter) : outcome (PSObjectPtr * PSInterpreter) :=
  match stack_ st with
  | [] => Throw "Stack underflow: cannot pop from empty stack"
  | top :: rest => Done (top, with_stack rest st)
  end.

Definition peek (st : PSInterpreter) : outcome PSObjectPtr :=
  match stack_ st with
  | [] => Throw "Stack underflow: cannot peek empty stack"
  | top :: _ => Done top
  end.

(** [copy = std::make_shared<PSObject>( *top )]: the copy constructor of
    [PSObject] copies the tag and the variant; for an array that is the
    vector of element handles. *)
Definition dup (st : PSInterpreter) : outcome PSInterpreter :=
  match stack_ st with
  | [] => Throw "Stack underflow: cannot dup empty stack"
  | top :: _ =>
      o ← deref st top;
      let '(copy, st1) := make_shared o st in
      Done (push copy st1)
  end.

Definition exch (st : PSInterpreter) : outcome PSInterpreter :=
  match stack_ st with
  | a :: b :: rest => Done (with_stack (b :: a :: rest) st)
  | _ => Throw "Stack underflow: need at least 2 elements for exch"
  end.

Definition clear (st : PSInterpreter) : PSInterpreter := with_stack [] st.

End PSStack.

(** ** The operator library: unnamed/part_003 *)

(** [interpreter.executeToken], as the operators see it. *)
Definition executor : Type := string -> PSInterpreter -> outcome PSInterpreter.

(** [using OperatorFunction = std::function<void(PSInterpreter&)>]; the
    executor argument is the interpreter's own [executeToken]. *)
Definition OperatorFunction : Type := executor -> PSInterpreter -> outcome PSInterpreter.

Module Operators.
Section Operators.
Context `{LibC}.

(** [if (stack.size() < n) throw std::runtime_error(what)] *)
Definition need (n : nat) (what : string) (st : PSInterpreter) : outcome unit :=
  if decide (PSStack.size st < n)%nat then Throw what else Done tt.

(** [PSObjectPtr p = stack.pop()], together with the object behind [p]. *)
Definition pop_obj (st : PSInterpreter)
  : outcome (PSObjectPtr * PSObject * PSInterpreter) :=
  '(p, st1) ← PSStack.pop st;
  o ← deref st1 p;
  Done (p, o, st1).

(** [stack.push(std::make_shared<PSObject>(o))] *)
Definition push_new (o : PSObject) (st : PSInterpreter) : PSInterpreter :=
  let '(p, st1) := make_shared o st in PSStack.push p st1.

(** [(o->getType() == ObjectType::INTEGER) ? o->asInteger() : o->asReal()] *)
Definition to_double (o : PSObject) : outcome float :=
  match o with
  | PSInteger v => Done (int_to_double v)
  | _ => asReal o
  end.

Definition is_type (t : ObjectType) (o : PSObject) : bool :=
  bool_decide (getType o = t).

(** The "Handle different type combinations" block shared by [add], [sub]
    and [mul]. [int result = a + b] is undefined when it overflows; the
    embedding is the source's where [iop x y] is an [int]. *)
Definition arith (name : string) (iop : Z -> Z -> Z) (fop : float -> float -> float)
    (a b : PSObject) : outcome PSObject :=
  if (is_type INTEGER a && is_type INTEGER b)%bool then
    x ← asInteger a; y ← asInteger b;
    Done (PSInteger (wrap32 (iop x y)))
  else if (is_type REAL a || is_type REAL b)%bool then
    aVal ← to_double a; bVal ← to_double b;
    Done (PSReal (fop aVal bVal))
  else Throw ("Invalid operands for " +:+ name +:+ " operation").

Definition binary_arith (name : string) (iop : Z -> Z -> Z)
    (fop : float -> float -> float) (st : PSInterpreter) : outcome PSInterpreter :=
  _ ← need 2 ("Stack underflow: need 2 operands for " +:+ name) st;
  '(_, b, st1) ← pop_obj st;
  '(_, a, st2) ← pop_obj st1;
  res ← arith name iop fop a b;
  Done (push_new res st2).

Definition add : PSInterpreter -> outcome PSInterpreter :=
  binary_arith "add" Z.add PrimFloat.add.
Definition sub : PSInterpreter -> outcome PSInterpreter :=
  binary_arith "sub" Z.sub PrimFloat.sub.
Definition mul : PSInterpreter -> outcome PSInterpreter :=
  binary_arith "mul" Z.mul PrimFloat.mul.

(** [b] is an exact integer zero or a real that compares equal to 0.0. *)
Definition is_zero (o : PSObject) : bool :=
  match o with
  | PSInteger v => v =? 0
  | PSReal v => PrimFloat.eqb v 0
  | _ => false
  end.

(** The body of [div] after the two pops. [Z.quot] truncates toward zero
    as the division of [int] does. INT_MIN / -1 overflows, which is
    undefined; the embedding is the source's where the quotient is an
    [int]. *)
Definition div_values (a b : PSObject) : outcome PSObject :=
  if is_zero b then Throw "Division by zero"
  else if (is_type INTEGER a && is_type INTEGER b)%bool then
    x ← asInteger a; y ← asInteger b;
    Done (PSInteger (wrap32 (Z.quot x y)))
  else
    aVal ← to_double a; bVal ← to_double b;
    Done (PSReal (PrimFloat.div aVal bVal)).

Definition div (st : PSInterpreter) : outcome PSInterpreter :=
  _ ← need 2 "Stack underflow: need 2 operands for div" st;
  '(_, b, st1) ← pop_obj st;
  '(_, a, st2) ← pop_obj st1;
  res ← div_values a b;
  Done (push_new res st2).

Definition dup (st : PSInterpreter) : outcome PSInterpreter := PSStack.dup st.

Definition pop (st : PSInterpreter) : outcome PSInterpreter :=
  '(_, st1) ← PSStack.pop st; Done st1.

Definition exch (st : PSInterpreter) : outcome PSInterpreter := PSStack.exch st.

Definition clear (st : PSInterpreter) : outcome PSInterpreter :=
  Done (PSStack.clear st).

(** [stack] prints the operand stack and changes nothing; it returns when
    [toString] returns on every entry. *)
Definition stack (st : PSInterpreter) : outcome PSInterpreter := Done st.

(** [show] pops one object and prints it; it returns when [toString]
    returns on the object. *)
Definition show (st : PSInterpreter) : outcome PSInterpreter :=
  _ ← need 1 "Stack underflow: need 1 operand for show" st;
  '(_, _, st1) ← pop_obj st;
  Done st1.

(** The [switch] of [eq], entered when the two tags agree. *)
Definition eq_values (a b : PSObject) : bool :=
  if bool_decide (getType a = getType b) then
    match a, b with
    | PSInteger x, PSInteger y => x =? y
    | PSReal x, PSReal y => PrimFloat.eqb x y
    | PSString x, PSString y => bool_decide (x = y)
    | PSBoolean x, PSBoolean y => bool_decide (x = y)
    | _, _ => false
    end
  else false.

Definition eq (st : PSInterpreter) : outcome PSInterpreter :=
  _ ← need 2 "Stack underflow: need 2 operands for eq" st;
  '(_, b, st1) ← pop_obj st;
  '(_, a, st2) ← pop_obj st1;
  Done (push_new (PSBoolean (eq_values a b)) st2).

Definition ne (st : PSInterpreter) : outcome PSInterpreter :=
  st1 ← eq st;
  '(_, result, st2) ← pop_obj st1;
  v ← asBoolean result;
  Done (push_new (PSBoolean (negb v)) st2).

(** The block shared by [lt], [le], [gt] and [ge]. *)
Definition compare_values (name : string) (icmp : Z -> Z -> bool)
    (fcmp : float -> float -> bool) (a b : PSObject) : outcome bool :=
  if (is_type INTEGER a && is_type INTEGER b)%bool then
    x ← asInteger a; y ← asInteger b; Done (icmp x y)
  else if (is_type REAL a || is_type REAL b)%bool then
    aVal ← to_double a; bVal ← to_double b; Done (fcmp aVal bVal)
  else Throw ("Invalid operands for " +:+ name +:+ " operation").

Definition binary_compare (name : string) (icmp : Z -> Z -> bool)
    (fcmp : float -> float -> bool) (st : PSInterpreter) : outcome PSInterpreter :=
  _ ← need 2 ("Stack underflow: need 2 operands for " +:+ name) st;
  '(_, b, st1) ← pop_obj st;
  '(_, a, st2) ← pop_obj st1;
  res ← compare_values name icmp fcmp a b;
  Done (push_new (PSBoolean res) st2).

Definition lt : PSInterpreter -> outcome PSInterpreter :=
  binary_compare "lt" Z.ltb PrimFloat.ltb.
Definition le : PSInterpreter -> outcome PSInterpreter :=
  binary_compare "le" Z.leb PrimFloat.leb.
Definition gt : PSInterpreter -> outcome PSInterpreter :=
  binary_compare "gt" Z.gtb (fun u v => PrimFloat.ltb v u).
Definition ge : PSInterpreter -> outcome PSInterpreter :=
  binary_compare "ge" Z.geb (fun u v => PrimFloat.leb v u).

(** *** Arrays *)

Definition array (st : PSInterpreter) : outcome PSInterpreter :=
  _ ← need 1 "Stack underflow: need size for array" st;
  '(_, sizeObj, st1) ← pop_obj st;
  if negb (is_type INTEGER sizeObj) then Throw "Array size must be an integer"
  else
    size ← asInteger sizeObj;
    if size <? 0 then Throw "Array size cannot be negative"
    else
      (* array[i] = std::make_shared<PSObject>() for i = 0 .. size-1 *)
      let n := Z.to_nat size in
      let first := length (heap st1) in
      let st2 := with_heap (heap st1 ++ replicate n PSNull) st1 in
      Done (push_new (PSArray (seq first n)) st2).

(** [index < 0 || static_cast<size_t>(index) >= arrayObj->arrayLength()] *)
Definition out_of_bounds (index : Z) (len : nat) : bool :=
  ((index <? 0) || (Z.of_nat len <=? index))%bool.

Definition get (st : PSInterpreter) : outcome PSInterpreter :=
  _ ← need 2 "Stack underflow: need array and index for get" st;
  '(_, indexObj, st1) ← pop_obj st;
  '(_, arrayObj, st2) ← pop_obj st1;
  if negb (is_type ARRAY arrayObj) then Throw "First operand must be an array"
  else if negb (is_type INTEGER indexObj) then Throw "Index must be an integer"
  else
    index ← asInteger indexObj;
    len ← arrayLength arrayObj;
    if out_of_bounds index len then Throw "Array index out of bounds"
    else
      p ← arrayGet arrayObj (Z.to_nat index);
      Done (PSStack.push p st2).

(** [put] prints [value->toString()] before the write and
    [arrayObj->toString()] after it; it returns when both prints do. *)
Definition put (st : PSInterpreter) : outcome PSInterpreter :=
  _ ← need 3 "Stack underflow: need array, index, and value for put" st;
  '(value, st1) ← PSStack.pop st;
  '(_, indexObj, st2) ← pop_obj st1;
  '(arrayPtr, arrayObj, st3) ← pop_obj st2;
  if negb (is_type ARRAY arrayObj) then Throw "First operand must be an array"
  else if negb (is_type INTEGER indexObj) then Throw "Index must be an integer"
  else
    index ← asInteger indexObj;
    len ← arrayLength arrayObj;
    if out_of_bounds index len then Throw "Array index out of bounds"
    else
      arrayObj' ← arraySet arrayObj (Z.to_nat index) value;
      (* Push the array back onto the stack to preserve reference *)
      Done (PSStack.push arrayPtr (assign arrayPtr arrayObj' st3)).

(** A string's length without one pair of enclosing parentheses. *)
Definition string_body (str : string) : string :=
  if ((2 <=? slen str) && is_char (first_char str) "("%char
      && is_char (last_char str) ")"%char)%bool
  then interior 1 str else str.

Definition length (st : PSInterpreter) : outcome PSInterpreter :=
  _ ← need 1 "Stack underflow: need operand for length" st;
  '(_, obj, st1) ← pop_obj st;
  match obj with
  | PSArray v => Done (push_new (PSInteger (wrap32 (Z.of_nat (List.length v)))) st1)
  | PSString str =>
      Done (push_new (PSInteger (wrap32 (slen (string_body str)))) st1)
  | _ => Throw "Length operation not supported for this type"
  end.

(** [for (const auto& element : array) stack.push(element)] *)
Definition push_all (elements : list PSObjectPtr) (st : PSInterpreter) : PSInterpreter :=
  fold_left (fun s element => PSStack.push element s) elements st.

Definition aload (st : PSInterpreter) : outcome PSInterpreter :=
  _ ← need 1 "Stack underflow: need array for aload" st;
  '(arrayPtr, arrayObj, st1) ← pop_obj st;
  if negb (is_type ARRAY arrayObj) then Throw "Operand must be an array"
  else
    array ← asArray arrayObj;
    Done (PSStack.push arrayPtr (push_all array st1)).

(** [for (size_t i = arraySize; i > 0; --i) { element = stack.pop();
    arrayObj->arraySet(i - 1, element); }] *)
Fixpoint astore_loop (i : nat) (arrayPtr : PSObjectPtr) (st : PSInterpreter)
  : outcome PSInterpreter :=
  match i with
  | O => Done st
  | S i' =>
      '(element, st1) ← PSStack.pop st;
      arrayObj ← deref st1 arrayPtr;
      arrayObj' ← arraySet arrayObj i' element;
      astore_loop i' arrayPtr (assign arrayPtr arrayObj' st1)
  end.

Definition astore (st : PSInterpreter) : outcome PSInterpreter :=
  _ ← need 1 "Stack underflow: need array for astore" st;
  '(arrayPtr, arrayObj, st1) ← pop_obj st;
  if negb (is_type ARRAY arrayObj) then Throw "Operand must be an array"
  else
    arraySize ← arrayLength arrayObj;
    if decide (PSStack.size st1 < arraySize)%nat
    then Throw "Stack underflow: not enough elements for astore"
    else
      st2 ← astore_loop arraySize arrayPtr st1;
      Done (PSStack.push arrayPtr st2).

(** *** Dictionaries *)

Definition dict (st : PSInterpreter) : outcome PSInterpreter :=
  _ ← need 1 "Stack underflow: need size for dict" st;
  '(_, sizeObj, st1) ← pop_obj st;
  if negb (is_type INTEGER sizeObj) then Throw "Dictionary size must be an integer"
  else
    size ← asInteger sizeObj;
    if size <? 0 then Throw "Dictionary size cannot be negative"
    else Done (push_new (PSDictionary ∅) st1).

(** The current dictionary as [def] and [load] fetch it. *)
Definition current_dictionary (st : PSInterpreter)
  : outcome (PSObjectPtr * PSObject) :=
  match getCurrentDictionary st with
  | None => Throw "No current dictionary available"
  | Some p =>
      o ← deref st p;
      if is_type DICTIONARY o then Done (p, o)
      else Throw "No current dictionary available"
  end.

Definition def (st : PSInterpreter) : outcome PSInterpreter :=
  _ ← need 2 "Stack underflow: need key and value for def" st;
  '(value, st1) ← PSStack.pop st;
  '(_, keyObj, st2) ← pop_obj st1;
  if negb (is_type STRING keyObj) then Throw "Key must be a string"
  else
    key ← asString keyObj;
    '(dictPtr, currentDict) ← current_dictionary st2;
    currentDict' ← dictPut currentDict (strip_slash key) value;
    Done (assign dictPtr currentDict' st2).

Definition load (st : PSInterpreter) : outcome PSInterpreter :=
  _ ← need 1 "Stack underflow: need key for load" st;
  '(_, keyObj, st1) ← pop_obj st;
  if negb (is_type STRING keyObj) then Throw "Key must be a string"
  else
    key ← asString keyObj;
    '(_, currentDict) ← current_dictionary st1;
    if negb (dictHas currentDict (strip_slash key))
    then Throw ("Key not found in dictionary: " +:+ strip_slash key)
    else
      p ← dictGet currentDict (strip_slash key);
      Done (PSStack.push p st1).

Definition store (st : PSInterpreter) : outcome PSInterpreter :=
  _ ← need 3 "Stack underflow: need dictionary, key, and value for store" st;
  '(value, st1) ← PSStack.pop st;
  '(_, keyObj, st2) ← pop_obj st1;
  '(dictPtr, dictObj, st3) ← pop_obj st2;
  if negb (is_type DICTIONARY dictObj) then Throw "First operand must be a dictionary"
  else if negb (is_type STRING keyObj) then Throw "Key must be a string"
  else
    key ← asString keyObj;
    dictObj' ← dictPut dictObj (strip_slash key) value;
    Done (assign dictPtr dictObj' st3).

Definition known (st : PSInterpreter) : outcome PSInterpreter :=
  _ ← need 2 "Stack underflow: need dictionary and key for known" st;
  '(_, keyObj, st1) ← pop_obj st;
  '(_, dictObj, st2) ← pop_obj st1;
  if negb (is_type DICTIONARY dictObj) then Throw "First operand must be a dictionary"
  else if negb (is_type STRING keyObj) then Throw "Key must be a string"
  else
    key ← asString keyObj;
    Done (push_new (PSBoolean (dictHas dictObj (strip_slash key))) st2).

Definition keys (st : PSInterpreter) : outcome PSInterpreter :=
  _ ← need 1 "Stack underflow: need dictionary for keys" st;
  '(_, dictObj, st1) ← pop_obj st;
  if negb (is_type DICTIONARY dictObj) then Throw "Operand must be a dictionary"
  else
    keyList ← dictKeys dictObj;
    (* keyArray.push_back(std::make_shared<PSObject>("/" + key)) *)
    let first := List.length (heap st1) in
    let st2 := with_heap (heap st1 ++ map (fun key => PSString ("/" +:+ key)) keyList) st1 in
    Done (push_new (PSArray (seq first (List.length keyList))) st2).

(** *** Procedures and control flow *)

(** [for (const auto& token : proc) interpreter.executeToken(token);] *)
Fixpoint run_tokens (exec : executor) (proc : list string) (st : PSInterpreter)
  : outcome PSInterpreter :=
  match proc with
  | [] => Done st
  | token :: rest => st1 ← exec token st; run_tokens exec rest st1
  end.

Definition exec (exec_token : executor) (st : PSInterpreter) : outcome PSInterpreter :=
  _ ← need 1 "Stack underflow: need procedure for exec" st;
  '(_, procObj, st1) ← pop_obj st;
  if negb (is_type PROCEDURE procObj) then Throw "Operand must be a procedure"
  else
    proc ← asProcedure procObj;
    run_tokens exec_token proc st1.

(** [for (const auto& element : array) { stack.push(element); <run proc> }] *)
Fixpoint forall_loop (exec_token : executor) (elements : list PSObjectPtr)
    (proc : list string) (st : PSInterpreter) : outcome PSInterpreter :=
  match elements with
  | [] => Done st
  | element :: rest =>
      st1 ← run_tokens exec_token proc (PSStack.push element st);
      forall_loop exec_token rest proc st1
  end.

Definition forall_ (exec_token : executor) (st : PSInterpreter) : outcome PSInterpreter :=
  _ ← need 2 "Stack underflow: need array and procedure for forall" st;
  '(_, procObj, st1) ← pop_obj st;
  '(_, arrayObj, st2) ← pop_obj st1;
  if negb (is_type ARRAY arrayObj) then Throw "First operand must be an array"
  else if negb (is_type PROCEDURE procObj) then Throw "Second operand must be a procedure"
  else
    array ← asArray arrayObj;
    proc ← asProcedure procObj;
    forall_loop exec_token array proc st2.

(** The value of [condition] in [if_] and [ifelse]: it starts out [false]
    and is assigned for a Boolean, an Integer and a Real only. *)
Definition condition_of (conditionObj : PSObject) : bool :=
  match conditionObj with
  | PSBoolean v => v
  | PSInteger v => negb (v =? 0)
  | PSReal v => negb (PrimFloat.eqb v 0)
  | _ => false
  end.

Definition if_ (exec_token : executor) (st : PSInterpreter) : outcome PSInterpreter :=
  _ ← need 2 "Stack underflow: need condition and procedure for if" st;
  '(_, procObj, st1) ← pop_obj st;
  '(_, conditionObj, st2) ← pop_obj st1;
  if negb (is_type PROCEDURE procObj) then Throw "Second operand must be a procedure"
  else
    if condition_of conditionObj then
      proc ← asProcedure procObj;
      run_tokens exec_token proc st2
    else Done st2.

Definition ifelse (exec_token : executor) (st : PSInterpreter) : outcome PSInterpreter :=
  _ ← need 3 "Stack underflow: need condition and two procedures for ifelse" st;
  '(_, elseProcObj, st1) ← pop_obj st;
  '(_, thenProcObj, st2) ← pop_obj st1;
  '(_, conditionObj, st3) ← pop_obj st2;
  if negb (is_type PROCEDURE thenProcObj) then Throw "Second operand must be a procedure"
  else if negb (is_type PROCEDURE elseProcObj) then Throw "Third operand must be a procedure"
  else
    proc ← (if condition_of conditionObj
            then asProcedure thenProcObj else asProcedure elseProcObj);
    run_tokens exec_token proc st3.

Fixpoint repeat_loop (exec_token : executor) (count : nat) (proc : list string)
    (st : PSInterpreter) : outcome PSInterpreter :=
  match count with
  | O => Done st
  | S count' =>
      st1 ← run_tokens exec_token proc st;
      repeat_loop exec_token count' proc st1
  end.

Definition repeat (exec_token : executor) (st : PSInterpreter) : outcome PSInterpreter :=
  _ ← need 2 "Stack underflow: need count and procedure for repeat" st;
  '(_, procObj, st1) ← pop_obj st;
  '(_, countObj, st2) ← pop_obj st1;
  if negb (is_type PROCEDURE procObj) then Throw "Second operand must be a procedure"
  else if negb (is_type INTEGER countObj) then Throw "Count must be an integer"
  else
    count ← asInteger countObj;
    if count <? 0 then Throw "Repeat count cannot be negative"
    else
      proc ← asProcedure procObj;
      repeat_loop exec_token (Z.to_nat count) proc st2.

(** The number of times the loop test of [for_] succeeds, for a control
    variable that runs from [start] by [increment] up (or down) to [end_]. *)
Definition for_count (start end_ increment : Z) : nat :=
  if 0 <? increment
  then (if start <=? end_ then Z.to_nat ((end_ - start) / increment + 1) else O)
  else (if end_ <=? start then Z.to_nat ((start - end_) / (- increment) + 1) else O).

(** [n] iterations from [i]: push [i], run the procedure, [i += increment].
    The last [i += increment] of the source overflows when the next value
    leaves the range of [int]; the values pushed never do. *)
Fixpoint for_loop (exec_token : executor) (n : nat) (i increment : Z)
    (proc : list string) (st : PSInterpreter) : outcome PSInterpreter :=
  match n with
  | O => Done st
  | S n' =>
      st1 ← run_tokens exec_token proc (push_new (PSInteger i) st);
      for_loop exec_token n' (i + increment) increment proc st1
  end.

Definition for_ (exec_token : executor) (st : PSInterpreter) : outcome PSInterpreter :=
  _ ← need 4 "Stack underflow: need start, end, increment, and procedure for for" st;
  '(_, procObj, st1) ← pop_obj st;
  '(_, incrementObj, st2) ← pop_obj st1;
  '(_, endObj, st3) ← pop_obj st2;
  '(_, startObj, st4) ← pop_obj st3;
  if negb (is_type PROCEDURE procObj) then Throw "Fourth operand must be a procedure"
  else if (negb (is_type INTEGER startObj) || negb (is_type INTEGER endObj)
           || negb (is_type INTEGER incrementObj))%bool
  then Throw "Start, end, and increment must be integers"
  else
    start ← asInteger startObj;
    end_ ← asInteger endObj;
    increment ← asInteger incrementObj;
    if increment =? 0 then Throw "Increment cannot be zero"
    else
      proc ← asProcedure procObj;
      for_loop exec_token (for_count start end_ increment) start increment proc st4.

(** *** Graphics *)

(** [interpreter.getCurrentGraphicsState()], that is [graphicsStack_.back()].
    The graphics stack of a running interpreter is never empty; the [Throw]
    keeps the function total. *)
Definition getCurrentGraphicsState (st : PSInterpreter) : outcome GraphicsState :=
  match graphicsStack_ st with
  | gs :: _ => Done gs
  | [] => Throw "graphics stack is empty"
  end.

(** Write through the reference that [getCurrentGraphicsState] returns. *)
Definition setCurrentGraphicsState (gs : GraphicsState) (st : PSInterpreter) : PSInterpreter :=
  with_graphics (gs :: tail (graphicsStack_ st)) st.

Definition is_number (o : PSObject) : bool :=
  (is_type REAL o || is_type INTEGER o)%bool.

Definition set_point_path (p : Graphics.Point) (path : list Graphics.PathSegment)
    (gs : GraphicsState) : GraphicsState :=
  Graphics.mkGraphicsState p path (Graphics.ctm gs) (Graphics.lineWidth gs)
    (Graphics.r gs) (Graphics.g gs) (Graphics.b gs).

Definition set_path (path : list Graphics.PathSegment) (gs : GraphicsState) : GraphicsState :=
  set_point_path (Graphics.currentPoint gs) path gs.

Definition set_ctm (m : Graphics.Matrix) (gs : GraphicsState) : GraphicsState :=
  Graphics.mkGraphicsState (Graphics.currentPoint gs) (Graphics.currentPath gs) m
    (Graphics.lineWidth gs) (Graphics.r gs) (Graphics.g gs) (Graphics.b gs).

(** The body shared by [moveto] and [lineto]. *)
Definition point_operator (name : string) (kind : Graphics.SegmentType)
    (st : PSInterpreter) : outcome PSInterpreter :=
  _ ← need 2 ("Stack underflow: need x and y for " +:+ name) st;
  '(_, yObj, st1) ← pop_obj st;
  '(_, xObj, st2) ← pop_obj st1;
  if negb (is_number xObj) then Throw "X coordinate must be a number"
  else if negb (is_number yObj) then Throw "Y coordinate must be a number"
  else
    x ← to_double xObj;
    y ← to_double yObj;
    gs ← getCurrentGraphicsState st2;
    let p := Graphics.mkPoint x y in
    Done (setCurrentGraphicsState
            (set_point_path p
               (Graphics.currentPath gs ++ [Graphics.mkPathSegment kind [p]]) gs)
            st2).

Definition moveto : PSInterpreter -> outcome PSInterpreter :=
  point_operator "moveto" Graphics.MoveTo.
Definition lineto : PSInterpreter -> outcome PSInterpreter :=
  point_operator "lineto" Graphics.LineTo.

Definition closepath (st : PSInterpreter) : outcome PSInterpreter :=
  gs ← getCurrentGraphicsState st;
  Done (setCurrentGraphicsState
          (set_path (Graphics.currentPath gs
                     ++ [Graphics.mkPathSegment Graphics.ClosePath []]) gs) st).

(** [stroke], [fill] and [newpath] leave the current path empty; the first
    two print it before. *)
Definition clear_path (st : PSInterpreter) : outcome PSInterpreter :=
  gs ← getCurrentGraphicsState st;
  Done (setCurrentGraphicsState (set_path [] gs) st).

Definition stroke : PSInterpreter -> outcome PSInterpreter := clear_path.
Definition fill : PSInterpreter -> outcome PSInterpreter := clear_path.
Definition newpath : PSInterpreter -> outcome PSInterpreter := clear_path.

Definition gsave (st : PSInterpreter) : outcome PSInterpreter :=
  (* Push a copy of the current graphics state *)
  gs ← getCurrentGraphicsState st;
  Done (with_graphics (gs :: graphicsStack_ st) st).

Definition grestore (st : PSInterpreter) : outcome PSInterpreter :=
  if decide (List.length (graphicsStack_ st) <= 1)%nat
  then Throw "Graphics state stack underflow"
  else Done (with_graphics (tail (graphicsStack_ st)) st).

Definition translate (st : PSInterpreter) : outcome PSInterpreter :=
  _ ← need 2 "Stack underflow: need tx and ty for translate" st;
  '(_, tyObj, st1) ← pop_obj st;
  '(_, txObj, st2) ← pop_obj st1;
  if negb (is_number txObj) then Throw "TX must be a number"
  else if negb (is_number tyObj) then Throw "TY must be a number"
  else
    tx ← to_double txObj;
    ty ← to_double tyObj;
    gs ← getCurrentGraphicsState st2;
    let m := Graphics.ctm gs in
    let new_e := (Graphics.ctm0 m * tx + Graphics.ctm2 m * ty + Graphics.ctm4 m)%float in
    let new_f := (Graphics.ctm1 m * tx + Graphics.ctm3 m * ty + Graphics.ctm5 m)%float in
    Done (setCurrentGraphicsState
            (set_ctm (Graphics.mkMatrix (Graphics.ctm0 m) (Graphics.ctm1 m)
                        (Graphics.ctm2 m) (Graphics.ctm3 m) new_e new_f) gs) st2).

Definition scale (st : PSInterpreter) : outcome PSInterpreter :=
  _ ← need 2 "Stack underflow: need sx and sy for scale" st;
  '(_, syObj, st1) ← pop_obj st;
  '(_, sxObj, st2) ← pop_obj st1;
  if negb (is_number sxObj) then Throw "SX must be a number"
  else if negb (is_number syObj) then Throw "SY must be a number"
  else
    sx ← to_double sxObj;
    sy ← to_double syObj;
    gs ← getCurrentGraphicsState st2;
    let m := Graphics.ctm gs in
    Done (setCurrentGraphicsState
            (set_ctm (Graphics.mkMatrix
                        (sx * Graphics.ctm0 m)%float (sx * Graphics.ctm1 m)%float
                        (sy * Graphics.ctm2 m)%float (sy * Graphics.ctm3 m)%float
                        (Graphics.ctm4 m) (Graphics.ctm5 m)) gs) st2).

Definition rotate (st : PSInterpreter) : outcome PSInterpreter :=
  _ ← need 1 "Stack underflow: need angle for rotate" st;
  '(_, angleObj, st1) ← pop_obj st;
  if negb (is_number angleObj) then Throw "Angle must be a number"
  else
    angle ← to_double angleObj;
    let radians := (angle * M_PI / 180)%float in
    let cos_a := cos radians in
    let sin_a := sin radians in
    gs ← getCurrentGraphicsState st1;
    let m := Graphics.ctm gs in
    Done (setCurrentGraphicsState
            (set_ctm (Graphics.mkMatrix
                        (cos_a * Graphics.ctm0 m - sin_a * Graphics.ctm2 m)%float
                        (cos_a * Graphics.ctm1 m - sin_a * Graphics.ctm3 m)%float
                        (sin_a * Graphics.ctm0 m + cos_a * Graphics.ctm2 m)%float
                        (sin_a * Graphics.ctm1 m + cos_a * Graphics.ctm3 m)%float
                        (Graphics.ctm4 m) (Graphics.ctm5 m)) gs) st1).

Definition setrgbcolor (st : PSInterpreter) : outcome PSInterpreter :=
  _ ← need 3 "Stack underflow: need r, g, b for setrgbcolor" st;
  '(_, bObj, st1) ← pop_obj st;
  '(_, gObj, st2) ← pop_obj st1;
  '(_, rObj, st3) ← pop_obj st2;
  if negb (is_number rObj) then Throw "R must be a number"
  else if negb (is_number gObj) then Throw "G must be a number"
  else if negb (is_number bObj) then Throw "B must be a number"
  else
    gs ← getCurrentGraphicsState st3;
    r ← to_double rObj;
    g ← to_double gObj;
    b ← to_double bObj;
    Done (setCurrentGraphicsState
            (Graphics.mkGraphicsState (Graphics.currentPoint gs)
               (Graphics.currentPath gs) (Graphics.ctm gs)
               (Graphics.lineWidth gs) r g b) st3).

Definition setlinewidth (st : PSInterpreter) : outcome PSInterpreter :=
  _ ← need 1 "Stack underflow: need width for setlinewidth" st;
  '(_, widthObj, st1) ← pop_obj st;
  if negb (is_number widthObj) then Throw "Width must be a number"
  else
    gs ← getCurrentGraphicsState st1;
    width ← to_double widthObj;
    Done (setCurrentGraphicsState
            (Graphics.mkGraphicsState (Graphics.currentPoint gs)
               (Graphics.currentPath gs) (Graphics.ctm gs)
               width (Graphics.r gs) (Graphics.g gs) (Graphics.b gs)) st1).

(** [showpage] only prints. *)
Definition showpage (st : PSInterpreter) : outcome PSInterpreter := Done st.

End Operators.
End Operators.

(** ** The operator registry *)

Section Registry.
Context `{LibC}.

(** An operator that does not call back into the interpreter. *)
Definition plain (f : PSInterpreter -> outcome PSInterpreter) : OperatorFunction :=
  fun _ => f.

(** [operators_[name] = func] *)
Definition registerOperator (name : string) (func : OperatorFunction)
    (operators_ : gmap string OperatorFunction) : gmap string OperatorFunction :=
  <[name := func]> operators_.

(** The registrations of the constructor [OperatorRegistry::OperatorRegistry],
    in the order of the source. *)
Definition registrations : list (string * OperatorFunction) :=
  [ ("add", plain Operators.add); ("sub", plain Operators.sub);
    ("mul", plain Operators.mul); ("div", plain Operators.div);
    ("dup", plain Operators.dup); ("pop", plain Operators.pop);
    ("exch", plain Operators.exch); ("clear", plain Operators.clear);
    ("stack", plain Operators.stack);
    ("show", plain Operators.show);
    ("eq", plain Operators.eq); ("ne", plain Operators.ne);
    ("lt", plain Operators.lt); ("le", plain Operators.le);
    ("gt", plain Operators.gt); ("ge", plain Operators.ge);
    ("array", plain Operators.array); ("get", plain Operators.get);
    ("put", plain Operators.put); ("length", plain Operators.length);
    ("aload", plain Operators.aload); ("astore", plain Operators.astore);
    ("dict", plain Operators.dict); ("def", plain Operators.def);
    ("load", plain Operators.load); ("store", plain Operators.store);
    ("known", plain Operators.known); ("keys", plain Operators.keys);
    ("exec", Operators.exec); ("forall", Operators.forall_);
    ("if", Operators.if_); ("ifelse", Operators.ifelse);
    ("repeat", Operators.repeat); ("for", Operators.for_);
    ("moveto", plain Operators.moveto); ("lineto", plain Operators.lineto);
    ("closepath", plain Operators.closepath); ("stroke", plain Operators.stroke);
    ("fill", plain Operators.fill); ("newpath", plain Operators.newpath);
    ("gsave", plain Operators.gsave); ("grestore", plain Operators.grestore);
    ("translate", plain Operators.translate); ("scale", plain Operators.scale);
    ("rotate", plain Operators.rotate);
    ("setrgbcolor", plain Operators.setrgbcolor);
    ("setlinewidth", plain Operators.setlinewidth);
    ("showpage", plain Operators.showpage) ].

Definition OperatorRegistry : gmap string OperatorFunction :=
  fold_left (fun operators_ entry => registerOperator entry.1 entry.2 operators_)
    registrations ∅.

Definition getOperator (name : string) : option OperatorFunction :=
  OperatorRegistry !! name.

Definition hasOperator (name : string) : bool :=
  bool_decide (is_Some (OperatorRegistry !! name)).

End Registry.

(** ** The executor: src/interpreter/ps_interpreter.cpp *)

Section Interpreter.
Context `{LibC}.

(** The lookup of a bare token in the current dictionary: the tokens of
    the procedure bound to it, when the token is a key of the current
    dictionary and its value is a procedure. *)
Definition lookup_procedure (token : string) (st : PSInterpreter)
  : outcome (option (list string)) :=
  match getCurrentDictionary st with
  | None => Done None
  | Some dictPtr =>
      currentDict ← deref st dictPtr;
      if Operators.is_type DICTIONARY currentDict then
        if dictHas currentDict token then
          procPtr ← dictGet currentDict token;
          proc ← deref st procPtr;
          match proc with
          | PSProcedure procedure => Done (Some procedure)
          | _ => Done None
          end
        else Done None
      else Done None
  end.

(** The elements of an array literal: each token is executed by a
    temporary interpreter of its own, and the top of that interpreter's
    stack, if any, is appended. The objects of all interpreters live in
    the one store. *)
Fixpoint array_elements (exec : executor) (elementTokens : list string)
    (h : list PSObject) (array : list PSObjectPtr)
  : outcome (list PSObjectPtr * list PSObject) :=
  match elementTokens with
  | [] => Done (array, h)
  | elementToken :: rest =>
      match elementToken with
      | EmptyString => array_elements exec rest h array
      | _ =>
          tempInterpreter ← exec elementToken (new_interpreter h);
          match stack_ tempInterpreter with
          | top :: _ => array_elements exec rest (heap tempInterpreter) (array ++ [top])
          | [] => array_elements exec rest (heap tempInterpreter) array
          end
      end
  end.

(** The entries of a dictionary literal, two tokens at a time; a trailing
    key without a value is dropped. *)
Fixpoint dict_entries (exec : executor) (elementTokens : list string)
    (h : list PSObject) (dict : gmap string PSObjectPtr)
  : outcome (gmap string PSObjectPtr * list PSObject) :=
  match elementTokens with
  | key :: valueToken :: rest =>
      tempInterpreter ← exec valueToken (new_interpreter h);
      match stack_ tempInterpreter with
      | top :: _ =>
          dict_entries exec rest (heap tempInterpreter) (<[strip_slash key := top]> dict)
      | [] => dict_entries exec rest (heap tempInterpreter) dict
      end
  | _ => Done (dict, h)
  end.

Definition enclosed (n : Z) (open_ close_ : string) (token : string) : bool :=
  ((n <=? slen token)
   && bool_decide (substr token 0 (String.length open_) = open_)
   && bool_decide (substr_from token (String.length token - String.length close_) = close_))%bool.

(** The literal forms that [executeToken] tries after the number checks. *)
Definition execute_literal (exec : executor) (token : string) (st : PSInterpreter)
  : outcome PSInterpreter :=
  if enclosed 2 "(" ")" token then
    Done (Operators.push_new (PSString token) st)
  else if enclosed 2 "[" "]" token then
    '(array, h) ← array_elements exec (PSParser.parse (interior 1 token)) (heap st) [];
    Done (Operators.push_new (PSArray array) (with_heap h st))
  else if enclosed 4 "<<" ">>" token then
    '(dict, h) ← dict_entries exec (PSParser.parse (interior 2 token)) (heap st) ∅;
    Done (Operators.push_new (PSDictionary dict) (with_heap h st))
  else if enclosed 2 "{" "}" token then
    let procTokens := PSParser.parse (interior 1 token) in
    let procedure := filter (fun procToken => procToken ≠ "") procTokens in
    Done (Operators.push_new (PSProcedure procedure) st)
  else if bool_decide (token = "true") then
    Done (Operators.push_new (PSBoolean true) st)
  else if bool_decide (token = "false") then
    Done (Operators.push_new (PSBoolean false) st)
  else
    (* Unknown token: treated as a literal string, with a warning *)
    Done (Operators.push_new (PSString token) st).

(** The number checks of [executeToken] and what follows them. *)
Definition execute_number_or_literal (exec : executor) (token : string)
    (st : PSInterpreter) : outcome PSInterpreter :=
  if has_dot token then
    match stod token with
    | Some value => Done (Operators.push_new (PSReal value) st)
    | None => execute_literal exec token st
    end
  else
    match stoi token with
    | Some value => Done (Operators.push_new (PSInteger value) st)
    | None => execute_literal exec token st
    end.

(** [PSInterpreter::executeToken]. [fuel] bounds the depth of the calls
    of [executeToken] from within [executeToken]. *)
Fixpoint executeToken (fuel : nat) (token : string) (st : PSInterpreter)
  : outcome PSInterpreter :=
  match fuel with
  | O => OutOfFuel
  | S fuel' =>
      let exec := executeToken fuel' in
      if bool_decide (token = "") then Done st
      else
        match getOperator token with
        | Some op => op exec st
        | None =>
            if ((1 <? slen token) && is_char (first_char token) "/"%char)%bool
            then Done (Operators.push_new (PSString token) st)
            else
              found ← lookup_procedure token st;
              match found with
              | Some procedure => Operators.run_tokens exec procedure st
              | None => execute_number_or_literal exec token st
              end
        end
  end.

(** [PSInterpreter::execute], on the tokens of [program]. *)
Definition execute (fuel : nat) (program : string) (st : PSInterpreter)
  : outcome PSInterpreter :=
  Operators.run_tokens (executeToken fuel) (PSParser.parse program) st.

End Interpreter.

(** ** The PDF reader: xref-stream records, src/pdf_parser.cpp *)

Module PDF.

(** [static_cast<uint8_t>(c)] *)
Definition u8 (c : Byte.byte) : Z := Z.of_N (Byte.to_N c).

Definition readBigEndian32 (data : list Byte.byte) (offset : nat) : Z :=
  if decide (length data <= offset + 3)%nat then 0
  else
    match data !! offset, data !! (offset + 1)%nat,
          data !! (offset + 2)%nat, data !! (offset + 3)%nat with
    | Some b0, Some b1, Some b2, Some b3 =>
        Z.lor (Z.lor (Z.lor (Z.shiftl (u8 b0) 24) (Z.shiftl (u8 b1) 16))
                     (Z.shiftl (u8 b2) 8)) (u8 b3)
    | _, _, _, _ => 0
    end.

Definition readBigEndian16 (data : list Byte.byte) (offset : nat) : Z :=
  if decide (length data <= offset + 1)%nat then 0
  else
    match data !! offset, data !! (offset + 1)%nat with
    | Some b0, Some b1 => Z.lor (Z.shiftl (u8 b0) 8) (u8 b1)
    | _, _ => 0
    end.

Definition readBigEndian8 (data : list Byte.byte) (offset : nat) : Z :=
  if decide (length data <= offset)%nat then 0
  else match data !! offset with Some b0 => u8 b0 | None => 0 end.

(** [decompressed[i]] without a bounds check: the position one past the
    last byte reads as 0; a read beyond it is undefined, which is [None]. *)
Definition at_ (data : list Byte.byte) (i : nat) : option Z :=
  match data !! i with
  | Some c => Some (u8 c)
  | None => if decide (i = length data) then Some 0 else None
  end.

(** The inline read of a 3-byte big-endian integer. *)
Definition read3 (data : list Byte.byte) (offset : nat) : option Z :=
  b0 ← at_ data offset;
  b1 ← at_ data (offset + 1)%nat;
  b2 ← at_ data (offset + 2)%nat;
  Some (Z.lor (Z.lor (Z.shiftl b0 16) (Z.shiftl b1 8)) b2).

(** The type field: widths 1, 2 and 4 are read, any other width leaves
    [type] at 0. The 32-bit read is converted to [int]. *)
Definition read_type (typeWidth : nat) (data : list Byte.byte) (offset : nat) : Z :=
  match typeWidth with
  | 1%nat => readBigEndian8 data offset
  | 2%nat => readBigEndian16 data offset
  | 4%nat => wrap32 (readBigEndian32 data offset)
  | _ => 0
  end.

(** [field1] and [field2]: widths 1 to 4 are read, any other width leaves
    the field at 0. *)
Definition read_field (width : nat) (data : list Byte.byte) (offset : nat) : option Z :=
  match width with
  | 1%nat => Some (readBigEndian8 data offset)
  | 2%nat => Some (readBigEndian16 data offset)
  | 3%nat => read3 data offset
  | 4%nat => Some (readBigEndian32 data offset)
  | _ => Some 0
  end.

Record widths : Type := mkWidths {
  typeWidth : nat;
  field1Width : nat;
  field2Width : nat
}.

Definition entry_size (w : widths) : nat :=
  (typeWidth w + field1Width w + field2Width w)%nat.

(** The loop state of the decoder in [PDFParser::parseFile]. *)
Record decoder : Type := mkDecoder {
  objectOffsets : gmap Z Z;
  dataOffset : nat
}.

(** One entry, as the body of the inner loop of [parseFile] decodes it:
    type 0 is a free object, type 1 is in use with [field1] its offset,
    type 2 is a compressed object and is skipped, as is any other type. *)
Definition decode_entry (w : widths) (decompressed : list Byte.byte) (objNum : Z)
    (s : decoder) : option decoder :=
  let off0 := dataOffset s in
  let type := read_type (typeWidth w) decompressed off0 in
  let off1 := (off0 + typeWidth w)%nat in
  field1 ← read_field (field1Width w) decompressed off1;
  let off2 := (off1 + field1Width w)%nat in
  field2 ← read_field (field2Width w) decompressed off2;
  let off3 := (off2 + field2Width w)%nat in
  if type =? 0 then Some (mkDecoder (objectOffsets s) off3)
  else if type =? 1 then Some (mkDecoder (<[objNum := field1]> (objectOffsets s)) off3)
  else if type =? 2 then Some (mkDecoder (objectOffsets s) off3)
  else Some (mkDecoder (objectOffsets s) off3).

(** [for (int i = 0; i < count; ++i)], with [n] iterations left to run
    from [i]. [int objNum = firstObj + i] overflows when the sum is no
    [int]: that is undefined, which is [None]. *)
Fixpoint decode_range (w : widths) (decompressed : list Byte.byte)
    (firstObj : Z) (i : Z) (n : nat) (s : decoder) : option decoder :=
  match n with
  | O => Some s
  | S n' =>
      if in_int (firstObj + i) then
        s1 ← decode_entry w decompressed (firstObj + i) s;
        decode_range w decompressed firstObj (i + 1) n' s1
      else None
  end.

(** [for (const auto& [firstObj, count] : index)] *)
Fixpoint decode_index (w : widths) (decompressed : list Byte.byte)
    (index : list (Z * Z)) (s : decoder) : option decoder :=
  match index with
  | [] => Some s
  | (firstObj, count) :: rest =>
      s1 ← decode_range w decompressed firstObj 0 (Z.to_nat count) s;
      decode_index w decompressed rest s1
  end.

(** The object-offset map that [parseFile] extracts from a decompressed
    xref stream ([objectOffsets.clear()] precedes the loops). *)
Definition decode_xref_stream (w : widths) (decompressed : list Byte.byte)
    (index : list (Z * Z)) : option (gmap Z Z) :=
  objectOffsets <$> decode_index w decompressed index (mkDecoder ∅ 0).

(** The free function [parseXRefStreamData], which no caller uses, after
    it has fetched the three widths from the W array: the same reads, an
    inner loop that stops at the end of the data, and type codes of its
    own, 1 for a free object and 2 for an object in use. *)
Definition helper_entry (w : widths) (decompressedData : list Byte.byte) (objNum : Z)
    (s : decoder) : option decoder :=
  let off0 := dataOffset s in
  let type := read_type (typeWidth w) decompressedData off0 in
  let off1 := (off0 + typeWidth w)%nat in
  field1 ← read_field (field1Width w) decompressedData off1;
  let off2 := (off1 + field1Width w)%nat in
  field2 ← read_field (field2Width w) decompressedData off2;
  let off3 := (off2 + field2Width w)%nat in
  if type =? 1 then Some (mkDecoder (objectOffsets s) off3)
  else if type =? 2 then Some (mkDecoder (<[objNum := field1]> (objectOffsets s)) off3)
  else Some (mkDecoder (objectOffsets s) off3).

Fixpoint helper_range (w : widths) (decompressedData : list Byte.byte)
    (firstObj : Z) (i : Z) (n : nat) (s : decoder) : option decoder :=
  match n with
  | O => Some s
  | S n' =>
      if in_int (firstObj + i) then
        if decide (length decompressedData <= dataOffset s)%nat then Some s
        else
          s1 ← helper_entry w decompressedData (firstObj + i) s;
          helper_range w decompressedData firstObj (i + 1) n' s1
      else None
  end.

Fixpoint helper_index (w : widths) (decompressedData : list Byte.byte)
    (index : list (Z * Z)) (s : decoder) : option decoder :=
  match index with
  | [] => Some s
  | (firstObj, count) :: rest =>
      s1 ← helper_range w decompressedData firstObj 0 (Z.to_nat count) s;
      helper_index w decompressedData rest s1
  end.

Definition parseXRefStreamData (w : widths) (decompressedData : list Byte.byte)
    (index : list (Z * Z)) : option (gmap Z Z) :=
  objectOffsets <$> helper_index w decompressedData index (mkDecoder ∅ 0).

(** The input of scenario E6: W [1 2 1], Index [0 3], twelve bytes. *)
Definition E6_widths : widths := mkWidths 1 2 1.
Definition E6_index : list (Z * Z) := [(0, 3)].
Definition E6_bytes : list Byte.byte :=
  [ Byte.x00; Byte.x00; Byte.x00; Byte.x00;
    Byte.x01; Byte.x00; Byte.x0f; Byte.x00;
    Byte.x01; Byte.x00; Byte.x5c; Byte.x00 ].

End PDF.

(** ** Printing: [PSObject::toString], src/ps_types.cpp *)

(** [std::to_string(int)]: the decimal digits, after a minus sign for a
    negative value. *)
Definition to_string (v : Z) : string := NilZero.string_of_int (Z.to_int v).

(** The parts with [sep] between neighbours: [if (i > 0) oss << sep]. *)
Fixpoint join (sep : string) (parts : list string) : string :=
  match parts with
  | [] => ""
  | part :: rest =>
      match rest with
      | [] => part
      | _ => part +:+ sep +:+ join sep rest
      end
  end.

Section Printing.

(** [oss << value] for a [double]. *)
Variable print_double : float -> string.

(** [fuel] bounds the depth of the calls of [toString] on the elements of
    arrays and on the values of dictionaries; the dictionary entries come
    in the order of [map_to_list], as the keys of [dictKeys] do. *)
Fixpoint toString (fuel : nat) (h : list PSObject) (o : PSObject) : option string :=
  match fuel with
  | O => None
  | S fuel' =>
      match o with
      | PSInteger v => Some (to_string v)
      | PSReal v => Some (print_double v)
      | PSString v => Some v
      | PSBoolean v => Some (if v then "true" else "false")
      | PSArray array =>
          parts ← mapM (fun p => element ← h !! p; toString fuel' h element) array;
          Some ("[" +:+ join " " parts +:+ "]")
      | PSDictionary dict =>
          parts ← mapM (fun entry : string * PSObjectPtr =>
                          value ← h !! entry.2;
                          text ← toString fuel' h value;
                          Some ("/" +:+ entry.1 +:+ " " +:+ text))
                       (map_to_list dict);
          Some ("<<" +:+ join " " parts +:+ ">>")
      | PSProcedure proc => Some ("{" +:+ join " " proc +:+ "}")
      | PSNull => Some "null"
      end
  end.

(** [p->toString()] returns: the objects that it visits do not contain
    themselves. *)
Definition prints (h : list PSObject) (p : PSObjectPtr) : Prop :=
  exists (fuel : nat) (text : string), (h !! p ≫= toString fuel h) = Some text.

End Printing.

(** ** Content streams: [parseContentStream] (src/pdf_parser.cpp) and
    [PDFInterpreter] (unnamed/part_003) *)

Module ContentStream.

(** [while (stream >> token)], one character per step. [token] is what
    [operator>>] has extracted so far; [skipping] is set while the
    [std::getline] that follows a token starting with [%] runs. White space
    ends a token and stays in the stream, so the [getline] after a comment
    token starts at it. *)
Fixpoint read_stream (input : string) (tokens : list string) (token : string)
    (skipping : bool) : list string :=
  match input with
  | EmptyString =>
      match token with
      | EmptyString => tokens
      | String "%"%char _ => tokens
      | _ => tokens ++ [token]
      end
  | String c rest =>
      if skipping
      then read_stream rest tokens "" (negb (Ascii.eqb c PSParser.newline))
      else if isspace c
      then match token with
           | EmptyString => read_stream rest tokens "" false
           | String "%"%char _ =>
               read_stream rest tokens "" (negb (Ascii.eqb c PSParser.newline))
           | _ => read_stream rest (tokens ++ [token]) "" false
           end
      else read_stream rest tokens (token +:+ String c "") false
  end.

Definition parseContentStream (streamData : string) : list string :=
  read_stream streamData [] "" false.

(** The double quote, a key of the operator map. *)
Definition quote : string := String (ascii_of_nat 34) "".

(** The initializer list of [operatorMap], in the order of the source. *)
Definition operatorMap_entries : list (string * string) :=
  [ ("m", "moveto"); ("l", "lineto"); ("c", "curveto"); ("h", "closepath");
    ("S", "stroke"); ("f", "fill"); ("F", "fill"); ("f*", "eofill");
    ("F*", "eofill"); ("W", "clip"); ("W*", "eoclip"); ("n", "newpath");
    ("q", "gsave"); ("Q", "grestore"); ("cm", "concat"); ("w", "setlinewidth");
    ("J", "setlinecap"); ("j", "setlinejoin"); ("M", "setmiterlimit");
    ("d", "setdash"); ("ri", "setflat"); ("i", "setflat"); ("gs", "setgstate");
    ("g", "setgray"); ("G", "setgray"); ("rg", "setrgbcolor");
    ("RG", "setrgbcolor"); ("k", "setcmykcolor"); ("K", "setcmykcolor");
    ("BT", "begintemplate"); ("ET", "endtemplate"); ("Td", "translate");
    ("TD", "translate"); ("Tm", "setmatrix"); ("T*", "newline");
    ("Tc", "setcharspacing"); ("Tw", "setwordspacing"); ("Tz", "setscale");
    ("TL", "setleading"); ("Tf", "setfont"); ("Tr", "settextrendering");
    ("Ts", "settextrise"); ("Tj", "show"); ("TJ", "show"); ("'", "show");
    (quote, "show");
    ("re", "rectfill");
    ("Do", "exec"); ("MP", "markpoint"); ("DP", "definepoint");
    ("BMC", "beginmarkedcontent"); ("EMC", "endmarkedcontent");
    ("BDC", "begindefaultcontent") ].

Definition operatorMap : gmap string string := list_to_map operatorMap_entries.

(** The PostScript name of a PDF operator, or the empty string. *)
Definition mapPDFOperatorToPS (pdfOperator : string) : string :=
  match operatorMap !! pdfOperator with
  | Some psOperator => psOperator
  | None => ""
  end.

(** The loop of [executeContentStream] over the tokens; [exec] is
    [psInterpreter_.executeToken]. *)
Fixpoint execute_tokens (exec : executor) (tokens : list string) (st : PSInterpreter)
  : outcome PSInterpreter :=
  match tokens with
  | [] => Done st
  | token :: rest =>
      let psOperator := mapPDFOperatorToPS token in
      st1 ← (if negb (bool_decide (psOperator = "")) then exec psOperator st
             else (* Pass through as-is (numbers, strings, etc.) *)
               exec token st);
      execute_tokens exec rest st1
  end.

Section Execute.
Context `{LibC}.

Definition executeContentStream (fuel : nat) (streamData : string) (st : PSInterpreter)
  : outcome PSInterpreter :=
  execute_tokens (executeToken fuel) (parseContentStream streamData) st.

End Execute.

End ContentStream.

(** * Specification-side definitions

    The readings of the specification that the properties below are
    measured against, the states and inputs of the examples, and the
    notions used to state the properties. *)

(** ** Arithmetic promotion *)

(** The promotion rule in the words of the specification: the Integer
    operand of a mixed pair is coerced to Real. *)
Definition coerce_to_real (o : PSObject) : float :=
  match o with
  | PSInteger v => int_to_double v
  | PSReal v => v
  | _ => 0%float
  end.

(** Two Integers give the Integer result of [iop]; as soon as one operand is
    Real the result is the Real that [fop] gives on the coerced operands. *)
Definition promoted (iop : Z -> Z -> Z) (fop : float -> float -> float)
    (a b : PSObject) : PSObject :=
  match a, b with
  | PSInteger x, PSInteger y => PSInteger (iop x y)
  | _, _ => PSReal (fop (coerce_to_real a) (coerce_to_real b))
  end.

(** The result of [iop] on two Integer operands is an [int], so that the
    C++ expression that computes it does not overflow. A pair with a Real
    operand is not concerned. *)
Definition int_result (iop : Z -> Z -> Z) (a b : PSObject) : Prop :=
  forall x y : Z, a = PSInteger x -> b = PSInteger y -> in_int (iop x y) = true.

(** The operands of [7 0.5 add]: an Integer below a Real. *)
Definition mixed_pair : PSInterpreter :=
  mkPSInterpreter [PSInteger 7; PSReal 0.5] [1%nat; 0%nat] [] [].

(** The operands of [-7 2 div]: two Integers. *)
Definition integer_pair : PSInterpreter :=
  mkPSInterpreter [PSInteger (-7); PSInteger 2] [1%nat; 0%nat] [] [].

(** The operands of [1 1.0 eq]. *)
Definition one_and_one_point_zero : PSInterpreter :=
  mkPSInterpreter [PSInteger 1; PSReal 1] [1%nat; 0%nat] [] [].

(** ** [aload], [astore], [dup] and [put] *)

(** The claim about [astore] in the words of the specification: the array
    is popped, then the top [n] values, and the deepest of the popped values
    ends at index [n - 1]. *)
Definition astore_deepest_last : Prop :=
  forall (st st' : PSInterpreter) (arrayPtr deepest : PSObjectPtr)
         (elems vals rest : list PSObjectPtr),
    stack_ st = arrayPtr :: (vals ++ deepest :: rest)%list ->
    heap st !! arrayPtr = Some (PSArray elems) ->
    length elems = S (length vals) ->
    Operators.astore st = Done st' ->
    exists stored : list PSObjectPtr,
      heap st' !! arrayPtr = Some (PSArray stored)
      /\ stored !! length vals = Some deepest.

(** Two Integers 10 (deepest) and 20 below an array of two slots. *)
Definition two_below_array : PSInterpreter :=
  mkPSInterpreter
    [PSInteger 10; PSInteger 20; PSNull; PSNull; PSArray [2%nat; 3%nat]]
    [4%nat; 1%nat; 0%nat] [] [].

(** An array of three Integers on top of a String. *)
Definition array_on_top : PSInterpreter :=
  mkPSInterpreter
    [PSInteger 1; PSInteger 2; PSInteger 3; PSArray [0%nat; 1%nat; 2%nat]; PSString "(below)"]
    [3%nat; 4%nat] [] [].

(** The claim about [dup] in the words of the specification: after [dup]
    and [exch] the two top entries are the very handle that was on top. *)
Definition dup_shares_identity : Prop :=
  forall (st st' : PSInterpreter) (arrayPtr : PSObjectPtr)
         (elems rest : list PSObjectPtr),
    stack_ st = arrayPtr :: rest ->
    heap st !! arrayPtr = Some (PSArray elems) ->
    (PSStack.dup st ≫= PSStack.exch) = Done st' ->
    stack_ st' = arrayPtr :: arrayPtr :: rest.

(** An array of one (null) element on top; an Integer 0 and a string to
    [put] with. *)
Definition one_array : PSInterpreter :=
  mkPSInterpreter [PSNull; PSArray [0%nat]; PSInteger 0; PSString "(Hello)"]
    [1%nat] [] [].

(** [one_array] after [dup exch]: the copy sits at address 4. *)
Definition one_array_dup_exch : PSInterpreter :=
  mkPSInterpreter
    [PSNull; PSArray [0%nat]; PSInteger 0; PSString "(Hello)"; PSArray [0%nat]]
    [1%nat; 4%nat] [] [].

(** ** [if] and the dispatch of tokens *)

(** Truthiness in the words of the specification: Boolean false, Integer 0
    and Real 0.0 are false, a condition of any other type is true. *)
Definition truthiness_as_specified (conditionObj : PSObject) : bool :=
  match conditionObj with
  | PSBoolean v => v
  | PSInteger v => negb (v =? 0)
  | PSReal v => negb (PrimFloat.eqb v 0)
  | _ => true
  end.

(** A C library to run concrete programs with. The programs run below have
    no token with a decimal point and do not call [rotate], so [stod], [cos]
    and [sin] are never reached; every general statement of this file holds
    for all implementations of the three. *)
Definition unused_libc : LibC :=
  {| stod := fun _ => None; cos := fun v => v; sin := fun v => v |}.

(** The claim about [if] in the words of the specification: the procedure
    is replayed exactly when the condition is true in the sense of
    [truthiness_as_specified]. *)
Definition if_replays_as_specified : Prop :=
  forall (libc : LibC) (fuel : nat) (st : PSInterpreter)
         (procPtr conditionPtr : PSObjectPtr) (proc : list string)
         (conditionObj : PSObject) (rest : list PSObjectPtr),
    stack_ st = procPtr :: conditionPtr :: rest ->
    heap st !! procPtr = Some (PSProcedure proc) ->
    heap st !! conditionPtr = Some conditionObj ->
    Operators.if_ (@executeToken libc fuel) st
    = if truthiness_as_specified conditionObj
      then Operators.run_tokens (@executeToken libc fuel) proc (with_stack rest st)
      else Done (with_stack rest st).

(** The operands of [(x) { 1 } if]. *)
Definition string_condition : PSInterpreter :=
  mkPSInterpreter [PSString "(x)"; PSProcedure ["1"]] [1%nat; 0%nat] [] [].

(** [/add { sub } def] has been executed; 5 and 3 are on the stack. *)
Definition add_redefined : PSInterpreter :=
  mkPSInterpreter
    [PSDictionary {["add" := 1%nat]}; PSProcedure ["sub"]; PSInteger 5; PSInteger 3]
    [3%nat; 2%nat] [0%nat] [Graphics.GraphicsState0].

(** ** Xref-stream records *)

(** The object numbers that the Index ranges declare, in stream order. *)
Definition xref_objects (index : list (Z * Z)) : list Z :=
  flat_map (fun range => map (fun i => range.1 + Z.of_nat i) (seq 0 (Z.to_nat range.2)))
    index.

(** The number that the bytes spell, the first byte the most significant. *)
Definition big_endian (bytes : list Byte.byte) : Z :=
  fold_left (fun acc b => acc * 256 + PDF.u8 b) bytes 0.

(** The [k]-th record of the decompressed block, in the words of the
    specification: the block is a concatenation of records of
    [w0 + w1 + w2] bytes each. *)
Definition xref_record (w : PDF.widths) (data : list Byte.byte) (k : nat)
  : list Byte.byte :=
  take (PDF.entry_size w) (drop (k * PDF.entry_size w) data).

(** The type of the [k]-th record: its first [w0] bytes as a big-endian
    unsigned integer. *)
Definition xref_record_type (w : PDF.widths) (data : list Byte.byte) (k : nat) : Z :=
  big_endian (take (PDF.typeWidth w) (xref_record w data k)).

(** The first field of the [k]-th record: the [w1] bytes after the type as
    a big-endian unsigned integer. *)
Definition xref_record_field1 (w : PDF.widths) (data : list Byte.byte) (k : nat) : Z :=
  big_endian (take (PDF.field1Width w) (drop (PDF.typeWidth w) (xref_record w data k))).

(** The last record of object [obj] that has type 1 is record [k], and its
    first field is [off]. *)
Definition last_in_use (w : PDF.widths) (data : list Byte.byte) (objs : list Z)
    (obj off : Z) : Prop :=
  exists k : nat,
    objs !! k = Some obj
    /\ xref_record_type w data k = 1
    /\ xref_record_field1 w data k = off
    /\ forall k' : nat, (k < k')%nat -> objs !! k' = Some obj ->
                        xref_record_type w data k' <> 1.

(** The claim about xref streams in the words of the specification, for all
    widths of the three fields: on a block that holds exactly the declared
    records, the map has [(obj_num, field1)] for the records of type 1 and
    nothing else. *)
Definition type_1_records_of_any_width : Prop :=
  forall (w : PDF.widths) (data : list Byte.byte) (index : list (Z * Z)) (m : gmap Z Z),
    length data = (length (xref_objects index) * PDF.entry_size w)%nat ->
    Forall (fun obj => in_int obj = true) (xref_objects index) ->
    PDF.decode_xref_stream w data index = Some m ->
    forall obj off : Z,
      m !! obj = Some off <-> last_in_use w data (xref_objects index) obj off.

(** W [1 5 1] and one record of type 1 whose first field, five bytes wide,
    spells 15. *)
Definition wide_field_widths : PDF.widths := PDF.mkWidths 1 5 1.
Definition wide_field_bytes : list Byte.byte :=
  [ Byte.x01; Byte.x00; Byte.x00; Byte.x00; Byte.x00; Byte.x0f; Byte.x00 ].

(** W [5 2 1] and one record whose type field, five bytes wide, spells 1. *)
Definition wide_type_widths : PDF.widths := PDF.mkWidths 5 2 1.
Definition wide_type_bytes : list Byte.byte :=
  [ Byte.x00; Byte.x00; Byte.x00; Byte.x00; Byte.x01; Byte.x00; Byte.x0f; Byte.x00 ].

(** The records as the decoder reads them: the type and the first field of
    the [k]-th record, read at the place that the widths assign to it. *)
Definition decoder_record_type (w : PDF.widths) (data : list Byte.byte) (k : nat) : Z :=
  PDF.read_type (PDF.typeWidth w) data (k * PDF.entry_size w).

Definition decoder_record_field1 (w : PDF.widths) (data : list Byte.byte) (k : nat)
  : option Z :=
  PDF.read_field (PDF.field1Width w) data (k * PDF.entry_size w + PDF.typeWidth w).

(** The two loops of the decoder as one pass over the object numbers. *)
Fixpoint decode_objects (w : PDF.widths) (data : list Byte.byte) (objs : list Z)
    (s : PDF.decoder) : option PDF.decoder :=
  match objs with
  | [] => Some s
  | obj :: rest => s1 ← PDF.decode_entry w data obj s; decode_objects w data rest s1
  end.

(** The last record of object [obj] that the decoder reads with type 1 is
    record [k], and the decoder reads [off] as its first field. *)
Definition last_read_in_use (w : PDF.widths) (data : list Byte.byte) (objs : list Z)
    (obj off : Z) : Prop :=
  exists k : nat,
    objs !! k = Some obj
    /\ decoder_record_type w data k = 1
    /\ decoder_record_field1 w data k = Some off
    /\ forall k' : nat, (k < k')%nat -> objs !! k' = Some obj ->
                        decoder_record_type w data k' <> 1.

(** ** The graphics stack *)

(** A step that, when it succeeds, does not empty the graphics stack. *)
Definition keeps_graphics (f : PSInterpreter -> outcome PSInterpreter) : Prop :=
  forall st st' : PSInterpreter,
    f st = Done st' -> graphicsStack_ st <> [] -> graphicsStack_ st' <> [].

(** The same for the execution of any token. *)
Definition executor_keeps_graphics (exec : executor) : Prop :=
  forall token : string, keeps_graphics (exec token).

(** The same for an operator, whatever well-behaved executor it calls. *)
Definition operator_keeps_graphics (op : OperatorFunction) : Prop :=
  forall exec : executor, executor_keeps_graphics exec -> keeps_graphics (op exec).

Section Reachable.
Context `{LibC}.

(** The states of a running interpreter: a freshly constructed one, and
    every state in which the execution of a token ends. *)
Inductive reachable : PSInterpreter -> Prop :=
| reachable_new (h : list PSObject) : reachable (new_interpreter h)
| reachable_token (st st' : PSInterpreter) (fuel : nat) (token : string) :
    reachable st -> executeToken fuel token st = Done st' -> reachable st'.

End Reachable.

(** The state after [10 20 moveto]: one segment on the current path. *)
Definition after_moveto : PSInterpreter :=
  mkPSInterpreter [PSDictionary ∅; PSInteger 10; PSInteger 20] [] [0%nat]
    [Graphics.mkGraphicsState (Graphics.mkPoint 10 20)
       [Graphics.mkPathSegment Graphics.MoveTo [Graphics.mkPoint 10 20]]
       (Graphics.mkMatrix 1 0 0 1 0 0) 1 0 0 0].

(** ** Notions of the further properties *)

(** ** Stack effects *)

(** A successful run of [f] consumes the top [pops] entries of the operand
    stack, leaves [pushes] entries in their place, and does not touch what
    is below. *)
Definition stack_effect (pops pushes : nat)
    (f : PSInterpreter -> outcome PSInterpreter) : Prop :=
  forall st st' : PSInterpreter,
    f st = Done st' ->
    (pops <= length (stack_ st))%nat
    /\ (pushes <= length (stack_ st'))%nat
    /\ drop pops (stack_ st) = drop pushes (stack_ st').

(** With fewer than [pops] operands [f] throws. *)
Definition underflows (pops : nat) (f : PSInterpreter -> outcome PSInterpreter) : Prop :=
  forall st : PSInterpreter,
    (length (stack_ st) < pops)%nat -> exists what : string, f st = Throw what.

Section Arity.
Context `{LibC}.

(** The operators whose operand count is fixed, each with the number of
    operands it pops and the number of results it pushes. *)
Definition fixed_arity : list (nat * nat * (PSInterpreter -> outcome PSInterpreter)) :=
  [ (2, 1, Operators.add); (2, 1, Operators.sub); (2, 1, Operators.mul);
    (2, 1, Operators.div);
    (1, 2, Operators.dup); (1, 0, Operators.pop); (2, 2, Operators.exch);
    (0, 0, Operators.stack); (1, 0, Operators.show);
    (2, 1, Operators.eq); (2, 1, Operators.ne); (2, 1, Operators.lt);
    (2, 1, Operators.le); (2, 1, Operators.gt); (2, 1, Operators.ge);
    (1, 1, Operators.array); (2, 1, Operators.get); (3, 1, Operators.put);
    (1, 1, Operators.length);
    (1, 1, Operators.dict); (2, 0, Operators.def); (1, 1, Operators.load);
    (3, 0, Operators.store); (2, 1, Operators.known); (1, 1, Operators.keys);
    (2, 0, Operators.moveto); (2, 0, Operators.lineto);
    (0, 0, Operators.closepath); (0, 0, Operators.stroke); (0, 0, Operators.fill);
    (0, 0, Operators.newpath); (0, 0, Operators.gsave); (0, 0, Operators.grestore);
    (2, 0, Operators.translate); (2, 0, Operators.scale); (1, 0, Operators.rotate);
    (3, 0, Operators.setrgbcolor); (1, 0, Operators.setlinewidth);
    (0, 0, Operators.showpage) ]%nat.

End Arity.

(** ** Control flow *)

(** The values that the control variable of [for] takes: [n] values from
    [start] in steps of [increment]. *)
Definition progression (start increment : Z) (n : nat) : list Z :=
  map (fun k => start + Z.of_nat k * increment) (seq 0 n).

(** The loop test of [for_] for the control value [i]. *)
Definition for_test (end_ increment i : Z) : Prop :=
  if 0 <? increment then i <= end_ else i >= end_.

(** ** The lexer *)

(** A character that the lexer appends to the current token when it is
    neither in a string, a comment nor a group: no white space, no
    delimiter, no [%] and no [<]. *)
Definition plain_char (c : ascii) : bool :=
  (negb (PSParser.isDelimiter c) && negb (Ascii.eqb c "%"%char)
   && negb (Ascii.eqb c "<"%char))%bool.

Fixpoint all_chars (p : ascii -> bool) (s : string) : bool :=
  match s with
  | EmptyString => true
  | String c rest => (p c && all_chars p rest)%bool
  end.

(** A non-empty word of plain characters. *)
Definition plain_word (w : string) : bool :=
  match w with
  | EmptyString => false
  | _ => all_chars plain_char w
  end.

(** [body] closes every brace it opens, and closes none of the [depth]
    braces that are open where it starts. *)
Fixpoint balanced (depth : nat) (body : string) : bool :=
  match body with
  | EmptyString => Nat.eqb depth 0
  | String c rest =>
      if Ascii.eqb c "{"%char then balanced (S depth) rest
      else if Ascii.eqb c "}"%char
      then match depth with
           | O => false
           | S depth' => balanced depth' rest
           end
      else balanced depth rest
  end.

(** The tokens that the lexer has produced so far are not empty. *)
Definition tokens_not_empty (lx : PSParser.lexer) : Prop :=
  Forall (fun tok => tok <> "") (PSParser.tokens lx).

(** ** The store over time *)

(** What an object of the store can turn into: an array keeps its length, a
    dictionary keeps its keys, and every other object stays as it is. *)
Definition stable (o o' : PSObject) : Prop :=
  match o with
  | PSArray v => exists v' : list PSObjectPtr, o' = PSArray v' /\ length v' = length v
  | PSDictionary d =>
      exists d' : gmap string PSObjectPtr,
        o' = PSDictionary d' /\ forall key : string, is_Some (d !! key) -> is_Some (d' !! key)
  | _ => o' = o
  end.

(** Every handle of [h] is a handle of [h'], for an object that the one
    in [h] can turn into. *)
Definition store_extends (h h' : list PSObject) : Prop :=
  forall (p : PSObjectPtr) (o : PSObject),
    h !! p = Some o -> exists o' : PSObject, h' !! p = Some o' /\ stable o o'.

(** The dictionary stack is the same, and the store extends. *)
Definition evolves (st st' : PSInterpreter) : Prop :=
  dictionaryStack_ st' = dictionaryStack_ st /\ store_extends (heap st) (heap st').

Definition executor_evolves (exec : executor) : Prop :=
  forall (token : string) (st st' : PSInterpreter),
    exec token st = Done st' -> evolves st st'.

Definition operator_evolves (op : OperatorFunction) : Prop :=
  forall exec : executor,
    executor_evolves exec ->
    forall st st' : PSInterpreter, op exec st = Done st' -> evolves st st'.

(** ** Printing and reading back *)

(** The value of the digits [d] read after the digits that gave [acc]. *)
Fixpoint digits_value (d : Decimal.uint) (acc : Z) : Z :=
  match d with
  | Decimal.Nil => acc
  | Decimal.D0 d => digits_value d (10 * acc)
  | Decimal.D1 d => digits_value d (10 * acc + 1)
  | Decimal.D2 d => digits_value d (10 * acc + 2)
  | Decimal.D3 d => digits_value d (10 * acc + 3)
  | Decimal.D4 d => digits_value d (10 * acc + 4)
  | Decimal.D5 d => digits_value d (10 * acc + 5)
  | Decimal.D6 d => digits_value d (10 * acc + 6)
  | Decimal.D7 d => digits_value d (10 * acc + 7)
  | Decimal.D8 d => digits_value d (10 * acc + 8)
  | Decimal.D9 d => digits_value d (10 * acc + 9)
  end.

(** ** Content streams *)

(** What [executeContentStream] hands to the PostScript interpreter for a
    token of the content stream. *)
Definition renamed (token : string) : string :=
  match ContentStream.operatorMap !! token with
  | Some psOperator => if bool_decide (psOperator = "") then token else psOperator
  | None => token
  end.

(** A token without white space that is no comment. *)
Definition stream_word (w : string) : bool :=
  match w with
  | EmptyString => false
  | String c _ => (negb (Ascii.eqb c "%"%char) && all_chars (fun d => negb (isspace d)) w)%bool
  end.

(** A lower-case word. *)
Definition lower_case (c : ascii) : bool :=
  ((97 <=? nat_of_ascii c)%nat && (nat_of_ascii c <=? 122)%nat)%bool.

(** ** Saved graphics states *)

(** [n] times [f], one run after the other. *)
Fixpoint times (n : nat) (f : PSInterpreter -> outcome PSInterpreter)
    (st : PSInterpreter) : outcome PSInterpreter :=
  match n with
  | O => Done st
  | S n' => st1 ← f st; times n' f st1
  end.

(** The operators of [ops], one after the other. *)
Fixpoint run_operators (ops : list (PSInterpreter -> outcome PSInterpreter))
    (st : PSInterpreter) : outcome PSInterpreter :=
  match ops with
  | [] => Done st
  | f :: rest => st1 ← f st; run_operators rest st1
  end.

(** The graphics stack is as deep as before, and the states below the
    current one are the same. *)
Definition same_saved (st st' : PSInterpreter) : Prop :=
  length (graphicsStack_ st') = length (graphicsStack_ st)
  /\ tail (graphicsStack_ st') = tail (graphicsStack_ st).

Section Saved.
Context `{LibC}.

(** The operators other than [gsave], [grestore] and the control operators. *)
Definition without_save_restore : list (PSInterpreter -> outcome PSInterpreter) :=
  [ Operators.add; Operators.sub; Operators.mul; Operators.div;
    Operators.dup; Operators.pop; Operators.exch; Operators.clear;
    Operators.stack; Operators.show;
    Operators.eq; Operators.ne; Operators.lt; Operators.le; Operators.gt; Operators.ge;
    Operators.array; Operators.get; Operators.put; Operators.length;
    Operators.aload; Operators.astore;
    Operators.dict; Operators.def; Operators.load; Operators.store;
    Operators.known; Operators.keys;
    Operators.moveto; Operators.lineto; Operators.closepath; Operators.stroke;
    Operators.fill; Operators.newpath;
    Operators.translate; Operators.scale; Operators.rotate;
    Operators.setrgbcolor; Operators.setlinewidth; Operators.showpage ].

End Saved.

(** ** Array literals of integers *)

(** What the execution of the array literal of the integers [vs] adds to
    the store: for each element the default dictionary of the temporary
    interpreter that reads it, and the Integer itself. *)
Definition literal_store (vs : list Z) : list PSObject :=
  flat_map (fun v => [PSDictionary ∅; PSInteger v]) vs.

(** The handles of the [n] Integers, when the first temporary interpreter
    starts on a store of [base] objects. *)
Definition literal_handles (base n : nat) : list PSObjectPtr :=
  map (fun k => (base + 2 * k + 1)%nat) (seq 0 n).

(** ** Handles *)

(** The handles that [o] holds are below [n]. *)
Definition object_closed (n : nat) (o : PSObject) : Prop :=
  match o with
  | PSArray v => Forall (fun p => (p < n)%nat) v
  | PSDictionary d => map_Forall (fun (_ : string) p => (p < n)%nat) d
  | _ => True
  end.

(** Every handle of the state, on the operand stack, on the dictionary
    stack, inside an array or inside a dictionary, denotes an object of the
    store. *)
Definition closed (st : PSInterpreter) : Prop :=
  Forall (fun p => (p < length (heap st))%nat) (stack_ st)
  /\ Forall (fun p => (p < length (heap st))%nat) (dictionaryStack_ st)
  /\ Forall (object_closed (length (heap st))) (heap st).

Definition executor_closed (exec : executor) : Prop :=
  forall (token : string) (st st' : PSInterpreter),
    exec token st = Done st' -> closed st -> closed st'.

(** * Properties *)

(** ** Running operators on a stack of known shape *)

Lemma wrap32_id (z : Z) : in_int z = true -> wrap32 z = z.
Proof.
  unfold in_int, wrap32, INT_MIN, INT_MAX. intros Hz.
  apply andb_true_iff in Hz as [Hlo Hhi].
  apply Z.leb_le in Hlo, Hhi.
  rewrite Z.mod_small; lia.
Qed.

Lemma need_enough (n : nat) (what : string) (st : PSInterpreter) :
  (n <= length (stack_ st))%nat -> Operators.need n what st = Done tt.
Proof.
  intros Hn. unfold Operators.need, PSStack.size.
  destruct (decide _); [lia | reflexivity].
Qed.

Lemma need_short (n : nat) (what : string) (st : PSInterpreter) :
  (length (stack_ st) < n)%nat -> Operators.need n what st = Throw what.
Proof.
  intros Hn. unfold Operators.need, PSStack.size.
  destruct (decide _); [reflexivity | lia].
Qed.

Lemma pop_cons (st : PSInterpreter) (p : PSObjectPtr) (rest : list PSObjectPtr) :
  stack_ st = p :: rest -> PSStack.pop st = Done (p, with_stack rest st).
Proof. intros Hs. unfold PSStack.pop. rewrite Hs. reflexivity. Qed.

Lemma pop_obj_cons (st : PSInterpreter) (p : PSObjectPtr) (o : PSObject)
    (rest : list PSObjectPtr) :
  stack_ st = p :: rest -> heap st !! p = Some o ->
  Operators.pop_obj st = Done (p, o, with_stack rest st).
Proof.
  intros Hs Hp. unfold Operators.pop_obj. rewrite (pop_cons _ _ _ Hs). simpl.
  unfold deref. simpl. rewrite Hp. reflexivity.
Qed.

(** The first steps of every binary operator: the size check and two pops. *)
Lemma pop_two (st : PSInterpreter) (pa pb : PSObjectPtr) (a b : PSObject)
    (rest : list PSObjectPtr) (what : string)
    (k : PSObject -> PSObject -> PSInterpreter -> outcome PSInterpreter) :
  stack_ st = pb :: pa :: rest ->
  heap st !! pa = Some a -> heap st !! pb = Some b ->
  (_ ← Operators.need 2 what st;
   '(_, b', st1) ← Operators.pop_obj st;
   '(_, a', st2) ← Operators.pop_obj st1;
   k a' b' st2) = k a b (with_stack rest st).
Proof.
  intros Hs Ha Hb.
  rewrite need_enough by (rewrite Hs; simpl; lia). simpl.
  rewrite (pop_obj_cons st pb b (pa :: rest) Hs Hb). simpl.
  rewrite (pop_obj_cons (with_stack (pa :: rest) st) pa a rest eq_refl Ha).
  reflexivity.
Qed.

(** ** Arithmetic promotion *)

Lemma arith_promoted (name : string) (iop : Z -> Z -> Z)
    (fop : float -> float -> float) (a b : PSObject) :
  Operators.is_number a = true -> Operators.is_number b = true ->
  int_result iop a b ->
  Operators.arith name iop fop a b = Done (promoted iop fop a b).
Proof.
  intros Ha Hb Hfit.
  destruct a; try discriminate Ha; destruct b; try discriminate Hb; try reflexivity.
  match goal with
  | |- Operators.arith _ _ _ (PSInteger ?x) (PSInteger ?y) = _ =>
      change (Done (PSInteger (wrap32 (iop x y))) = Done (PSInteger (iop x y)));
      rewrite wrap32_id by (apply Hfit; reflexivity); reflexivity
  end.
Qed.

Lemma div_values_promoted (a b : PSObject) :
  Operators.is_number a = true -> Operators.is_number b = true ->
  Operators.is_zero b = false ->
  int_result Z.quot a b ->
  Operators.div_values a b = Done (promoted Z.quot PrimFloat.div a b).
Proof.
  intros Ha Hb Hz Hfit. unfold Operators.div_values. rewrite Hz.
  destruct a; try discriminate Ha; destruct b; try discriminate Hb; try reflexivity.
  match goal with
  | Hq : int_result _ (PSInteger ?x) (PSInteger ?y) |- _ =>
      change (Done (PSInteger (wrap32 (Z.quot x y))) = Done (PSInteger (Z.quot x y)));
      rewrite wrap32_id by (apply Hq; reflexivity); reflexivity
  end.
Qed.

(** C6. With two numeric operands [a] (below) and [b] (on top), [add], [sub],
    [mul] and [div] pop both and push a fresh object: an Integer when both are
    Integers, and otherwise a Real computed on the operands with the Integer
    one coerced to Real. Two Integers give the exact sum, difference or
    product, and for [div] the quotient that truncates toward zero
    ([Z.quot]); in every other numeric case [div] is the division of
    doubles. A divisor that is zero makes [div] throw. For two Integers each
    operator is taken where its exact result is an [int]: beyond that the
    C++ expression overflows ([INT_MIN / -1] included). *)
Theorem arithmetic_promotion (st : PSInterpreter) (pa pb : PSObjectPtr)
    (a b : PSObject) (rest : list PSObjectPtr) :
  stack_ st = pb :: pa :: rest ->
  heap st !! pa = Some a -> heap st !! pb = Some b ->
  Operators.is_number a = true -> Operators.is_number b = true ->
  let st' := with_stack rest st in
  (int_result Z.add a b ->
   Operators.add st = Done (Operators.push_new (promoted Z.add PrimFloat.add a b) st'))
  /\ (int_result Z.sub a b ->
      Operators.sub st = Done (Operators.push_new (promoted Z.sub PrimFloat.sub a b) st'))
  /\ (int_result Z.mul a b ->
      Operators.mul st = Done (Operators.push_new (promoted Z.mul PrimFloat.mul a b) st'))
  /\ (Operators.is_zero b = false -> int_result Z.quot a b ->
      Operators.div st = Done (Operators.push_new (promoted Z.quot PrimFloat.div a b) st'))
  /\ (Operators.is_zero b = true -> Operators.div st = Throw "Division by zero")
  /\ (forall x y, a = PSInteger x -> b = PSInteger y ->
      forall iop fop, promoted iop fop a b = PSInteger (iop x y))
  /\ (getType a = REAL \/ getType b = REAL ->
      forall iop fop,
        promoted iop fop a b = PSReal (fop (coerce_to_real a) (coerce_to_real b))).
Proof.
  intros Hs Ha Hb Hna Hnb st'.
  repeat split.
  - intros Hfit. unfold Operators.add, Operators.binary_arith.
    rewrite (pop_two st pa pb a b rest _ _ Hs Ha Hb).
    rewrite arith_promoted by assumption. reflexivity.
  - intros Hfit. unfold Operators.sub, Operators.binary_arith.
    rewrite (pop_two st pa pb a b rest _ _ Hs Ha Hb).
    rewrite arith_promoted by assumption. reflexivity.
  - intros Hfit. unfold Operators.mul, Operators.binary_arith.
    rewrite (pop_two st pa pb a b rest _ _ Hs Ha Hb).
    rewrite arith_promoted by assumption. reflexivity.
  - intros Hz Hfit. unfold Operators.div.
    rewrite (pop_two st pa pb a b rest _ _ Hs Ha Hb).
    rewrite div_values_promoted by assumption. reflexivity.
  - intros Hz. unfold Operators.div.
    rewrite (pop_two st pa pb a b rest _ _ Hs Ha Hb).
    unfold Operators.div_values. rewrite Hz. reflexivity.
  - intros x y -> -> iop fop. reflexivity.
  - intros [Hr | Hr] iop fop.
    + destruct a; try discriminate Hr. reflexivity.
    + destruct b; try discriminate Hr. destruct a; reflexivity.
Qed.

Lemma arithmetic_promotion_mixed_pair :
  (Operators.add mixed_pair
   = Done (mkPSInterpreter [PSInteger 7; PSReal 0.5; PSReal 7.5] [2%nat] [] [])
   /\ Operators.div mixed_pair
      = Done (mkPSInterpreter [PSInteger 7; PSReal 0.5; PSReal 14] [2%nat] [] []))
  /\ (Operators.mul integer_pair
      = Done (mkPSInterpreter [PSInteger (-7); PSInteger 2; PSInteger (-14)] [2%nat] [] [])
      /\ Operators.div integer_pair
         = Done (mkPSInterpreter [PSInteger (-7); PSInteger 2; PSInteger (-3)]
                   [2%nat] [] [])).
Proof.
  split.
  - pose proof (arithmetic_promotion mixed_pair 0%nat 1%nat (PSInteger 7) (PSReal 0.5) []
                  eq_refl eq_refl eq_refl eq_refl eq_refl) as (Hadd & _ & _ & Hdiv & _).
    split; [apply Hadd | apply Hdiv; [reflexivity |]]; intros x y _ Hb; discriminate Hb.
  - pose proof (arithmetic_promotion integer_pair 0%nat 1%nat (PSInteger (-7)) (PSInteger 2)
                  [] eq_refl eq_refl eq_refl eq_refl eq_refl) as (_ & _ & Hmul & Hdiv & _).
    split; [apply Hmul | apply Hdiv; [reflexivity |]];
      intros x y Hx Hy; injection Hx as <-; injection Hy as <-; reflexivity.
Defined.

(** ** Equality of operands *)

Lemma eq_values_mismatch (a b : PSObject) :
  getType a <> getType b -> Operators.eq_values a b = false.
Proof.
  intros Hne. unfold Operators.eq_values.
  rewrite bool_decide_eq_false_2 by assumption. reflexivity.
Qed.

Lemma eq_pushes (st : PSInterpreter) (pa pb : PSObjectPtr) (a b : PSObject)
    (rest : list PSObjectPtr) :
  stack_ st = pb :: pa :: rest ->
  heap st !! pa = Some a -> heap st !! pb = Some b ->
  Operators.eq st
  = Done (Operators.push_new (PSBoolean (Operators.eq_values a b)) (with_stack rest st)).
Proof.
  intros Hs Ha Hb. unfold Operators.eq.
  apply (pop_two st pa pb a b rest _
           (fun a' b' st2 => Done (Operators.push_new (PSBoolean (Operators.eq_values a' b')) st2))
           Hs Ha Hb).
Qed.

Lemma lookup_fresh (h : list PSObject) (o : PSObject) :
  (h ++ [o])%list !! length h = Some o.
Proof. rewrite lookup_app_r by lia. rewrite Nat.sub_diag. reflexivity. Qed.

(** C7. With operands [a] and [b] on the stack, [eq] pushes Boolean false
    whenever their type tags differ (an Integer against a Real included), and
    [ne] pushes the negation of the Boolean that [eq] pushes for the same two
    operands, above the same remaining stack. *)
Theorem eq_mismatch_false_ne_negates (st : PSInterpreter) (pa pb : PSObjectPtr)
    (a b : PSObject) (rest : list PSObjectPtr) :
  stack_ st = pb :: pa :: rest ->
  heap st !! pa = Some a -> heap st !! pb = Some b ->
  (getType a <> getType b ->
   Operators.eq st = Done (Operators.push_new (PSBoolean false) (with_stack rest st)))
  /\ exists (result : bool) (st_eq st_ne : PSInterpreter) (top_eq top_ne : PSObjectPtr),
       Operators.eq st = Done st_eq
       /\ stack_ st_eq = top_eq :: rest
       /\ heap st_eq !! top_eq = Some (PSBoolean result)
       /\ Operators.ne st = Done st_ne
       /\ stack_ st_ne = top_ne :: rest
       /\ heap st_ne !! top_ne = Some (PSBoolean (negb result)).
Proof.
  intros Hs Ha Hb. split.
  - intros Hne. rewrite (eq_pushes st pa pb a b rest Hs Ha Hb).
    rewrite eq_values_mismatch by assumption. reflexivity.
  - set (res := Operators.eq_values a b).
    set (st_eq := Operators.push_new (PSBoolean res) (with_stack rest st)).
    exists res, st_eq,
      (Operators.push_new (PSBoolean (negb res)) (with_stack rest st_eq)),
      (length (heap st)), (S (length (heap st))).
    assert (Heq : Operators.eq st = Done st_eq)
      by apply (eq_pushes st pa pb a b rest Hs Ha Hb).
    repeat split.
    + exact Heq.
    + simpl. apply lookup_fresh.
    + unfold Operators.ne. rewrite Heq. simpl.
      rewrite (pop_obj_cons st_eq (length (heap st)) (PSBoolean res) rest eq_refl
                 (lookup_fresh _ _)).
      reflexivity.
    + simpl. rewrite length_app. simpl. f_equal. lia.
    + simpl. rewrite <- (lookup_fresh (heap st ++ [PSBoolean res]) (PSBoolean (negb res))).
      f_equal. rewrite length_app. simpl. lia.
Qed.

Lemma eq_integer_real_false :
  Operators.eq one_and_one_point_zero
  = Done (mkPSInterpreter [PSInteger 1; PSReal 1; PSBoolean false] [2%nat] [] []).
Proof.
  refine (proj1 (eq_mismatch_false_ne_negates one_and_one_point_zero 0%nat 1%nat
                   (PSInteger 1) (PSReal 1) [] eq_refl eq_refl eq_refl) _).
  discriminate.
Defined.

(** ** [aload] and [astore] *)

Lemma assign_same (st : PSInterpreter) (p : PSObjectPtr) (o : PSObject) :
  heap st !! p = Some o -> assign p o st = st.
Proof.
  intros Hp. destruct st as [h s d gs]. unfold assign, with_heap. simpl in *.
  rewrite list_insert_id by assumption. reflexivity.
Qed.

Lemma drop_insert_here {A : Type} (l : list A) (i : nat) (v : A) :
  (i < length l)%nat -> drop i (<[i := v]> l) = v :: drop (S i) l.
Proof.
  revert i. induction l as [| a l IH]; intros i Hi; simpl in Hi; [lia |].
  destruct i as [| i]; simpl.
  - rewrite drop_0. reflexivity.
  - apply IH. lia.
Qed.

Lemma take_insert_here {A : Type} (l : list A) (i : nat) (v : A) :
  take i (<[i := v]> l) = take i l.
Proof.
  revert i. induction l as [| a l IH]; intros i; destruct i; simpl; try reflexivity.
  rewrite IH. reflexivity.
Qed.

(** The loop of [astore] run [k] times on a stack that holds [vals] (top
    first) above [rest]: the first [k] slots of the array receive [vals] from
    the back, so that they end up holding [rev vals]. *)
Lemma astore_loop_spec (k : nat) :
  forall (vals : list PSObjectPtr) (st : PSInterpreter) (arrayPtr : PSObjectPtr)
         (elems rest : list PSObjectPtr),
    length vals = k ->
    stack_ st = (vals ++ rest)%list ->
    heap st !! arrayPtr = Some (PSArray elems) ->
    (k <= length elems)%nat ->
    Operators.astore_loop k arrayPtr st
    = Done (mkPSInterpreter
              (<[arrayPtr := PSArray (reverse vals ++ drop k elems)]> (heap st))
              rest (dictionaryStack_ st) (graphicsStack_ st)).
Proof.
  induction k as [| k IH]; intros vals st arrayPtr elems rest Hlen Hs Hp Hk.
  - destruct vals; [| discriminate Hlen]. simpl in *.
    rewrite drop_0. rewrite list_insert_id by assumption.
    destruct st; simpl in *; subst; reflexivity.
  - destruct vals as [| v vals]; [discriminate Hlen |].
    simpl in Hlen, Hs. injection Hlen as Hlen.
    simpl. rewrite (pop_cons st v (vals ++ rest) Hs). simpl.
    unfold deref. simpl. rewrite Hp. simpl.
    destruct (decide (k < length elems)%nat) as [_ | Hbad]; [| lia]. simpl.
    assert (Hlt : (arrayPtr < length (heap st))%nat)
      by (eapply lookup_lt_Some; eassumption).
    rewrite (IH vals _ arrayPtr (<[k := v]> elems) rest Hlen).
    + simpl. rewrite list_insert_insert_eq.
      rewrite drop_insert_here by lia.
      rewrite reverse_cons, <- app_assoc. reflexivity.
    + reflexivity.
    + simpl. apply list_lookup_insert_eq. exact Hlt.
    + rewrite length_insert. lia.
Qed.

Lemma push_all_stack (elements : list PSObjectPtr) (st : PSInterpreter) :
  Operators.push_all elements st = with_stack (reverse elements ++ stack_ st) st.
Proof.
  revert st. induction elements as [| e elements IH]; intros st.
  - destruct st; reflexivity.
  - unfold Operators.push_all in *. simpl. rewrite IH.
    destruct st; unfold with_stack, PSStack.push; simpl.
    rewrite reverse_cons, <- app_assoc. reflexivity.
Qed.

(** What [astore] does to an array that sits on top of exactly as many
    values as it has slots. *)
Lemma astore_full (st : PSInterpreter) (arrayPtr : PSObjectPtr)
    (elems vals rest : list PSObjectPtr) :
  stack_ st = arrayPtr :: (vals ++ rest)%list ->
  heap st !! arrayPtr = Some (PSArray elems) ->
  length vals = length elems ->
  Operators.astore st
  = Done (mkPSInterpreter (<[arrayPtr := PSArray (reverse vals)]> (heap st))
            (arrayPtr :: rest) (dictionaryStack_ st) (graphicsStack_ st)).
Proof.
  intros Hs Hp Hlen. unfold Operators.astore.
  rewrite need_enough by (rewrite Hs; simpl; lia). simpl.
  rewrite (pop_obj_cons st arrayPtr (PSArray elems) (vals ++ rest) Hs Hp). simpl.
  destruct (decide _) as [Hshort | _].
  - unfold PSStack.size in Hshort. simpl in Hshort.
    rewrite length_app in Hshort. lia.
  - rewrite (astore_loop_spec (length elems) vals (with_stack (vals ++ rest) st)
               arrayPtr elems rest Hlen eq_refl Hp)
      by lia.
    simpl. rewrite drop_all, app_nil_r. reflexivity.
Qed.

(** C4, as stated, fails: on [10 20 A] with [A] of length 2, [astore] leaves
    [A = [10 20]]; the deepest popped value, 10, is at index 0 and index
    [n - 1 = 1] holds the value popped first, 20. *)
Lemma astore_deepest_is_first :
  Operators.astore two_below_array
  = Done (mkPSInterpreter
            [PSInteger 10; PSInteger 20; PSNull; PSNull; PSArray [0%nat; 1%nat]]
            [4%nat] [] [])
  /\ ~ astore_deepest_last.
Proof.
  assert (Hrun : Operators.astore two_below_array
                 = Done (mkPSInterpreter
                           [PSInteger 10; PSInteger 20; PSNull; PSNull;
                            PSArray [0%nat; 1%nat]] [4%nat] [] []))
    by reflexivity.
  split; [exact Hrun |].
  intros Hclaim.
  destruct (Hclaim two_below_array _ 4%nat 0%nat [2%nat; 3%nat] [1%nat] []
              eq_refl eq_refl eq_refl Hrun) as (stored & Hstored & Hlast).
  simpl in Hstored. injection Hstored as <-. discriminate Hlast.
Qed.

(** C4, amended. [astore] pops the array of length [n], then the top [n]
    values, and stores them so that the value popped first (the top) ends at
    index [n - 1] and the deepest popped value ends at index 0: the array
    holds the values in the order the stack held them, bottom first. The array
    object itself is updated and its handle is pushed back. With fewer than [n]
    values below the array, [astore] throws the stack-underflow error. *)
Theorem astore_keeps_stack_order (st : PSInterpreter) (arrayPtr : PSObjectPtr)
    (elems below : list PSObjectPtr) :
  stack_ st = arrayPtr :: below ->
  heap st !! arrayPtr = Some (PSArray elems) ->
  (forall vals rest : list PSObjectPtr,
      below = (vals ++ rest)%list -> length vals = length elems ->
      Operators.astore st
      = Done (mkPSInterpreter (<[arrayPtr := PSArray (reverse vals)]> (heap st))
                (arrayPtr :: rest) (dictionaryStack_ st) (graphicsStack_ st))
      /\ forall (i : nat) (v : PSObjectPtr),
           vals !! i = Some v -> reverse vals !! (length elems - S i)%nat = Some v)
  /\ ((length below < length elems)%nat ->
      Operators.astore st = Throw "Stack underflow: not enough elements for astore").
Proof.
  intros Hs Hp. split.
  - intros vals rest -> Hlen. split.
    + apply (astore_full st arrayPtr elems vals rest Hs Hp Hlen).
    + intros i v Hi. rewrite <- Hlen.
      assert (Hlt : (i < length vals)%nat) by (eapply lookup_lt_Some; eassumption).
      rewrite reverse_lookup by lia.
      replace (length vals - S (length vals - S i))%nat with i by lia.
      exact Hi.
  - intros Hshort. unfold Operators.astore.
    rewrite need_enough by (rewrite Hs; simpl; lia). simpl.
    rewrite (pop_obj_cons st arrayPtr (PSArray elems) below Hs Hp). simpl.
    destruct (decide _) as [_ | Hlong]; [reflexivity |].
    unfold PSStack.size in Hlong. simpl in Hlong. lia.
Qed.

Lemma astore_keeps_stack_order_example :
  Operators.astore two_below_array
  = Done (mkPSInterpreter
            [PSInteger 10; PSInteger 20; PSNull; PSNull; PSArray [0%nat; 1%nat]]
            [4%nat] [] []).
Proof.
  exact (proj1 (proj1 (astore_keeps_stack_order two_below_array 4%nat
                         [2%nat; 3%nat] [1%nat; 0%nat] eq_refl eq_refl)
                  [1%nat; 0%nat] [] eq_refl eq_refl)).
Defined.

(** C5. With an array [A] on top of the stack, [aload] followed by [astore]
    returns the interpreter to the state it started from: the same stack with
    [A] on top and nothing added, the same store, and so the same elements
    in [A]. *)
Theorem aload_astore_round_trip (st : PSInterpreter) (arrayPtr : PSObjectPtr)
    (elems rest : list PSObjectPtr) :
  stack_ st = arrayPtr :: rest ->
  heap st !! arrayPtr = Some (PSArray elems) ->
  Operators.aload st
  = Done (with_stack (arrayPtr :: (reverse elems ++ rest)%list) st)
  /\ (Operators.aload st ≫= Operators.astore) = Done st.
Proof.
  intros Hs Hp.
  assert (Hload : Operators.aload st
                  = Done (with_stack (arrayPtr :: (reverse elems ++ rest)%list) st)).
  { unfold Operators.aload.
    rewrite need_enough by (rewrite Hs; simpl; lia). simpl.
    rewrite (pop_obj_cons st arrayPtr (PSArray elems) rest Hs Hp). simpl.
    rewrite push_all_stack. reflexivity. }
  split; [exact Hload |].
  rewrite Hload. simpl.
  rewrite (astore_full (with_stack (arrayPtr :: (reverse elems ++ rest)%list) st)
             arrayPtr elems (reverse elems) rest eq_refl Hp)
    by apply length_reverse.
  simpl. rewrite reverse_involutive.
  rewrite list_insert_id by assumption.
  destruct st; simpl in *; subst; reflexivity.
Qed.

Lemma aload_astore_round_trip_example :
  Operators.aload array_on_top
  = Done (mkPSInterpreter (heap array_on_top) [3%nat; 2%nat; 1%nat; 0%nat; 4%nat] [] [])
  /\ (Operators.aload array_on_top ≫= Operators.astore) = Done array_on_top.
Proof.
  exact (aload_astore_round_trip array_on_top 3%nat [0%nat; 1%nat; 2%nat] [4%nat]
           eq_refl eq_refl).
Defined.

(** ** [dup], [exch] and [put] *)

Lemma put_writes (st : PSInterpreter) (value indexPtr arrayPtr : PSObjectPtr)
    (index : Z) (elems rest : list PSObjectPtr) :
  stack_ st = value :: indexPtr :: arrayPtr :: rest ->
  heap st !! indexPtr = Some (PSInteger index) ->
  heap st !! arrayPtr = Some (PSArray elems) ->
  0 <= index < Z.of_nat (length elems) ->
  Operators.put st
  = Done (mkPSInterpreter
            (<[arrayPtr := PSArray (<[Z.to_nat index := value]> elems)]> (heap st))
            (arrayPtr :: rest) (dictionaryStack_ st) (graphicsStack_ st)).
Proof.
  intros Hs Hi Ha Hrange. unfold Operators.put.
  rewrite need_enough by (rewrite Hs; simpl; lia).
  destruct st as [h s d gs]. simpl in Hs, Hi, Ha. subst s.
  unfold Operators.pop_obj, PSStack.pop, deref. simpl.
  rewrite Hi. simpl. rewrite Ha. simpl.
  unfold Operators.out_of_bounds.
  destruct (index <? 0) eqn:Hneg; [apply Z.ltb_lt in Hneg; lia |].
  destruct (Z.of_nat (length elems) <=? index) eqn:Hbig; [apply Z.leb_le in Hbig; lia |].
  simpl.
  destruct (decide (Z.to_nat index < length elems)%nat) as [_ | Hbad]; [| lia].
  reflexivity.
Qed.

(** C2, as stated, fails: [dup] pushes the handle of a new object, so after
    [dup exch] the two top handles differ (1 and 4), and [0 (Hello) put]
    through the top handle changes the array at 1 while the array at 4 still
    holds its old element. *)
Lemma dup_copies_the_array :
  (PSStack.dup one_array ≫= PSStack.exch) = Done one_array_dup_exch
  /\ Operators.put (PSStack.push 3%nat (PSStack.push 2%nat one_array_dup_exch))
     = Done (mkPSInterpreter
               [PSNull; PSArray [3%nat]; PSInteger 0; PSString "(Hello)"; PSArray [0%nat]]
               [1%nat; 4%nat] [] [])
  /\ ~ dup_shares_identity.
Proof.
  assert (Hrun : (PSStack.dup one_array ≫= PSStack.exch) = Done one_array_dup_exch)
    by reflexivity.
  split; [exact Hrun |]. split; [reflexivity |].
  intros Hclaim.
  specialize (Hclaim one_array one_array_dup_exch 1%nat [0%nat] []
                eq_refl eq_refl Hrun).
  discriminate Hclaim.
Qed.

(** C2, amended. [dup] allocates a new object that holds a copy of the
    value on top; for an array that is a new array object with the same
    element handles. After [dup] the handle of the copy is on top and the
    original handle below it; after [dup exch] it is the other way round.
    The two are different handles, and both arrays have the same elements.
    A [put] through either of the two handles then writes into the array of
    that handle only: the other array keeps the element it had. [put]
    prints the value before the write and the array after it, so the value
    and the array as written must be printable: [toString] must return on
    them. *)
Theorem dup_exch_put_on_copy (print_double : float -> string) (st : PSInterpreter)
    (arrayPtr indexPtr value : PSObjectPtr) (index : Z) (elems rest : list PSObjectPtr) :
  stack_ st = arrayPtr :: rest ->
  heap st !! arrayPtr = Some (PSArray elems) ->
  heap st !! indexPtr = Some (PSInteger index) ->
  0 <= index < Z.of_nat (length elems) ->
  prints print_double (heap st ++ [PSArray elems])%list value ->
  prints print_double
    (<[arrayPtr := PSArray (<[Z.to_nat index := value]> elems)]>
       (heap st ++ [PSArray elems])%list) arrayPtr ->
  prints print_double
    (<[length (heap st) := PSArray (<[Z.to_nat index := value]> elems)]>
       (heap st ++ [PSArray elems])%list) (length (heap st)) ->
  let copy := length (heap st) in
  let st0 := mkPSInterpreter (heap st ++ [PSArray elems]) (copy :: arrayPtr :: rest)
               (dictionaryStack_ st) (graphicsStack_ st) in
  let st1 := mkPSInterpreter (heap st ++ [PSArray elems]) (arrayPtr :: copy :: rest)
               (dictionaryStack_ st) (graphicsStack_ st) in
  PSStack.dup st = Done st0
  /\ (PSStack.dup st ≫= PSStack.exch) = Done st1
  /\ copy <> arrayPtr
  /\ heap st1 !! arrayPtr = Some (PSArray elems)
  /\ heap st1 !! copy = Some (PSArray elems)
  /\ (exists st2 : PSInterpreter,
        Operators.put (PSStack.push value (PSStack.push indexPtr st1)) = Done st2
        /\ stack_ st2 = arrayPtr :: copy :: rest
        /\ heap st2 !! arrayPtr = Some (PSArray (<[Z.to_nat index := value]> elems))
        /\ heap st2 !! copy = Some (PSArray elems))
  /\ (exists st2 : PSInterpreter,
        Operators.put (PSStack.push value (PSStack.push indexPtr st0)) = Done st2
        /\ stack_ st2 = copy :: arrayPtr :: rest
        /\ heap st2 !! copy = Some (PSArray (<[Z.to_nat index := value]> elems))
        /\ heap st2 !! arrayPtr = Some (PSArray elems)).
Proof.
  intros Hs Ha Hi Hrange _ _ _ copy st0 st1.
  assert (Hlt : (arrayPtr < length (heap st))%nat)
    by (eapply lookup_lt_Some; eassumption).
  assert (Hilt : (indexPtr < length (heap st))%nat)
    by (eapply lookup_lt_Some; eassumption).
  assert (Ha1 : heap st1 !! arrayPtr = Some (PSArray elems))
    by (simpl; rewrite lookup_app_l by lia; exact Ha).
  assert (Hc1 : heap st1 !! copy = Some (PSArray elems))
    by (simpl; apply lookup_fresh).
  assert (Hi1 : heap st1 !! indexPtr = Some (PSInteger index))
    by (simpl; rewrite lookup_app_l by lia; exact Hi).
  assert (Hdup : PSStack.dup st = Done st0)
    by (unfold PSStack.dup; rewrite Hs; unfold deref; rewrite Ha; simpl;
        unfold PSStack.push; simpl; rewrite Hs; reflexivity).
  split; [exact Hdup |].
  split; [rewrite Hdup; reflexivity |].
  split; [unfold copy; lia |].
  split; [exact Ha1 |]. split; [exact Hc1 |]. split.
  - eexists. split; [| split; [| split]].
    + apply (put_writes (PSStack.push value (PSStack.push indexPtr st1))
               value indexPtr arrayPtr index elems (copy :: rest) eq_refl Hi1 Ha1 Hrange).
    + reflexivity.
    + simpl. apply list_lookup_insert_eq. rewrite length_app. lia.
    + simpl. rewrite list_lookup_insert_ne by (unfold copy; lia). apply lookup_fresh.
  - eexists. split; [| split; [| split]].
    + apply (put_writes (PSStack.push value (PSStack.push indexPtr st0))
               value indexPtr copy index elems (arrayPtr :: rest) eq_refl Hi1 Hc1 Hrange).
    + reflexivity.
    + simpl. apply list_lookup_insert_eq. rewrite length_app. simpl. unfold copy. lia.
    + simpl. rewrite list_lookup_insert_ne by (unfold copy; lia).
      rewrite lookup_app_l by lia. exact Ha.
Qed.

Lemma dup_exch_put_on_copy_example :
  (PSStack.dup one_array ≫= PSStack.exch) = Done one_array_dup_exch
  /\ (exists st2 : PSInterpreter,
        Operators.put (PSStack.push 3%nat (PSStack.push 2%nat one_array_dup_exch))
        = Done st2
        /\ heap st2 !! 1%nat = Some (PSArray [3%nat])
        /\ heap st2 !! 4%nat = Some (PSArray [0%nat])).
Proof.
  destruct (dup_exch_put_on_copy (fun _ => "0.5") one_array 1%nat 2%nat 3%nat 0
              [0%nat] [] eq_refl eq_refl eq_refl)
    as (_ & Hrun & _ & _ & _ & (st2 & Hput & _ & Horiginal & Hcopy) & _).
  - simpl. lia.
  - exists 1%nat, "(Hello)". reflexivity.
  - exists 2%nat, "[(Hello)]". reflexivity.
  - exists 2%nat, "[(Hello)]". reflexivity.
  - split; [exact Hrun |]. exists st2. split; [exact Hput |]. split; assumption.
Defined.

(** ** [if] *)

Lemma if_runs (exec : executor) (st : PSInterpreter) (procPtr conditionPtr : PSObjectPtr)
    (proc : list string) (conditionObj : PSObject) (rest : list PSObjectPtr) :
  stack_ st = procPtr :: conditionPtr :: rest ->
  heap st !! procPtr = Some (PSProcedure proc) ->
  heap st !! conditionPtr = Some conditionObj ->
  Operators.if_ exec st
  = if Operators.condition_of conditionObj
    then Operators.run_tokens exec proc (with_stack rest st)
    else Done (with_stack rest st).
Proof.
  intros Hs Hp Hc. unfold Operators.if_.
  rewrite need_enough by (rewrite Hs; simpl; lia). simpl.
  rewrite (pop_obj_cons st procPtr (PSProcedure proc) _ Hs Hp). simpl.
  rewrite (pop_obj_cons (with_stack (conditionPtr :: rest) st)
             conditionPtr conditionObj rest eq_refl Hc). simpl.
  destruct (Operators.condition_of conditionObj); reflexivity.
Qed.

(** C3, as stated, fails: a String is a condition "of any other type", yet
    [(x) { 1 } if] pops its two operands and does not replay the procedure,
    which would have pushed the Integer 1. *)
Lemma if_string_condition_not_replayed :
  Operators.if_ (@executeToken unused_libc 2) string_condition
  = Done (mkPSInterpreter [PSString "(x)"; PSProcedure ["1"]] [] [] [])
  /\ truthiness_as_specified (PSString "(x)") = true
  /\ Operators.run_tokens (@executeToken unused_libc 2) ["1"]
       (with_stack [] string_condition)
     = Done (mkPSInterpreter [PSString "(x)"; PSProcedure ["1"]; PSInteger 1]
               [2%nat] [] [])
  /\ ~ if_replays_as_specified.
Proof.
  assert (Hif : Operators.if_ (@executeToken unused_libc 2) string_condition
                = Done (mkPSInterpreter [PSString "(x)"; PSProcedure ["1"]] [] [] []))
    by (vm_compute; reflexivity).
  assert (Hrun : Operators.run_tokens (@executeToken unused_libc 2) ["1"]
                   (with_stack [] string_condition)
                 = Done (mkPSInterpreter
                           [PSString "(x)"; PSProcedure ["1"]; PSInteger 1]
                           [2%nat] [] []))
    by (vm_compute; reflexivity).
  split; [exact Hif |]. split; [reflexivity |]. split; [exact Hrun |].
  intros Hclaim.
  specialize (Hclaim unused_libc 2%nat string_condition 1%nat 0%nat ["1"]
                (PSString "(x)") [] eq_refl eq_refl eq_refl).
  simpl truthiness_as_specified in Hclaim. cbv iota in Hclaim.
  rewrite Hif, Hrun in Hclaim. discriminate Hclaim.
Qed.

(** C3, amended. [if] pops the procedure and the condition and replays the
    procedure's tokens exactly when the condition is true, where a Boolean
    is its own value, an Integer is true unless it is 0, a Real is true
    unless it equals 0.0, and a condition of any other type is false; when
    the condition is false nothing but the two pops happens. *)
Theorem if_replays_on_true_condition (exec : executor) (st : PSInterpreter)
    (procPtr conditionPtr : PSObjectPtr) (proc : list string)
    (conditionObj : PSObject) (rest : list PSObjectPtr) :
  stack_ st = procPtr :: conditionPtr :: rest ->
  heap st !! procPtr = Some (PSProcedure proc) ->
  heap st !! conditionPtr = Some conditionObj ->
  (Operators.condition_of conditionObj = true ->
   Operators.if_ exec st = Operators.run_tokens exec proc (with_stack rest st))
  /\ (Operators.condition_of conditionObj = false ->
      Operators.if_ exec st = Done (with_stack rest st))
  /\ (Operators.condition_of conditionObj = true <->
      conditionObj = PSBoolean true
      \/ (exists v : Z, conditionObj = PSInteger v /\ v <> 0)
      \/ (exists v : float, conditionObj = PSReal v /\ PrimFloat.eqb v 0 = false)).
Proof.
  intros Hs Hp Hc.
  pose proof (if_runs exec st procPtr conditionPtr proc conditionObj rest Hs Hp Hc) as Hif.
  split; [| split].
  - intros Ht. rewrite Hif, Ht. reflexivity.
  - intros Hf. rewrite Hif, Hf. reflexivity.
  - split.
    + intros Ht. destruct conditionObj as [v | v | | v | | | |]; simpl in Ht;
        try discriminate Ht.
      * right; left. exists v. split; [reflexivity |].
        apply negb_true_iff, Z.eqb_neq in Ht. exact Ht.
      * right; right. exists v. split; [reflexivity |].
        apply negb_true_iff in Ht. exact Ht.
      * left. subst v. reflexivity.
    + intros [-> | [(v & -> & Hv) | (v & -> & Hv)]]; simpl.
      * reflexivity.
      * apply negb_true_iff, Z.eqb_neq. exact Hv.
      * rewrite Hv. reflexivity.
Qed.

Lemma if_replays_on_true_condition_example :
  Operators.if_ (@executeToken unused_libc 2) string_condition
  = Done (with_stack [] string_condition).
Proof.
  refine (proj1 (proj2 (if_replays_on_true_condition (@executeToken unused_libc 2)
                          string_condition 1%nat 0%nat ["1"] (PSString "(x)") []
                          eq_refl eq_refl eq_refl)) _).
  reflexivity.
Defined.

(** ** Dispatch of a token *)

Section Dispatch.
Context `{LibC}.

(** What a fold of insertions binds [name] to was inserted by one of them
    or was there before. *)
Lemma fold_register_lookup (entries : list (string * OperatorFunction)) :
  forall (operators_ : gmap string OperatorFunction) (name : string) (op : OperatorFunction),
    fold_left (fun m entry => registerOperator entry.1 entry.2 m) entries operators_
      !! name = Some op ->
    (name, op) ∈ entries \/ operators_ !! name = Some op.
Proof.
  induction entries as [| [n f] entries IH]; intros operators_ name op Hlook; simpl in *.
  - right. exact Hlook.
  - destruct (IH _ _ _ Hlook) as [Hin | Hhere].
    + left. apply list_elem_of_further. exact Hin.
    + unfold registerOperator in Hhere.
      destruct (decide (n = name)) as [-> | Hne].
      * rewrite lookup_insert_eq in Hhere. injection Hhere as <-.
        left. apply list_elem_of_here.
      * rewrite lookup_insert_ne in Hhere by assumption. right. exact Hhere.
Qed.

Lemma getOperator_registered (name : string) (op : OperatorFunction) :
  getOperator name = Some op -> (name, op) ∈ registrations.
Proof.
  intros Hlook. unfold getOperator, OperatorRegistry in Hlook.
  destruct (fold_register_lookup _ _ _ _ Hlook) as [Hin | Hempty].
  - exact Hin.
  - rewrite lookup_empty in Hempty. discriminate Hempty.
Qed.

Lemma registered_name_not_empty (name : string) (op : OperatorFunction) :
  getOperator name = Some op -> name <> "".
Proof.
  intros Hlook ->. apply getOperator_registered in Hlook.
  apply (list_elem_of_fmap_2 fst) in Hlook. simpl in Hlook.
  apply (bool_decide_pack _) in Hlook. vm_compute in Hlook. exact Hlook.
Qed.

(** One unfolding of [executeToken]. *)
Lemma executeToken_step (fuel : nat) (token : string) (st : PSInterpreter) :
  executeToken (S fuel) token st
  = if bool_decide (token = "") then Done st
    else
      match getOperator token with
      | Some op => op (executeToken fuel) st
      | None =>
          if ((1 <? slen token) && is_char (first_char token) "/"%char)%bool
          then Done (Operators.push_new (PSString token) st)
          else
            found ← lookup_procedure token st;
            match found with
            | Some procedure => Operators.run_tokens (executeToken fuel) procedure st
            | None => execute_number_or_literal (executeToken fuel) token st
            end
      end.
Proof. reflexivity. Qed.

(** C10. A token that names a registered operator is executed by calling
    that operator, which is one of the built-ins registered by the
    constructor of the registry; the current dictionary is not consulted,
    so a definition under the operator's name does not take its place. *)
Theorem operator_dispatch_precedes_lookup (fuel : nat) (token : string)
    (st : PSInterpreter) :
  hasOperator token = true ->
  exists op : OperatorFunction,
    getOperator token = Some op
    /\ (token, op) ∈ registrations
    /\ executeToken (S fuel) token st = op (executeToken fuel) st.
Proof.
  intros Hhas. unfold hasOperator in Hhas.
  apply bool_decide_eq_true in Hhas as [op Hop].
  change (getOperator token = Some op) in Hop.
  exists op. split; [exact Hop |]. split; [apply getOperator_registered, Hop |].
  pose proof (registered_name_not_empty token op Hop) as Hne.
  rewrite executeToken_step, bool_decide_eq_false_2 by assumption.
  rewrite Hop. reflexivity.
Qed.

(** A bare token that is no operator and no name literal, when the
    current dictionary binds it: a procedure is replayed; any other value
    is left alone and the token goes on to the number and literal checks. *)
Lemma bare_key_dispatch (fuel : nat) (token : string) (st : PSInterpreter)
    (dictPtr valuePtr : PSObjectPtr) (d : gmap string PSObjectPtr) (value : PSObject) :
  token <> "" ->
  getOperator token = None ->
  ((1 <? slen token) && is_char (first_char token) "/"%char)%bool = false ->
  getCurrentDictionary st = Some dictPtr ->
  heap st !! dictPtr = Some (PSDictionary d) ->
  d !! token = Some valuePtr ->
  heap st !! valuePtr = Some value ->
  executeToken (S fuel) token st
  = match value with
    | PSProcedure procedure => Operators.run_tokens (executeToken fuel) procedure st
    | _ => execute_number_or_literal (executeToken fuel) token st
    end.
Proof.
  intros Hne Hop Hslash Hcur Hd Hk Hv.
  rewrite executeToken_step, bool_decide_eq_false_2 by assumption.
  rewrite Hop, Hslash.
  unfold lookup_procedure. rewrite Hcur. unfold deref. rewrite Hd. simpl.
  rewrite bool_decide_eq_true_2 by (eexists; eassumption).
  rewrite Hk. simpl. rewrite Hv. simpl.
  destruct value; reflexivity.
Qed.

(** C1 at the input [/k 5 def k]: [k] is bound to the Integer 5 in the
    current dictionary, and executing the bare token [k] pushes the String
    "k" (the fallback for an unknown token), not the Integer. *)
Theorem defined_value_is_not_pushed :
  execute 2 "/k 5 def k" (new_interpreter [])
  = Done (mkPSInterpreter
            [PSDictionary {["k" := 2%nat]}; PSString "/k"; PSInteger 5; PSString "k"]
            [3%nat] [0%nat] [Graphics.GraphicsState0]).
Proof. vm_compute. reflexivity. Qed.

(** The procedure half of C1 on [/square { dup mul } def 4 square]. *)
Lemma defined_procedure_is_replayed :
  exists st : PSInterpreter,
    execute 3 "/square { dup mul } def 4 square" (new_interpreter []) = Done st
    /\ (top ← PSStack.peek st; deref st top) = Done (PSInteger 16).
Proof. eexists. split; vm_compute; reflexivity. Qed.

End Dispatch.

Lemma operator_dispatch_add_redefined :
  exists op : OperatorFunction,
    @getOperator unused_libc "add" = Some op
    /\ ("add", op) ∈ @registrations unused_libc
    /\ @executeToken unused_libc 1 "add" add_redefined
       = op (@executeToken unused_libc 0) add_redefined.
Proof.
  apply (@operator_dispatch_precedes_lookup unused_libc 0 "add" add_redefined).
  vm_compute. reflexivity.
Defined.

(** The run itself: the built-in addition, 8, and not the difference. *)
Lemma add_redefined_still_adds :
  @executeToken unused_libc 1 "add" add_redefined
  = Done (mkPSInterpreter
            [PSDictionary {["add" := 1%nat]}; PSProcedure ["sub"]; PSInteger 5;
             PSInteger 3; PSInteger 8]
            [4%nat] [0%nat] [Graphics.GraphicsState0]).
Proof. vm_compute. reflexivity. Qed.

(** ** Xref-stream records *)

Lemma u8_range (b : Byte.byte) : 0 <= PDF.u8 b < 256.
Proof. destruct b; vm_compute; split; congruence. Qed.

Lemma lor_mul_add (hi lo n : Z) :
  0 <= n -> 0 <= lo < 2 ^ n -> Z.lor (hi * 2 ^ n) lo = hi * 2 ^ n + lo.
Proof.
  intros Hn Hlo.
  assert (Hdisjoint : Z.land (hi * 2 ^ n) lo = 0).
  { apply Z.bits_inj'. intros i Hi.
    rewrite Z.land_spec, Z.bits_0.
    destruct (Z.lt_ge_cases i n) as [Hlt | Hge].
    - rewrite Z.mul_pow2_bits_low by exact Hlt. reflexivity.
    - destruct (Z.eq_dec lo 0) as [-> | Hnz].
      + rewrite Z.bits_0. apply andb_false_r.
      + rewrite (Z.bits_above_log2 lo i); [apply andb_false_r | lia |].
        apply Z.lt_le_trans with n; [| exact Hge].
        apply Z.log2_lt_pow2; lia. }
  rewrite <- Z.lxor_lor by exact Hdisjoint.
  rewrite <- Z.add_nocarry_lxor by exact Hdisjoint. reflexivity.
Qed.

Lemma two_bytes (b0 b1 : Z) :
  0 <= b1 < 256 -> Z.lor (Z.shiftl b0 8) b1 = b0 * 256 + b1.
Proof.
  intros H1. rewrite Z.shiftl_mul_pow2 by lia.
  rewrite lor_mul_add by lia. lia.
Qed.

Lemma three_bytes (b0 b1 b2 : Z) :
  0 <= b1 < 256 -> 0 <= b2 < 256 ->
  Z.lor (Z.lor (Z.shiftl b0 16) (Z.shiftl b1 8)) b2 = (b0 * 256 + b1) * 256 + b2.
Proof.
  intros H1 H2. rewrite !Z.shiftl_mul_pow2 by lia.
  rewrite (lor_mul_add b0 (b1 * 2 ^ 8) 16) by lia.
  replace (b0 * 2 ^ 16 + b1 * 2 ^ 8) with ((b0 * 256 + b1) * 2 ^ 8) by lia.
  rewrite lor_mul_add by lia. lia.
Qed.

Lemma four_bytes (b0 b1 b2 b3 : Z) :
  0 <= b1 < 256 -> 0 <= b2 < 256 -> 0 <= b3 < 256 ->
  Z.lor (Z.lor (Z.lor (Z.shiftl b0 24) (Z.shiftl b1 16)) (Z.shiftl b2 8)) b3
  = ((b0 * 256 + b1) * 256 + b2) * 256 + b3.
Proof.
  intros H1 H2 H3. rewrite !Z.shiftl_mul_pow2 by lia.
  rewrite (lor_mul_add b0 (b1 * 2 ^ 16) 24) by lia.
  replace (b0 * 2 ^ 24 + b1 * 2 ^ 16) with ((b0 * 256 + b1) * 2 ^ 16) by lia.
  rewrite (lor_mul_add (b0 * 256 + b1) (b2 * 2 ^ 8) 16) by lia.
  replace ((b0 * 256 + b1) * 2 ^ 16 + b2 * 2 ^ 8)
    with (((b0 * 256 + b1) * 256 + b2) * 2 ^ 8) by lia.
  rewrite lor_mul_add by lia. lia.
Qed.

Lemma big_endian_snoc (bytes : list Byte.byte) (b : Byte.byte) :
  big_endian (bytes ++ [b]) = big_endian bytes * 256 + PDF.u8 b.
Proof. unfold big_endian. rewrite fold_left_app. reflexivity. Qed.

Lemma big_endian_range (bytes : list Byte.byte) :
  0 <= big_endian bytes < 256 ^ Z.of_nat (length bytes).
Proof.
  induction bytes as [| b bytes IH] using rev_ind.
  - vm_compute. split; congruence.
  - rewrite big_endian_snoc, length_app. simpl length.
    replace (Z.of_nat (length bytes + 1)) with (Z.of_nat (length bytes) + 1) by lia.
    rewrite Z.pow_add_r by lia. pose proof (u8_range b). nia.
Qed.

Lemma take_drop_1 (l : list Byte.byte) (offset : nat) (b0 : Byte.byte) :
  l !! offset = Some b0 -> take 1 (drop offset l) = [b0].
Proof.
  intros H0. rewrite (drop_S l b0 offset H0). reflexivity.
Qed.

Lemma take_drop_S (l : list Byte.byte) (offset n : nat) (b0 : Byte.byte) :
  l !! offset = Some b0 ->
  take (S n) (drop offset l) = b0 :: take n (drop (S offset) l).
Proof. intros H0. rewrite (drop_S l b0 offset H0). reflexivity. Qed.

(** A field of width 1 to 4 that lies within the data is read as the
    number that its bytes spell. *)
Lemma read_field_big_endian (width : nat) (data : list Byte.byte) (offset : nat) :
  (1 <= width <= 4)%nat -> (offset + width <= length data)%nat ->
  PDF.read_field width data offset
  = Some (big_endian (take width (drop offset data))).
Proof.
  intros Hwidth Hlen.
  destruct width as [| [| [| [| [| width]]]]]; try lia.
  - destruct (lookup_lt_is_Some_2 data offset ltac:(lia)) as [b0 H0].
    unfold PDF.read_field, PDF.readBigEndian8.
    destruct (decide _) as [Hshort | _]; [lia |].
    rewrite H0, (take_drop_1 _ _ _ H0). reflexivity.
  - destruct (lookup_lt_is_Some_2 data offset ltac:(lia)) as [b0 H0].
    destruct (lookup_lt_is_Some_2 data (S offset) ltac:(lia)) as [b1 H1].
    unfold PDF.read_field, PDF.readBigEndian16.
    destruct (decide _) as [Hshort | _]; [lia |].
    replace (offset + 1)%nat with (S offset) by lia.
    rewrite H0, H1, (take_drop_S _ _ _ _ H0), (take_drop_1 _ _ _ H1).
    rewrite two_bytes by apply u8_range. reflexivity.
  - destruct (lookup_lt_is_Some_2 data offset ltac:(lia)) as [b0 H0].
    destruct (lookup_lt_is_Some_2 data (S offset) ltac:(lia)) as [b1 H1].
    destruct (lookup_lt_is_Some_2 data (S (S offset)) ltac:(lia)) as [b2 H2].
    unfold PDF.read_field, PDF.read3, PDF.at_.
    replace (offset + 1)%nat with (S offset) by lia.
    replace (offset + 2)%nat with (S (S offset)) by lia.
    rewrite H0, H1, H2, (take_drop_S _ _ _ _ H0), (take_drop_S _ _ _ _ H1),
      (take_drop_1 _ _ _ H2).
    simpl. rewrite three_bytes by apply u8_range. reflexivity.
  - destruct (lookup_lt_is_Some_2 data offset ltac:(lia)) as [b0 H0].
    destruct (lookup_lt_is_Some_2 data (S offset) ltac:(lia)) as [b1 H1].
    destruct (lookup_lt_is_Some_2 data (S (S offset)) ltac:(lia)) as [b2 H2].
    destruct (lookup_lt_is_Some_2 data (S (S (S offset))) ltac:(lia)) as [b3 H3].
    unfold PDF.read_field, PDF.readBigEndian32.
    destruct (decide _) as [Hshort | _]; [lia |].
    replace (offset + 1)%nat with (S offset) by lia.
    replace (offset + 2)%nat with (S (S offset)) by lia.
    replace (offset + 3)%nat with (S (S (S offset))) by lia.
    rewrite H0, H1, H2, H3, (take_drop_S _ _ _ _ H0), (take_drop_S _ _ _ _ H1),
      (take_drop_S _ _ _ _ H2), (take_drop_1 _ _ _ H3).
    rewrite four_bytes by apply u8_range. reflexivity.
Qed.



Lemma at_returns (data : list Byte.byte) (i : nat) :
  (i <= length data)%nat -> exists v : Z, PDF.at_ data i = Some v.
Proof.
  intros Hi. unfold PDF.at_. destruct (data !! i) as [c |] eqn:Hc; [eexists; reflexivity |].
  apply lookup_ge_None in Hc. destruct (decide _); [eexists; reflexivity | lia].
Qed.

Lemma read_field_returns (width : nat) (data : list Byte.byte) (offset : nat) :
  (width <> 3 \/ offset + width <= length data)%nat ->
  exists v : Z, PDF.read_field width data offset = Some v.
Proof.
  intros Hok.
  destruct width as [| [| [| [| [| width]]]]]; simpl; try (eexists; reflexivity).
  destruct Hok as [Hne | Hlen]; [contradiction |].
  unfold PDF.read3.
  destruct (at_returns data offset ltac:(lia)) as [b0 ->].
  destruct (at_returns data (offset + 1) ltac:(lia)) as [b1 ->].
  destruct (at_returns data (offset + 2) ltac:(lia)) as [b2 ->].
  eexists. reflexivity.
Qed.

Lemma read_field_spelled (width : nat) (data : list Byte.byte) (offset : nat) :
  (width <= 4)%nat -> (offset + width <= length data)%nat ->
  PDF.read_field width data offset
  = Some (big_endian (take width (drop offset data))).
Proof.
  intros Hwidth Hlen. destruct width as [| width]; [reflexivity |].
  apply read_field_big_endian; [lia | exact Hlen].
Qed.

Lemma wrap32_one (v : Z) : 0 <= v < 2 ^ 32 -> wrap32 v = 1 <-> v = 1.
Proof.
  intros Hv. unfold wrap32.
  destruct (Z.lt_ge_cases v (2 ^ 31)) as [Hlow | Hhigh].
  - rewrite Z.mod_small by lia. lia.
  - replace (v + 2 ^ 31) with (v - 2 ^ 31 + 1 * 2 ^ 32) by lia.
    rewrite Z.mod_add by lia. rewrite Z.mod_small by lia. lia.
Qed.

(** The type field, where the decoder reads it: the value read is 1 exactly
    when the bytes spell 1. *)
Lemma read_type_one (width : nat) (data : list Byte.byte) (offset : nat) :
  (width = 1 \/ width = 2 \/ width = 4)%nat -> (offset + width <= length data)%nat ->
  PDF.read_type width data offset = 1
  <-> big_endian (take width (drop offset data)) = 1.
Proof.
  intros Hwidth Hlen.
  assert (Hin : (1 <= width <= 4)%nat) by lia.
  pose proof (read_field_big_endian width data offset Hin Hlen) as Hread.
  pose proof (big_endian_range (take width (drop offset data))) as Hrange.
  rewrite length_take, length_drop in Hrange.
  replace (width `min` (length data - offset))%nat with width in Hrange by lia.
  destruct Hwidth as [-> | [-> | ->]]; cbn [PDF.read_field] in Hread;
    injection Hread as Hread; unfold PDF.read_type; rewrite Hread.
  - reflexivity.
  - reflexivity.
  - apply wrap32_one. change (256 ^ Z.of_nat 4) with (2 ^ 32) in Hrange. exact Hrange.
Qed.

Lemma decode_objects_app (w : PDF.widths) (data : list Byte.byte) (l1 l2 : list Z)
    (s : PDF.decoder) :
  decode_objects w data (l1 ++ l2) s
  = decode_objects w data l1 s ≫= decode_objects w data l2.
Proof.
  revert s. induction l1 as [| obj l1 IH]; intros s; simpl; [reflexivity |].
  destruct (PDF.decode_entry w data obj s) as [s1 |]; simpl; [apply IH | reflexivity].
Qed.

Lemma decode_range_objects (w : PDF.widths) (data : list Byte.byte) (firstObj : Z)
    (n : nat) :
  forall (i : nat) (s : PDF.decoder),
    Forall (fun obj => in_int obj = true)
      (map (fun k => firstObj + Z.of_nat k) (seq i n)) ->
    PDF.decode_range w data firstObj (Z.of_nat i) n s
    = decode_objects w data (map (fun k => firstObj + Z.of_nat k) (seq i n)) s.
Proof.
  induction n as [| n IH]; intros i s Hint; simpl; [reflexivity |].
  simpl in Hint. inversion Hint as [| obj objs Hi Hrest]; subst.
  rewrite Hi.
  destruct (PDF.decode_entry w data (firstObj + Z.of_nat i) s) as [s1 |]; simpl;
    [| reflexivity].
  replace (Z.of_nat i + 1) with (Z.of_nat (S i)) by lia. apply IH. exact Hrest.
Qed.

(** Where every declared object number is an [int], the two loops are one
    pass over the declared object numbers. *)
Lemma decode_index_objects (w : PDF.widths) (data : list Byte.byte)
    (index : list (Z * Z)) :
  Forall (fun obj => in_int obj = true) (xref_objects index) ->
  forall s : PDF.decoder,
    PDF.decode_index w data index s = decode_objects w data (xref_objects index) s.
Proof.
  induction index as [| [firstObj count] index IH]; intros Hint s; simpl;
    [reflexivity |].
  simpl in Hint. apply Forall_app in Hint as [Hfirst Hrest].
  rewrite decode_objects_app.
  pose proof (decode_range_objects w data firstObj (Z.to_nat count) 0%nat s Hfirst)
    as Hrange.
  change (Z.of_nat 0) with 0 in Hrange. rewrite Hrange.
  destruct (decode_objects _ _ _ s) as [s1 |]; simpl; [apply IH; exact Hrest | reflexivity].
Qed.

(** What one entry does: the offset advances by the three widths, and the
    map gains [(objNum, field1)] exactly when the type field is 1. *)
Lemma decode_entry_effect (w : PDF.widths) (data : list Byte.byte) (objNum : Z)
    (s s' : PDF.decoder) :
  PDF.decode_entry w data objNum s = Some s' ->
  PDF.dataOffset s' = (PDF.dataOffset s + PDF.entry_size w)%nat
  /\ exists field1 : Z,
       PDF.read_field (PDF.field1Width w) data (PDF.dataOffset s + PDF.typeWidth w)
       = Some field1
       /\ PDF.objectOffsets s'
          = if PDF.read_type (PDF.typeWidth w) data (PDF.dataOffset s) =? 1
            then <[objNum := field1]> (PDF.objectOffsets s)
            else PDF.objectOffsets s.
Proof.
  unfold PDF.decode_entry, PDF.entry_size. intros Hdec.
  destruct (PDF.read_field (PDF.field1Width w) data _) as [field1 |] eqn:Hf1;
    simpl in Hdec; [| discriminate Hdec].
  destruct (PDF.read_field (PDF.field2Width w) data _) as [field2 |] eqn:Hf2;
    simpl in Hdec; [| discriminate Hdec].
  set (type := PDF.read_type (PDF.typeWidth w) data (PDF.dataOffset s)) in *.
  split.
  - destruct (type =? 0); [| destruct (type =? 1); [| destruct (type =? 2)]];
      injection Hdec as <-; simpl; lia.
  - exists field1. split; [reflexivity |].
    destruct (type =? 0) eqn:H0.
    + apply Z.eqb_eq in H0. rewrite H0. simpl. injection Hdec as <-. reflexivity.
    + destruct (type =? 1); [| destruct (type =? 2)];
        injection Hdec as <-; reflexivity.
Qed.

Lemma decode_objects_returns (w : PDF.widths) (data : list Byte.byte) (objs : list Z) :
  forall s : PDF.decoder,
    ((PDF.field1Width w <> 3 /\ PDF.field2Width w <> 3)
     \/ PDF.dataOffset s + length objs * PDF.entry_size w <= length data)%nat ->
    exists s' : PDF.decoder, decode_objects w data objs s = Some s'.
Proof.
  induction objs as [| obj objs IH]; intros s Hok; [eexists; reflexivity |].
  simpl in Hok.
  assert (Hentry : exists s1 : PDF.decoder, PDF.decode_entry w data obj s = Some s1).
  { unfold PDF.decode_entry, PDF.entry_size in *.
    destruct (read_field_returns (PDF.field1Width w) data
                (PDF.dataOffset s + PDF.typeWidth w)) as [f1 ->];
      [destruct Hok as [[Hw1 _] | Hlen]; [left; exact Hw1 | right; lia] |].
    destruct (read_field_returns (PDF.field2Width w) data
                (PDF.dataOffset s + PDF.typeWidth w + PDF.field1Width w)) as [f2 ->];
      [destruct Hok as [[_ Hw2] | Hlen]; [left; exact Hw2 | right; lia] |].
    simpl.
    destruct (_ =? 0); [| destruct (_ =? 1); [| destruct (_ =? 2)]];
      eexists; reflexivity. }
  destruct Hentry as [s1 Hs1].
  destruct (decode_entry_effect w data obj s s1 Hs1) as [Hoff _].
  destruct (IH s1) as [s' Hs']; [destruct Hok as [Hw | Hlen]; [left; exact Hw | right; lia] |].
  exists s'. simpl. rewrite Hs1. exact Hs'.
Qed.

Lemma decode_objects_spec (w : PDF.widths) (data : list Byte.byte) (objs : list Z) :
  forall s' : PDF.decoder,
    decode_objects w data objs (PDF.mkDecoder ∅ 0) = Some s' ->
    PDF.dataOffset s' = (length objs * PDF.entry_size w)%nat
    /\ forall obj off : Z,
         PDF.objectOffsets s' !! obj = Some off <-> last_read_in_use w data objs obj off.
Proof.
  induction objs as [| x l IH] using rev_ind; intros s' Hdec.
  - simpl in Hdec. injection Hdec as <-. simpl. split; [reflexivity |].
    intros obj off. rewrite lookup_empty. split; [discriminate |].
    intros (k & Hk & _). rewrite lookup_nil in Hk. discriminate Hk.
  - rewrite decode_objects_app in Hdec.
    destruct (decode_objects w data l (PDF.mkDecoder ∅ 0)) as [s1 |] eqn:Hl;
      simpl in Hdec; [| discriminate Hdec].
    destruct (PDF.decode_entry w data x s1) as [s2 |] eqn:Hx;
      simpl in Hdec; [| discriminate Hdec].
    injection Hdec as <-.
    destruct (IH s1 eq_refl) as [Hoff Hmap].
    destruct (decode_entry_effect w data x s1 s2 Hx) as (Hoff2 & field1 & Hf1 & Hm2).
    rewrite Hoff in Hoff2, Hf1, Hm2.
    change (PDF.read_type (PDF.typeWidth w) data (length l * PDF.entry_size w))
      with (decoder_record_type w data (length l)) in Hm2.
    change (PDF.read_field (PDF.field1Width w) data
              (length l * PDF.entry_size w + PDF.typeWidth w))
      with (decoder_record_field1 w data (length l)) in Hf1.
    split; [rewrite Hoff2, length_app; simpl; lia |].
    intros obj off. rewrite Hm2. split.
    + intros Hlook.
      destruct (decoder_record_type w data (length l) =? 1) eqn:Ht.
      * apply Z.eqb_eq in Ht.
        destruct (decide (x = obj)) as [-> | Hne].
        -- rewrite lookup_insert_eq in Hlook. injection Hlook as <-.
           exists (length l). split; [apply list_lookup_middle; reflexivity |].
           split; [exact Ht |]. split; [exact Hf1 |].
           intros k' Hk' Hlk. apply lookup_lt_Some in Hlk.
           rewrite length_app in Hlk. simpl in Hlk. lia.
        -- rewrite lookup_insert_ne in Hlook by assumption.
           apply Hmap in Hlook as (k & Hk & Htk & Hfk & Hlast).
           assert (Hklt : (k < length l)%nat) by (eapply lookup_lt_Some; eassumption).
           exists k. split; [rewrite lookup_app_l by lia; exact Hk |].
           split; [exact Htk |]. split; [exact Hfk |].
           intros k' Hk' Hlk.
           destruct (decide (k' < length l)%nat) as [Hin | Hout].
           ++ rewrite lookup_app_l in Hlk by lia. apply (Hlast k' Hk' Hlk).
           ++ rewrite lookup_app_r in Hlk by lia.
              destruct (k' - length l)%nat; simpl in Hlk; [| discriminate Hlk].
              injection Hlk as Hlk. contradiction.
      * apply Hmap in Hlook as (k & Hk & Htk & Hfk & Hlast).
        assert (Hklt : (k < length l)%nat) by (eapply lookup_lt_Some; eassumption).
        exists k. split; [rewrite lookup_app_l by lia; exact Hk |].
        split; [exact Htk |]. split; [exact Hfk |].
        intros k' Hk' Hlk.
        destruct (decide (k' < length l)%nat) as [Hin | Hout].
        -- rewrite lookup_app_l in Hlk by lia. apply (Hlast k' Hk' Hlk).
        -- assert (k' = length l) as ->.
           { apply lookup_lt_Some in Hlk. rewrite length_app in Hlk. simpl in Hlk. lia. }
           apply Z.eqb_neq in Ht. exact Ht.
    + intros (k & Hk & Htk & Hfk & Hlast).
      destruct (decide (k < length l)%nat) as [Hin | Hout].
      * rewrite lookup_app_l in Hk by lia.
        assert (Hold : PDF.objectOffsets s1 !! obj = Some off).
        { apply Hmap. exists k. split; [exact Hk |]. split; [exact Htk |].
          split; [exact Hfk |].
          intros k' Hk' Hlk. apply (Hlast k' Hk').
          rewrite lookup_app_l; [exact Hlk |]. eapply lookup_lt_Some; eassumption. }
        destruct (decoder_record_type w data (length l) =? 1) eqn:Ht; [| exact Hold].
        apply Z.eqb_eq in Ht.
        destruct (decide (x = obj)) as [-> | Hne].
        -- exfalso. apply (Hlast (length l)); [lia | | exact Ht].
           apply list_lookup_middle. reflexivity.
        -- rewrite lookup_insert_ne by assumption. exact Hold.
      * assert (k = length l) as ->.
        { apply lookup_lt_Some in Hk. rewrite length_app in Hk. simpl in Hk. lia. }
        rewrite list_lookup_middle in Hk by reflexivity. injection Hk as ->.
        rewrite Htk. simpl. rewrite Hfk in Hf1. injection Hf1 as <-.
        apply lookup_insert_eq.
Qed.

(** On records that lie within the data, the decoder reads the type 1
    where the bytes of the type field spell 1, for the type widths 1, 2 and
    4, and it reads as first field the number that its bytes spell, for
    widths up to 4. *)
Lemma record_within_data (w : PDF.widths) (data : list Byte.byte) (k n : nat) :
  (k < n)%nat -> (n * PDF.entry_size w <= length data)%nat ->
  (k * PDF.entry_size w + PDF.entry_size w <= length data)%nat.
Proof.
  intros Hk Hlen.
  assert (Hmul : (S k * PDF.entry_size w <= n * PDF.entry_size w)%nat)
    by (apply Nat.mul_le_mono_r; lia).
  simpl in Hmul. lia.
Qed.

Lemma record_type_read (w : PDF.widths) (data : list Byte.byte) (k n : nat) :
  (PDF.typeWidth w = 1 \/ PDF.typeWidth w = 2 \/ PDF.typeWidth w = 4)%nat ->
  (k < n)%nat -> (n * PDF.entry_size w <= length data)%nat ->
  decoder_record_type w data k = 1 <-> xref_record_type w data k = 1.
Proof.
  intros Hwidth Hk Hlen. pose proof (record_within_data w data k n Hk Hlen) as Hin.
  unfold decoder_record_type, xref_record_type, xref_record.
  unfold PDF.entry_size in *.
  rewrite take_take.
  replace (PDF.typeWidth w `min` (PDF.typeWidth w + PDF.field1Width w + PDF.field2Width w))%nat
    with (PDF.typeWidth w) by lia.
  apply read_type_one; [exact Hwidth | lia].
Qed.

Lemma record_field1_read (w : PDF.widths) (data : list Byte.byte) (k n : nat) :
  (PDF.field1Width w <= 4)%nat ->
  (k < n)%nat -> (n * PDF.entry_size w <= length data)%nat ->
  decoder_record_field1 w data k = Some (xref_record_field1 w data k).
Proof.
  intros Hwidth Hk Hlen. pose proof (record_within_data w data k n Hk Hlen) as Hin.
  unfold decoder_record_field1, xref_record_field1, xref_record.
  unfold PDF.entry_size in *.
  replace (PDF.typeWidth w + PDF.field1Width w + PDF.field2Width w)%nat
    with (PDF.typeWidth w + (PDF.field1Width w + PDF.field2Width w))%nat by lia.
  rewrite <- take_drop_commute, take_take, drop_drop.
  replace (PDF.field1Width w `min` (PDF.field1Width w + PDF.field2Width w))%nat
    with (PDF.field1Width w) by lia.
  apply read_field_spelled; [exact Hwidth | lia].
Qed.

Lemma last_in_use_read (w : PDF.widths) (data : list Byte.byte) (objs : list Z)
    (obj off : Z) :
  (PDF.typeWidth w = 1 \/ PDF.typeWidth w = 2 \/ PDF.typeWidth w = 4)%nat ->
  (PDF.field1Width w <= 4)%nat ->
  (length objs * PDF.entry_size w <= length data)%nat ->
  last_read_in_use w data objs obj off <-> last_in_use w data objs obj off.
Proof.
  intros Htype Hfield Hlen.
  assert (Hrecord : forall (k : nat) (o : Z), objs !! k = Some o ->
            (decoder_record_type w data k = 1 <-> xref_record_type w data k = 1)
            /\ decoder_record_field1 w data k = Some (xref_record_field1 w data k)).
  { intros k o Hk. apply lookup_lt_Some in Hk. split.
    - apply (record_type_read w data k (length objs)); assumption.
    - apply (record_field1_read w data k (length objs)); assumption. }
  split; intros (k & Hk & Htk & Hfk & Hlast); exists k;
    destruct (Hrecord k obj Hk) as [Ht Hf].
  - split; [exact Hk |]. split; [apply Ht; exact Htk |].
    split; [rewrite Hf in Hfk; injection Hfk as Hfk; exact Hfk |].
    intros k' Hk' Hlk Hone. apply (Hlast k' Hk' Hlk).
    apply (Hrecord k' obj Hlk). exact Hone.
  - split; [exact Hk |]. split; [apply Ht; exact Htk |].
    split; [rewrite Hf, Hfk; reflexivity |].
    intros k' Hk' Hlk Hone. apply (Hlast k' Hk' Hlk).
    apply (Hrecord k' obj Hlk). exact Hone.
Qed.

(** C9, as stated for all field widths, fails. A field wider than four
    bytes is not read: the decoder has readers for one to four bytes and
    keeps the fields in 32 bits. With W [1 5 1] a record of type 1 whose
    first field spells 15 is entered with offset 0, and with W [5 2 1] a
    record whose type field spells 1 is entered as free. *)
Lemma xref_wide_fields_are_not_read :
  (PDF.decode_xref_stream wide_field_widths wide_field_bytes [(0, 1)] = Some {[0 := 0]}
   /\ xref_record_type wide_field_widths wide_field_bytes 0 = 1
   /\ xref_record_field1 wide_field_widths wide_field_bytes 0 = 15)
  /\ (PDF.decode_xref_stream wide_type_widths wide_type_bytes [(0, 1)] = Some ∅
      /\ xref_record_type wide_type_widths wide_type_bytes 0 = 1)
  /\ ~ type_1_records_of_any_width.
Proof.
  assert (Hdec : PDF.decode_xref_stream wide_field_widths wide_field_bytes [(0, 1)]
                 = Some {[0 := 0]}) by (vm_compute; reflexivity).
  split; [split; [exact Hdec | split; reflexivity] |].
  split; [split; [vm_compute; reflexivity | reflexivity] |].
  intros Hclaim.
  specialize (Hclaim wide_field_widths wide_field_bytes [(0, 1)] {[0 := 0]} eq_refl).
  assert (Hint : Forall (fun obj => in_int obj = true) (xref_objects [(0, 1)]))
    by (repeat constructor).
  destruct (proj1 (Hclaim Hint Hdec 0 0) eq_refl) as (k & Hk & _ & Hfield & _).
  destruct k as [| k].
  - vm_compute in Hfield. discriminate Hfield.
  - cbv in Hk. discriminate Hk.
Qed.

(** C9, amended. The decoder of [parseFile] reads the records of a
    decompressed xref stream one after the other, for the object numbers
    of the Index ranges in order. For a type field of 1, 2 or 4 bytes and a
    first field of at most 4 bytes, on data that holds all the declared
    records, and with declared object numbers that are [int]s, the decoder
    returns, and its map sends an object number to an offset exactly when
    the last record of type 1 for that object spells the offset in its
    first field: records of type 1 contribute [(obj_num, field1)], records
    of type 0 (free), of type 2 (compressed) and of any other type
    contribute nothing. Type and first field are the big-endian numbers
    that the bytes of the record spell. On the input of scenario E6 the map
    is {1 -> 0x0F, 2 -> 0x5C} and object 0 has no entry. *)
Theorem xref_stream_type_1_records (w : PDF.widths) (data : list Byte.byte)
    (index : list (Z * Z)) :
  (PDF.typeWidth w = 1 \/ PDF.typeWidth w = 2 \/ PDF.typeWidth w = 4)%nat ->
  (PDF.field1Width w <= 4)%nat ->
  (length (xref_objects index) * PDF.entry_size w <= length data)%nat ->
  Forall (fun obj => in_int obj = true) (xref_objects index) ->
  exists m : gmap Z Z,
    PDF.decode_xref_stream w data index = Some m
    /\ (forall obj off : Z,
          m !! obj = Some off <-> last_in_use w data (xref_objects index) obj off)
    /\ (w = PDF.E6_widths -> data = PDF.E6_bytes -> index = PDF.E6_index ->
        m = {[1 := 15; 2 := 92]} /\ m !! 0 = None).
Proof.
  intros Htype Hfield Hlen Hint.
  destruct (decode_objects_returns w data (xref_objects index) (PDF.mkDecoder ∅ 0))
    as [s' Hs']; [right; simpl; exact Hlen |].
  assert (Hdec : PDF.decode_xref_stream w data index = Some (PDF.objectOffsets s')).
  { unfold PDF.decode_xref_stream. rewrite decode_index_objects by exact Hint.
    rewrite Hs'. reflexivity. }
  exists (PDF.objectOffsets s'). split; [exact Hdec |]. split.
  - intros obj off.
    rewrite (proj2 (decode_objects_spec w data (xref_objects index) s' Hs') obj off).
    apply last_in_use_read; assumption.
  - intros -> -> ->.
    assert (Hm : Some (PDF.objectOffsets s') = Some ({[1 := 15; 2 := 92]} : gmap Z Z))
      by (rewrite <- Hdec; vm_compute; reflexivity).
    injection Hm as ->. split; [reflexivity |]. vm_compute. reflexivity.
Qed.

Lemma xref_stream_E6 :
  PDF.decode_xref_stream PDF.E6_widths PDF.E6_bytes PDF.E6_index
  = Some {[1 := 15; 2 := 92]}
  /\ ({[1 := 15; 2 := 92]} : gmap Z Z) !! 0 = None.
Proof.
  destruct (xref_stream_type_1_records PDF.E6_widths PDF.E6_bytes PDF.E6_index)
    as (m & Hdec & _ & HE6).
  - left. reflexivity.
  - simpl. lia.
  - simpl. lia.
  - repeat constructor.
  - destruct (HE6 eq_refl eq_refl eq_refl) as [Hm Hfree]. subst m.
    split; [exact Hdec | exact Hfree].
Defined.

(** The unused helper [parseXRefStreamData] reads the same records with its
    type codes shifted by one; on the input of E6 it yields the empty map. *)
Lemma parseXRefStreamData_E6 :
  PDF.parseXRefStreamData PDF.E6_widths PDF.E6_bytes PDF.E6_index = Some ∅.
Proof. vm_compute. reflexivity. Qed.

(** ** The graphics stack of a running interpreter *)

Lemma bind_Done {A B : Type} (m : outcome A) (k : A -> outcome B) (b : B) :
  (m ≫= k) = Done b -> exists a : A, m = Done a /\ k a = Done b.
Proof.
  destruct m as [a | w |]; simpl; intros Hb; try discriminate Hb.
  exists a. split; [reflexivity | exact Hb].
Qed.

(** Stack and store primitives leave the graphics stack alone. *)
Lemma graphics_push_new (o : PSObject) (st : PSInterpreter) :
  graphicsStack_ (Operators.push_new o st) = graphicsStack_ st.
Proof. reflexivity. Qed.

Lemma graphics_push (p : PSObjectPtr) (st : PSInterpreter) :
  graphicsStack_ (PSStack.push p st) = graphicsStack_ st.
Proof. reflexivity. Qed.

Lemma graphics_assign (p : PSObjectPtr) (o : PSObject) (st : PSInterpreter) :
  graphicsStack_ (assign p o st) = graphicsStack_ st.
Proof. reflexivity. Qed.

Lemma graphics_with_heap (h : list PSObject) (st : PSInterpreter) :
  graphicsStack_ (with_heap h st) = graphicsStack_ st.
Proof. reflexivity. Qed.

Lemma graphics_with_stack (s : list PSObjectPtr) (st : PSInterpreter) :
  graphicsStack_ (with_stack s st) = graphicsStack_ st.
Proof. reflexivity. Qed.

Lemma graphics_clear (st : PSInterpreter) :
  graphicsStack_ (PSStack.clear st) = graphicsStack_ st.
Proof. reflexivity. Qed.

Lemma graphics_push_all (elements : list PSObjectPtr) (st : PSInterpreter) :
  graphicsStack_ (Operators.push_all elements st) = graphicsStack_ st.
Proof. rewrite push_all_stack. reflexivity. Qed.

Lemma graphics_pop (st st1 : PSInterpreter) (p : PSObjectPtr) :
  PSStack.pop st = Done (p, st1) -> graphicsStack_ st1 = graphicsStack_ st.
Proof.
  unfold PSStack.pop. destruct (stack_ st); intros Hpop; [discriminate Hpop |].
  injection Hpop as _ <-. reflexivity.
Qed.

Lemma graphics_pop_obj (st st1 : PSInterpreter) (p : PSObjectPtr) (o : PSObject) :
  Operators.pop_obj st = Done (p, o, st1) -> graphicsStack_ st1 = graphicsStack_ st.
Proof.
  unfold Operators.pop_obj. intros Hpop.
  apply bind_Done in Hpop as ([q st2] & Hq & Hpop).
  apply bind_Done in Hpop as (o' & _ & Hpop).
  injection Hpop as _ _ <-. apply (graphics_pop _ _ _ Hq).
Qed.

Lemma graphics_dup (st st1 : PSInterpreter) :
  PSStack.dup st = Done st1 -> graphicsStack_ st1 = graphicsStack_ st.
Proof.
  unfold PSStack.dup. destruct (stack_ st); intros Hdup; [discriminate Hdup |].
  apply bind_Done in Hdup as (o & _ & Hdup). injection Hdup as <-. reflexivity.
Qed.

Lemma graphics_exch (st st1 : PSInterpreter) :
  PSStack.exch st = Done st1 -> graphicsStack_ st1 = graphicsStack_ st.
Proof.
  unfold PSStack.exch. destruct (stack_ st) as [| a [| b rest]]; intros Hx;
    try discriminate Hx.
  injection Hx as <-. reflexivity.
Qed.

Lemma graphics_set_current (gs : GraphicsState) (st : PSInterpreter) :
  graphicsStack_ (Operators.setCurrentGraphicsState gs st) <> [].
Proof. discriminate. Qed.

(** Take a successful run apart, bind by bind and test by test. *)
Ltac split_run H :=
  first
    [ discriminate H
    | lazymatch type of H with
      | mbind _ _ = Done _ =>
          let a := fresh "a" in
          let Ha := fresh "Hstep" in
          apply bind_Done in H as (a & Ha & H);
          repeat match goal with
                 | x : (_ * _)%type |- _ => destruct x
                 end;
          cbv beta iota in H;
          split_run Ha; split_run H
      | (if ?c then _ else _) = Done _ => destruct c eqn:?; split_run H
      | match ?x with _ => _ end = Done _ => destruct x eqn:?; split_run H
      | Done _ = Done ?v => first [is_var v; injection H as <- | idtac]
      | _ => idtac
      end ].

(** Carry the graphics stack back over the steps taken. *)
Ltac carry_back :=
  match goal with
  | |- context [graphicsStack_ (Operators.push_new _ _)] => rewrite graphics_push_new
  | |- context [graphicsStack_ (PSStack.push _ _)] => rewrite graphics_push
  | |- context [graphicsStack_ (assign _ _ _)] => rewrite graphics_assign
  | |- context [graphicsStack_ (with_heap _ _)] => rewrite graphics_with_heap
  | |- context [graphicsStack_ (with_stack _ _)] => rewrite graphics_with_stack
  | |- context [graphicsStack_ (PSStack.clear _)] => rewrite graphics_clear
  | |- context [graphicsStack_ (Operators.push_all _ _)] => rewrite graphics_push_all
  | Hs : Operators.pop_obj _ = Done (_, _, ?st1) |- context [graphicsStack_ ?st1] =>
      rewrite (graphics_pop_obj _ _ _ _ Hs)
  | Hs : PSStack.pop _ = Done (_, ?st1) |- context [graphicsStack_ ?st1] =>
      rewrite (graphics_pop _ _ _ Hs)
  | Hs : PSStack.dup _ = Done ?st1 |- context [graphicsStack_ ?st1] =>
      rewrite (graphics_dup _ _ Hs)
  | Hs : PSStack.exch _ = Done ?st1 |- context [graphicsStack_ ?st1] =>
      rewrite (graphics_exch _ _ Hs)
  end.

Ltac settle :=
  repeat carry_back;
  first [ assumption | apply graphics_set_current | discriminate ].

Ltac keeps_plain :=
  let st := fresh "st" in
  let st' := fresh "st'" in
  let Hrun := fresh "Hrun" in
  let Hg := fresh "Hg" in
  intros st st' Hrun Hg;
  cbv beta iota zeta delta
    [plain Operators.add Operators.sub Operators.mul Operators.div
     Operators.binary_arith Operators.dup Operators.pop Operators.exch
     Operators.clear Operators.stack Operators.show Operators.eq Operators.ne
     Operators.lt Operators.le Operators.gt Operators.ge Operators.binary_compare
     Operators.array Operators.get Operators.put Operators.length Operators.aload
     Operators.dict Operators.def Operators.load Operators.store Operators.known
     Operators.keys
     Operators.moveto Operators.lineto Operators.point_operator
     Operators.closepath Operators.stroke Operators.fill Operators.newpath
     Operators.clear_path Operators.gsave Operators.translate Operators.scale
     Operators.rotate Operators.setrgbcolor Operators.setlinewidth
     Operators.showpage] in Hrun;
  split_run Hrun;
  settle.

(** The loops of the control operators keep the graphics stack non-empty
    when the executor they call does. *)

Lemma run_tokens_keeps (exec : executor) (proc : list string) :
  executor_keeps_graphics exec -> keeps_graphics (Operators.run_tokens exec proc).
Proof.
  intros Hexec. induction proc as [| token proc IH]; intros st st' Hrun Hg; simpl in Hrun.
  - injection Hrun as <-. exact Hg.
  - apply bind_Done in Hrun as (st1 & Htoken & Hrun).
    apply (IH st1 st' Hrun). apply (Hexec token st st1 Htoken Hg).
Qed.

Lemma forall_loop_keeps (exec : executor) (elements : list PSObjectPtr)
    (proc : list string) :
  executor_keeps_graphics exec ->
  keeps_graphics (Operators.forall_loop exec elements proc).
Proof.
  intros Hexec. induction elements as [| element elements IH];
    intros st st' Hrun Hg; simpl in Hrun.
  - injection Hrun as <-. exact Hg.
  - apply bind_Done in Hrun as (st1 & Hbody & Hrun).
    apply (IH st1 st' Hrun).
    apply (run_tokens_keeps exec proc Hexec _ _ Hbody). exact Hg.
Qed.

Lemma repeat_loop_keeps (exec : executor) (count : nat) (proc : list string) :
  executor_keeps_graphics exec ->
  keeps_graphics (Operators.repeat_loop exec count proc).
Proof.
  intros Hexec. induction count as [| count IH]; intros st st' Hrun Hg; simpl in Hrun.
  - injection Hrun as <-. exact Hg.
  - apply bind_Done in Hrun as (st1 & Hbody & Hrun).
    apply (IH st1 st' Hrun).
    apply (run_tokens_keeps exec proc Hexec _ _ Hbody Hg).
Qed.

Lemma for_loop_keeps (exec : executor) (n : nat) (increment : Z) (proc : list string) :
  executor_keeps_graphics exec ->
  forall i : Z, keeps_graphics (Operators.for_loop exec n i increment proc).
Proof.
  intros Hexec. induction n as [| n IH]; intros i st st' Hrun Hg; simpl in Hrun.
  - injection Hrun as <-. exact Hg.
  - apply bind_Done in Hrun as (st1 & Hbody & Hrun).
    apply (IH _ st1 st' Hrun).
    apply (run_tokens_keeps exec proc Hexec _ _ Hbody). exact Hg.
Qed.

Lemma astore_loop_keeps (i : nat) (arrayPtr : PSObjectPtr) :
  keeps_graphics (Operators.astore_loop i arrayPtr).
Proof.
  induction i as [| i IH]; intros st st' Hrun Hg; simpl in Hrun.
  - injection Hrun as <-. exact Hg.
  - split_run Hrun. apply (IH _ st' Hrun). settle.
Qed.

Lemma astore_keeps : keeps_graphics Operators.astore.
Proof.
  intros st st' Hrun Hg. unfold Operators.astore in Hrun. split_run Hrun.
  rewrite graphics_push.
  eapply astore_loop_keeps; [eassumption |]. settle.
Qed.

Lemma grestore_keeps : keeps_graphics Operators.grestore.
Proof.
  intros st st' Hrun Hg. unfold Operators.grestore in Hrun.
  destruct (decide _) as [| Hlong]; [discriminate Hrun |].
  injection Hrun as <-. simpl.
  destruct (graphicsStack_ st) as [| g1 [| g2 rest]]; simpl in *; [lia | lia | discriminate].
Qed.

(** After the pops and checks of a control operator, what is left of a
    successful run is one of the loops above. *)
Ltac keeps_control Hexec :=
  let st := fresh "st" in
  let st' := fresh "st'" in
  let Hrun := fresh "Hrun" in
  let Hg := fresh "Hg" in
  intros st st' Hrun Hg;
  cbv beta iota zeta delta
    [Operators.exec Operators.forall_ Operators.if_ Operators.ifelse
     Operators.repeat Operators.for_] in Hrun;
  split_run Hrun;
  try (first [ eapply (run_tokens_keeps _ _ Hexec); [eassumption |]
             | eapply (forall_loop_keeps _ _ _ Hexec); [eassumption |]
             | eapply (repeat_loop_keeps _ _ _ Hexec); [eassumption |]
             | eapply (for_loop_keeps _ _ _ _ Hexec); [eassumption |] ]);
  settle.

Section GraphicsStack.
Context `{LibC}.

Lemma registered_keep_graphics :
  Forall (fun entry => operator_keeps_graphics entry.2) registrations.
Proof.
  unfold registrations.
  repeat (constructor;
          [ intros exec Hexec; simpl;
            first [ apply astore_keeps
                  | apply grestore_keeps
                  | keeps_plain
                  | keeps_control Hexec ] |]).
  constructor.
Qed.

(** Executing a token never empties the graphics stack. *)
Lemma executeToken_keeps (fuel : nat) : executor_keeps_graphics (executeToken fuel).
Proof.
  induction fuel as [| fuel IH]; intros token st st' Hrun Hg.
  - discriminate Hrun.
  - rewrite executeToken_step in Hrun.
    destruct (bool_decide (token = "")); [injection Hrun as <-; exact Hg |].
    destruct (getOperator token) as [op |] eqn:Hop.
    + apply getOperator_registered in Hop.
      pose proof (proj1 (Forall_forall _ _) registered_keep_graphics _ Hop) as Hkeeps.
      apply (Hkeeps (executeToken fuel) IH st st' Hrun Hg).
    + destruct ((1 <? slen token) && is_char (first_char token) "/"%char)%bool.
      * injection Hrun as <-. exact Hg.
      * apply bind_Done in Hrun as (found & _ & Hrun).
        destruct found as [procedure |].
        -- apply (run_tokens_keeps _ procedure IH st st' Hrun Hg).
        -- unfold execute_number_or_literal, execute_literal in Hrun.
           split_run Hrun; settle.
Qed.

Lemma reachable_run (fuel : nat) (proc : list string) :
  forall st st' : PSInterpreter,
    reachable st -> Operators.run_tokens (executeToken fuel) proc st = Done st' ->
    reachable st'.
Proof.
  induction proc as [| token proc IH]; intros st st' Hreach Hrun; simpl in Hrun.
  - injection Hrun as <-. exact Hreach.
  - apply bind_Done in Hrun as (st1 & Htoken & Hrun).
    apply (IH st1 st'); [| exact Hrun].
    apply (reachable_token st st1 fuel token Hreach Htoken).
Qed.

Lemma reachable_graphics (st : PSInterpreter) :
  reachable st -> graphicsStack_ st <> [].
Proof.
  induction 1 as [h | st st' fuel token _ IH Hrun].
  - discriminate.
  - apply (executeToken_keeps fuel token st st' Hrun IH).
Qed.

(** [gsave] then [grestore] on a non-empty graphics stack. *)
Lemma gsave_grestore (st : PSInterpreter) (gs : GraphicsState)
    (rest : list GraphicsState) :
  graphicsStack_ st = gs :: rest ->
  Operators.gsave st = Done (with_graphics (gs :: gs :: rest) st)
  /\ Operators.grestore (with_graphics (gs :: gs :: rest) st) = Done st.
Proof.
  intros Hgs. split.
  - unfold Operators.gsave, Operators.getCurrentGraphicsState.
    rewrite Hgs. reflexivity.
  - unfold Operators.grestore.
    case_decide as Hshort; [simpl in Hshort; lia |].
    destruct st; simpl in *; subst; reflexivity.
Qed.

(** C8. In every state that a running interpreter reaches, [gsave] pushes
    a copy of the current graphics state (current point, path, CTM, color
    and line width) on the graphics stack, [grestore] right after it drops
    that copy, and the interpreter is back in the state it was in: the same
    current graphics state, the same graphics-stack depth, and everything
    else untouched. *)
Theorem gsave_grestore_round_trip (st : PSInterpreter) :
  reachable st ->
  exists (gs : GraphicsState) (rest : list GraphicsState),
    graphicsStack_ st = gs :: rest
    /\ Operators.gsave st = Done (with_graphics (gs :: gs :: rest) st)
    /\ Operators.grestore (with_graphics (gs :: gs :: rest) st) = Done st
    /\ (Operators.gsave st ≫= Operators.grestore) = Done st.
Proof.
  intros Hreach. apply reachable_graphics in Hreach.
  destruct (graphicsStack_ st) as [| gs rest] eqn:Hgs; [contradiction |].
  exists gs, rest.
  destruct (gsave_grestore st gs rest Hgs) as [Hsave Hrestore].
  repeat split; try assumption.
  rewrite Hsave. exact Hrestore.
Qed.

End GraphicsStack.

Lemma after_moveto_reachable : @reachable unused_libc after_moveto.
Proof.
  apply (@reachable_run unused_libc 1 ["10"; "20"; "moveto"] (new_interpreter [])).
  - apply reachable_new.
  - vm_compute. reflexivity.
Defined.

Lemma gsave_grestore_after_moveto :
  (Operators.gsave after_moveto ≫= Operators.grestore) = Done after_moveto.
Proof.
  destruct (@gsave_grestore_round_trip unused_libc after_moveto after_moveto_reachable)
    as (gs & rest & _ & _ & _ & Hround).
  exact Hround.
Defined.

(** * Further properties

    Properties of the code beyond the ones above: stack effects and
    underflow of the operators, arrays and dictionaries, control flow, the
    lexer, literal tokens, invariants of the store, printing and reading
    back, content streams, saved graphics states and xref-stream fields. *)

(** ** Stack effects of the operators *)

Lemma stack_pop (st st1 : PSInterpreter) (p : PSObjectPtr) :
  PSStack.pop st = Done (p, st1) -> stack_ st = p :: stack_ st1.
Proof.
  unfold PSStack.pop. destruct (stack_ st) as [| top rest]; intros Hpop;
    [discriminate Hpop |].
  injection Hpop as -> <-. reflexivity.
Qed.

Lemma stack_pop_obj (st st1 : PSInterpreter) (p : PSObjectPtr) (o : PSObject) :
  Operators.pop_obj st = Done (p, o, st1) -> stack_ st = p :: stack_ st1.
Proof.
  unfold Operators.pop_obj. intros Hpop.
  apply bind_Done in Hpop as ([q st2] & Hq & Hpop).
  apply bind_Done in Hpop as (o' & _ & Hpop).
  injection Hpop as -> _ <-. apply (stack_pop _ _ _ Hq).
Qed.

Lemma stack_push_new (o : PSObject) (st : PSInterpreter) :
  stack_ (Operators.push_new o st) = length (heap st) :: stack_ st.
Proof. reflexivity. Qed.

Lemma stack_push (p : PSObjectPtr) (st : PSInterpreter) :
  stack_ (PSStack.push p st) = p :: stack_ st.
Proof. reflexivity. Qed.

Lemma stack_assign (p : PSObjectPtr) (o : PSObject) (st : PSInterpreter) :
  stack_ (assign p o st) = stack_ st.
Proof. reflexivity. Qed.

Lemma stack_with_heap (h : list PSObject) (st : PSInterpreter) :
  stack_ (with_heap h st) = stack_ st.
Proof. reflexivity. Qed.

Lemma stack_with_graphics (gs : list GraphicsState) (st : PSInterpreter) :
  stack_ (with_graphics gs st) = stack_ st.
Proof. reflexivity. Qed.

Lemma stack_set_current (gs : GraphicsState) (st : PSInterpreter) :
  stack_ (Operators.setCurrentGraphicsState gs st) = stack_ st.
Proof. reflexivity. Qed.

(** Express the stack before and after in terms of the stack that is left
    once the operands are popped. *)
Ltac stack_facts :=
  repeat match goal with
         | Hs : Operators.pop_obj _ = Done (_, _, _) |- _ => apply stack_pop_obj in Hs
         | Hs : PSStack.pop _ = Done (_, _) |- _ => apply stack_pop in Hs
         end;
  repeat first
    [ rewrite stack_push_new | rewrite stack_push | rewrite stack_assign
    | rewrite stack_with_heap | rewrite stack_with_graphics
    | rewrite stack_set_current ];
  repeat match goal with
         | Hs : stack_ ?s = _ :: _ |- context [stack_ ?s] => rewrite Hs
         end.

Ltac effect_plain :=
  let st := fresh "st" in
  let st' := fresh "st'" in
  let Hrun := fresh "Hrun" in
  intros st st' Hrun;
  cbv beta iota zeta delta
    [Operators.add Operators.sub Operators.mul Operators.div
     Operators.binary_arith Operators.pop
     Operators.stack Operators.show Operators.eq Operators.ne
     Operators.lt Operators.le Operators.gt Operators.ge Operators.binary_compare
     Operators.array Operators.get Operators.put Operators.length
     Operators.dict Operators.def Operators.load Operators.store Operators.known
     Operators.keys
     Operators.moveto Operators.lineto Operators.point_operator
     Operators.closepath Operators.stroke Operators.fill Operators.newpath
     Operators.clear_path Operators.gsave Operators.grestore Operators.translate
     Operators.scale Operators.rotate Operators.setrgbcolor Operators.setlinewidth
     Operators.showpage] in Hrun;
  split_run Hrun;
  stack_facts;
  simpl; repeat split; first [reflexivity | lia].

Lemma dup_effect : stack_effect 1 2 Operators.dup.
Proof.
  intros st st' Hrun. unfold Operators.dup, PSStack.dup in Hrun.
  destruct (stack_ st) as [| top rest] eqn:Hs; [discriminate Hrun |].
  apply bind_Done in Hrun as (o & _ & Hrun). injection Hrun as <-.
  simpl. rewrite Hs. simpl. repeat split; first [reflexivity | lia].
Qed.

Lemma exch_effect : stack_effect 2 2 Operators.exch.
Proof.
  intros st st' Hrun. unfold Operators.exch, PSStack.exch in Hrun.
  destruct (stack_ st) as [| a [| b rest]] eqn:Hs; try discriminate Hrun.
  injection Hrun as <-. simpl. repeat split; first [reflexivity | lia].
Qed.

Lemma ne_effect : stack_effect 2 1 Operators.ne.
Proof.
  intros st st' Hrun. unfold Operators.ne, Operators.eq in Hrun.
  split_run Hrun.
  match goal with
  | Hs : Operators.pop_obj (Operators.push_new _ ?s) = Done (_, _, ?s1) |- _ =>
      apply stack_pop_obj in Hs; rewrite stack_push_new in Hs;
      injection Hs as _ Hs
  end.
  stack_facts. simpl.
  match goal with Hs : stack_ _ = stack_ _ |- _ => rewrite Hs end.
  repeat split; first [reflexivity | lia].
Qed.

Section ArityProofs.
Context `{LibC}.

(** X1. Every operator of fixed arity, when it succeeds, has popped exactly
    its operands and pushed exactly its results: [add], [sub], [mul], [div]
    and the comparisons take two and give one; [put] takes three and gives
    the array back; [def] and [store] give nothing; the path, paint and
    graphics-state operators push nothing; and in each case the entries
    below the operands are the same before and after. *)
Theorem operators_stack_effect :
  Forall (fun entry => stack_effect entry.1.1 entry.1.2 entry.2) fixed_arity.
Proof.
  unfold fixed_arity.
  repeat (constructor;
          [ simpl; first [ apply dup_effect | apply exch_effect | apply ne_effect
                         | effect_plain ] |]).
  constructor.
Qed.

End ArityProofs.

Ltac underflow_plain :=
  let st := fresh "st" in
  let Hlen := fresh "Hlen" in
  intros st Hlen;
  first
    [ exfalso; lia
    | cbv beta iota zeta delta
        [Operators.add Operators.sub Operators.mul Operators.div
         Operators.binary_arith
         Operators.show Operators.eq Operators.ne
         Operators.lt Operators.le Operators.gt Operators.ge Operators.binary_compare
         Operators.array Operators.get Operators.put Operators.length
         Operators.dict Operators.def Operators.load Operators.store Operators.known
         Operators.keys
         Operators.moveto Operators.lineto Operators.point_operator
         Operators.translate
         Operators.scale Operators.rotate Operators.setrgbcolor Operators.setlinewidth];
      rewrite need_short by exact Hlen; eexists; reflexivity
    | unfold Operators.dup, Operators.pop, Operators.exch,
        PSStack.dup, PSStack.pop, PSStack.exch;
      destruct (stack_ st) as [| a [| b rest]]; simpl in Hlen;
      first [ exfalso; lia | eexists; reflexivity ] ].

Section UnderflowProofs.
Context `{LibC}.

(** X2. Run on a stack with fewer entries than it has operands, each of the
    operators of fixed arity throws; none of them returns normally. *)
Theorem operators_underflow :
  Forall (fun entry => underflows entry.1.1 entry.2) fixed_arity.
Proof.
  unfold fixed_arity.
  repeat (constructor; [ simpl; underflow_plain |]).
  constructor.
Qed.

End UnderflowProofs.

(** ** Arrays *)

Lemma get_reads (st : PSInterpreter) (indexPtr arrayPtr element : PSObjectPtr)
    (index : Z) (elems rest : list PSObjectPtr) :
  stack_ st = indexPtr :: arrayPtr :: rest ->
  heap st !! indexPtr = Some (PSInteger index) ->
  heap st !! arrayPtr = Some (PSArray elems) ->
  0 <= index ->
  elems !! Z.to_nat index = Some element ->
  Operators.get st = Done (with_stack (element :: rest) st).
Proof.
  intros Hs Hi Ha Hnonneg He. unfold Operators.get.
  rewrite need_enough by (rewrite Hs; simpl; lia).
  destruct st as [h s d gs]. simpl in Hs, Hi, Ha. subst s.
  unfold Operators.pop_obj, PSStack.pop, deref. simpl.
  rewrite Hi. simpl. rewrite Ha. simpl.
  assert (Hlt : (Z.to_nat index < length elems)%nat)
    by (eapply lookup_lt_Some; eassumption).
  unfold Operators.out_of_bounds.
  destruct (index <? 0) eqn:Hneg; [apply Z.ltb_lt in Hneg; lia |].
  destruct (Z.of_nat (length elems) <=? index) eqn:Hbig; [apply Z.leb_le in Hbig; lia |].
  simpl. rewrite He. reflexivity.
Qed.

(** X3. [array index value put] writes [value] into the slot, leaves the
    array's handle on the stack, and a [get] of the same index from that
    handle then yields the very handle [value]; [get] changes no object.
    [put] prints the value before the write and the array after it: the
    two prints must return, which they do unless an array or dictionary
    among the objects printed holds itself. *)
Theorem put_then_get (print_double : float -> string) (st : PSInterpreter)
    (value indexPtr arrayPtr : PSObjectPtr) (index : Z) (elems rest : list PSObjectPtr) :
  stack_ st = value :: indexPtr :: arrayPtr :: rest ->
  heap st !! indexPtr = Some (PSInteger index) ->
  heap st !! arrayPtr = Some (PSArray elems) ->
  0 <= index < Z.of_nat (length elems) ->
  prints print_double (heap st) value ->
  prints print_double
    (<[arrayPtr := PSArray (<[Z.to_nat index := value]> elems)]> (heap st)) arrayPtr ->
  exists st1 : PSInterpreter,
    Operators.put st = Done st1
    /\ stack_ st1 = arrayPtr :: rest
    /\ heap st1 = <[arrayPtr := PSArray (<[Z.to_nat index := value]> elems)]> (heap st)
    /\ Operators.get (PSStack.push indexPtr st1) = Done (with_stack (value :: rest) st1).
Proof.
  intros Hs Hi Ha Hrange _ _.
  eexists. split; [apply (put_writes st value indexPtr arrayPtr index elems rest Hs Hi Ha Hrange) |].
  split; [reflexivity |]. split; [reflexivity |].
  assert (Hne : arrayPtr <> indexPtr) by (intros ->; rewrite Hi in Ha; discriminate Ha).
  assert (Halt : (arrayPtr < length (heap st))%nat) by (eapply lookup_lt_Some; eassumption).
  rewrite (get_reads _ indexPtr arrayPtr value index (<[Z.to_nat index := value]> elems) rest).
  - reflexivity.
  - reflexivity.
  - simpl. rewrite list_lookup_insert_ne by assumption. exact Hi.
  - simpl. apply list_lookup_insert_eq. exact Halt.
  - lia.
  - apply list_lookup_insert_eq. lia.
Qed.

(** X4. An index that is negative or not below the array's length makes
    both [get] and [put] throw "Array index out of bounds"; nothing is
    read or written. *)
Theorem index_out_of_bounds (st : PSInterpreter) (value indexPtr arrayPtr : PSObjectPtr)
    (index : Z) (elems rest : list PSObjectPtr) :
  stack_ st = indexPtr :: arrayPtr :: rest ->
  heap st !! indexPtr = Some (PSInteger index) ->
  heap st !! arrayPtr = Some (PSArray elems) ->
  index < 0 \/ Z.of_nat (length elems) <= index ->
  Operators.get st = Throw "Array index out of bounds"
  /\ Operators.put (PSStack.push value st) = Throw "Array index out of bounds".
Proof.
  intros Hs Hi Ha Hout.
  assert (Hoob : Operators.out_of_bounds index (length elems) = true).
  { unfold Operators.out_of_bounds. apply orb_true_iff.
    destruct Hout as [Hneg | Hbig]; [left; apply Z.ltb_lt | right; apply Z.leb_le];
      assumption. }
  destruct st as [h s d gs]. simpl in Hs, Hi, Ha. subst s. split.
  - unfold Operators.get. rewrite need_enough by (simpl; lia).
    unfold Operators.pop_obj, PSStack.pop, deref. simpl.
    rewrite Hi. simpl. rewrite Ha. simpl. rewrite Hoob. reflexivity.
  - unfold Operators.put. rewrite need_enough by (simpl; lia).
    unfold Operators.pop_obj, PSStack.pop, deref. simpl.
    rewrite Hi. simpl. rewrite Ha. simpl. rewrite Hoob. reflexivity.
Qed.

Lemma length_of_array (st : PSInterpreter) (arrayPtr : PSObjectPtr)
    (elems rest : list PSObjectPtr) :
  stack_ st = arrayPtr :: rest ->
  heap st !! arrayPtr = Some (PSArray elems) ->
  Operators.length st
  = Done (Operators.push_new (PSInteger (wrap32 (Z.of_nat (length elems))))
            (with_stack rest st)).
Proof.
  intros Hs Ha. unfold Operators.length.
  rewrite need_enough by (rewrite Hs; simpl; lia). simpl.
  rewrite (pop_obj_cons st arrayPtr (PSArray elems) rest Hs Ha). reflexivity.
Qed.

(** X5. [n array] with [n >= 0] pushes the handle of a new array of [n]
    slots; each slot holds a handle of its own to a new null object, and
    [length] of the array is [n]. A negative [n] is refused. *)
Theorem array_of_nulls (st : PSInterpreter) (sizePtr : PSObjectPtr) (n : Z)
    (rest : list PSObjectPtr) :
  stack_ st = sizePtr :: rest ->
  heap st !! sizePtr = Some (PSInteger n) ->
  in_int n = true ->
  (n < 0 -> Operators.array st = Throw "Array size cannot be negative")
  /\ (0 <= n ->
      exists (st1 : PSInterpreter) (arrayPtr : PSObjectPtr) (elems : list PSObjectPtr),
        Operators.array st = Done st1
        /\ stack_ st1 = arrayPtr :: rest
        /\ heap st1 !! arrayPtr = Some (PSArray elems)
        /\ length elems = Z.to_nat n
        /\ NoDup elems
        /\ (forall p : PSObjectPtr,
              p ∈ elems -> (length (heap st) <= p)%nat /\ heap st1 !! p = Some PSNull)
        /\ Operators.length st1
           = Done (Operators.push_new (PSInteger n) (with_stack rest st1))).
Proof.
  intros Hs Hn Hint.
  destruct st as [h s d gs]. simpl in Hs, Hn. subst s. split.
  - intros Hneg. unfold Operators.array. rewrite need_enough by (simpl; lia).
    unfold Operators.pop_obj, PSStack.pop, deref. simpl. rewrite Hn. simpl.
    destruct (n <? 0) eqn:Hlt; [reflexivity | apply Z.ltb_ge in Hlt; lia].
  - intros Hpos.
    exists (mkPSInterpreter
              (h ++ replicate (Z.to_nat n) PSNull ++ [PSArray (seq (length h) (Z.to_nat n))])
              ((length h + Z.to_nat n)%nat :: rest) d gs),
      (length h + Z.to_nat n)%nat, (seq (length h) (Z.to_nat n)).
    assert (Hhere : (h ++ replicate (Z.to_nat n) PSNull
                       ++ [PSArray (seq (length h) (Z.to_nat n))])%list
                      !! (length h + Z.to_nat n)%nat
                    = Some (PSArray (seq (length h) (Z.to_nat n)))).
    { rewrite lookup_app_r by lia.
      rewrite lookup_app_r by (rewrite length_replicate; lia).
      rewrite length_replicate.
      replace (length h + Z.to_nat n - length h - Z.to_nat n)%nat with 0%nat by lia.
      reflexivity. }
    split; [| split; [reflexivity | split; [exact Hhere | split; [apply length_seq |
            split; [apply NoDup_seq | split]]]]].
    + unfold Operators.array. rewrite need_enough by (simpl; lia).
      unfold Operators.pop_obj, PSStack.pop, deref. simpl. rewrite Hn. simpl.
      destruct (n <? 0) eqn:Hlt; [apply Z.ltb_lt in Hlt; lia |].
      unfold Operators.push_new, make_shared, PSStack.push, with_stack, with_heap. simpl.
      rewrite length_app, length_replicate, <- app_assoc. reflexivity.
    + intros p Hp. apply elem_of_seq in Hp as [Hlo Hhi]. split; [exact Hlo |].
      simpl. rewrite lookup_app_r by lia. rewrite lookup_app_l by (rewrite length_replicate; lia).
      apply lookup_replicate. split; [reflexivity | lia].
    + match goal with
      | |- Operators.length ?s = _ =>
          rewrite (length_of_array s (length h + Z.to_nat n)%nat
                     (seq (length h) (Z.to_nat n)) rest eq_refl Hhere)
      end.
      rewrite length_seq, Z2Nat.id by lia. rewrite wrap32_id by assumption.
      reflexivity.
Qed.

Lemma forall_loop_empty_body (exec : executor) (elements : list PSObjectPtr) :
  forall st : PSInterpreter,
    Operators.forall_loop exec elements [] st = Done (Operators.push_all elements st).
Proof.
  induction elements as [| element elements IH]; intros st; simpl; [reflexivity |].
  apply IH.
Qed.

(** X6. [array { } forall], with a procedure that has no tokens, leaves the
    elements of the array on the stack in order, the last element on top,
    in place of the two operands. *)
Theorem forall_empty_procedure (exec : executor) (st : PSInterpreter)
    (procPtr arrayPtr : PSObjectPtr) (elems rest : list PSObjectPtr) :
  stack_ st = procPtr :: arrayPtr :: rest ->
  heap st !! procPtr = Some (PSProcedure []) ->
  heap st !! arrayPtr = Some (PSArray elems) ->
  Operators.forall_ exec st = Done (with_stack (reverse elems ++ rest) st).
Proof.
  intros Hs Hp Ha. unfold Operators.forall_.
  rewrite need_enough by (rewrite Hs; simpl; lia).
  destruct st as [h s d gs]. simpl in Hs, Hp, Ha. subst s.
  unfold Operators.pop_obj, PSStack.pop, deref. simpl.
  rewrite Hp. simpl. rewrite Ha. simpl.
  rewrite forall_loop_empty_body, push_all_stack. reflexivity.
Qed.

(** ** Dictionaries *)

Lemma current_dictionary_found (st : PSInterpreter) (dictPtr : PSObjectPtr)
    (d : gmap string PSObjectPtr) :
  getCurrentDictionary st = Some dictPtr ->
  heap st !! dictPtr = Some (PSDictionary d) ->
  Operators.current_dictionary st = Done (dictPtr, PSDictionary d).
Proof.
  intros Hcur Hd. unfold Operators.current_dictionary, deref.
  rewrite Hcur, Hd. reflexivity.
Qed.

Lemma def_binds (st : PSInterpreter) (value keyPtr dictPtr : PSObjectPtr)
    (key : string) (d : gmap string PSObjectPtr) (rest : list PSObjectPtr) :
  stack_ st = value :: keyPtr :: rest ->
  heap st !! keyPtr = Some (PSString key) ->
  getCurrentDictionary st = Some dictPtr ->
  heap st !! dictPtr = Some (PSDictionary d) ->
  Operators.def st
  = Done (assign dictPtr (PSDictionary (<[strip_slash key := value]> d))
            (with_stack rest st)).
Proof.
  intros Hs Hk Hcur Hd. unfold Operators.def.
  rewrite need_enough by (rewrite Hs; simpl; lia).
  destruct st as [h s ds gs]. simpl in Hs, Hk, Hd. subst s.
  unfold getCurrentDictionary in Hcur. simpl in Hcur.
  unfold Operators.pop_obj, PSStack.pop, deref, Operators.current_dictionary,
    getCurrentDictionary. simpl.
  rewrite Hk. simpl. rewrite Hcur. unfold deref. simpl. rewrite Hd. reflexivity.
Qed.

Lemma load_finds (st : PSInterpreter) (keyPtr dictPtr : PSObjectPtr) (key : string)
    (d : gmap string PSObjectPtr) (rest : list PSObjectPtr) :
  stack_ st = keyPtr :: rest ->
  heap st !! keyPtr = Some (PSString key) ->
  getCurrentDictionary st = Some dictPtr ->
  heap st !! dictPtr = Some (PSDictionary d) ->
  Operators.load st
  = match d !! strip_slash key with
    | Some value => Done (with_stack (value :: rest) st)
    | None => Throw ("Key not found in dictionary: " +:+ strip_slash key)
    end.
Proof.
  intros Hs Hk Hcur Hd. unfold Operators.load.
  rewrite need_enough by (rewrite Hs; simpl; lia).
  destruct st as [h s ds gs]. simpl in Hs, Hk, Hd. subst s.
  unfold getCurrentDictionary in Hcur. simpl in Hcur.
  unfold Operators.pop_obj, PSStack.pop, deref, Operators.current_dictionary,
    getCurrentDictionary. simpl.
  rewrite Hk. simpl. rewrite Hcur. unfold deref. simpl. rewrite Hd. simpl.
  destruct (d !! strip_slash key) as [value |] eqn:Hlook.
  - rewrite bool_decide_eq_true_2 by (eexists; reflexivity). reflexivity.
  - rewrite bool_decide_eq_false_2; [reflexivity |]. intros [v Hv]. discriminate Hv.
Qed.

(** X7. After [key value def], [load] of that key pushes the very handle
    that was defined, whether or not the key is written with its slash; the
    [load] of any other key gives what it gave before the [def]; and the
    [load] of a key that the current dictionary does not hold throws. *)
Theorem def_then_load (st : PSInterpreter) (value keyPtr otherPtr dictPtr : PSObjectPtr)
    (key other : string) (d : gmap string PSObjectPtr) (rest : list PSObjectPtr) :
  stack_ st = value :: keyPtr :: rest ->
  heap st !! keyPtr = Some (PSString key) ->
  heap st !! otherPtr = Some (PSString other) ->
  getCurrentDictionary st = Some dictPtr ->
  heap st !! dictPtr = Some (PSDictionary d) ->
  exists st1 : PSInterpreter,
    Operators.def st = Done st1
    /\ stack_ st1 = rest
    /\ Operators.load (PSStack.push keyPtr st1) = Done (PSStack.push value st1)
    /\ (strip_slash other = strip_slash key ->
        Operators.load (PSStack.push otherPtr st1) = Done (PSStack.push value st1))
    /\ (strip_slash other <> strip_slash key ->
        Operators.load (PSStack.push otherPtr st1)
        = match d !! strip_slash other with
          | Some v => Done (PSStack.push v st1)
          | None => Throw ("Key not found in dictionary: " +:+ strip_slash other)
          end).
Proof.
  intros Hs Hk Ho Hcur Hd.
  set (d1 := <[strip_slash key := value]> d).
  set (st1 := assign dictPtr (PSDictionary d1) (with_stack rest st)).
  assert (Hdlt : (dictPtr < length (heap st))%nat) by (eapply lookup_lt_Some; eassumption).
  assert (Hd1 : heap st1 !! dictPtr = Some (PSDictionary d1))
    by (simpl; apply list_lookup_insert_eq; exact Hdlt).
  assert (Hk1 : heap st1 !! keyPtr = Some (PSString key)).
  { simpl. rewrite list_lookup_insert_ne; [exact Hk |].
    intros ->. rewrite Hk in Hd. discriminate Hd. }
  assert (Ho1 : heap st1 !! otherPtr = Some (PSString other)).
  { simpl. rewrite list_lookup_insert_ne; [exact Ho |].
    intros ->. rewrite Ho in Hd. discriminate Hd. }
  exists st1. split; [apply (def_binds st value keyPtr dictPtr key d rest Hs Hk Hcur Hd) |].
  split; [reflexivity |]. split; [| split].
  - rewrite (load_finds (PSStack.push keyPtr st1) keyPtr dictPtr key d1 rest
               eq_refl Hk1 Hcur Hd1).
    unfold d1. rewrite lookup_insert_eq. reflexivity.
  - intros Hsame.
    rewrite (load_finds (PSStack.push otherPtr st1) otherPtr dictPtr other d1 rest
               eq_refl Ho1 Hcur Hd1).
    unfold d1. rewrite Hsame, lookup_insert_eq. reflexivity.
  - intros Hdiff.
    rewrite (load_finds (PSStack.push otherPtr st1) otherPtr dictPtr other d1 rest
               eq_refl Ho1 Hcur Hd1).
    unfold d1. rewrite lookup_insert_ne by congruence.
    destruct (d !! strip_slash other); reflexivity.
Qed.

(** X8. [dict key value store] writes into the dictionary object it is
    given, whatever the current dictionary is, and pushes nothing; [known]
    on that dictionary then answers true for the key and, for any other key,
    what it answered before. *)
Theorem store_then_known (st : PSInterpreter) (value keyPtr otherPtr dictPtr : PSObjectPtr)
    (key other : string) (d : gmap string PSObjectPtr) (rest : list PSObjectPtr) :
  stack_ st = value :: keyPtr :: dictPtr :: rest ->
  heap st !! keyPtr = Some (PSString key) ->
  heap st !! otherPtr = Some (PSString other) ->
  heap st !! dictPtr = Some (PSDictionary d) ->
  exists st1 : PSInterpreter,
    Operators.store st = Done st1
    /\ stack_ st1 = rest
    /\ heap st1 !! dictPtr = Some (PSDictionary (<[strip_slash key := value]> d))
    /\ Operators.known (PSStack.push keyPtr (PSStack.push dictPtr st1))
       = Done (Operators.push_new (PSBoolean true) st1)
    /\ (strip_slash other <> strip_slash key ->
        Operators.known (PSStack.push otherPtr (PSStack.push dictPtr st1))
        = Done (Operators.push_new
                  (PSBoolean (bool_decide (is_Some (d !! strip_slash other)))) st1)).
Proof.
  intros Hs Hk Ho Hd.
  set (d1 := <[strip_slash key := value]> d).
  set (st1 := assign dictPtr (PSDictionary d1) (with_stack rest st)).
  assert (Hdlt : (dictPtr < length (heap st))%nat) by (eapply lookup_lt_Some; eassumption).
  assert (Hd1 : heap st1 !! dictPtr = Some (PSDictionary d1))
    by (simpl; apply list_lookup_insert_eq; exact Hdlt).
  assert (Hk1 : heap st1 !! keyPtr = Some (PSString key)).
  { simpl. rewrite list_lookup_insert_ne; [exact Hk |].
    intros ->. rewrite Hk in Hd. discriminate Hd. }
  assert (Ho1 : heap st1 !! otherPtr = Some (PSString other)).
  { simpl. rewrite list_lookup_insert_ne; [exact Ho |].
    intros ->. rewrite Ho in Hd. discriminate Hd. }
  assert (Hknown : forall (p : PSObjectPtr) (k : string),
             heap st1 !! p = Some (PSString k) ->
             Operators.known (PSStack.push p (PSStack.push dictPtr st1))
             = Done (Operators.push_new
                       (PSBoolean (bool_decide (is_Some (d1 !! strip_slash k)))) st1)).
  { intros p k Hp. unfold Operators.known.
    rewrite (pop_two (PSStack.push p (PSStack.push dictPtr st1)) dictPtr p
               (PSDictionary d1) (PSString k) rest _
               (fun dictObj keyObj st2 =>
                  if negb (Operators.is_type DICTIONARY dictObj)
                  then Throw "First operand must be a dictionary"
                  else if negb (Operators.is_type STRING keyObj)
                  then Throw "Key must be a string"
                  else key0 ← asString keyObj;
                       Done (Operators.push_new
                               (PSBoolean (dictHas dictObj (strip_slash key0))) st2))
               eq_refl Hd1 Hp).
    destruct st; reflexivity. }
  exists st1. split.
  - unfold Operators.store.
    rewrite need_enough by (rewrite Hs; simpl; lia).
    clear Hknown Hd1 Hk1 Ho1. subst st1 d1.
    destruct st as [h s ds gs]. simpl in Hs, Hk, Hd. subst s.
    unfold Operators.pop_obj, PSStack.pop, deref. simpl.
    rewrite Hk. simpl. rewrite Hd. reflexivity.
  - split; [reflexivity |]. split; [exact Hd1 |]. split.
    + rewrite (Hknown keyPtr key Hk1). unfold d1. rewrite lookup_insert_eq.
      rewrite bool_decide_eq_true_2 by (eexists; reflexivity). reflexivity.
    + intros Hdiff. rewrite (Hknown otherPtr other Ho1). unfold d1.
      rewrite lookup_insert_ne by congruence. reflexivity.
Qed.

(** ** Control flow *)

Lemma run_tokens_app (exec : executor) (proc1 proc2 : list string) (st : PSInterpreter) :
  Operators.run_tokens exec (proc1 ++ proc2) st
  = Operators.run_tokens exec proc1 st ≫= Operators.run_tokens exec proc2.
Proof.
  revert st. induction proc1 as [| token proc1 IH]; intros st; simpl; [reflexivity |].
  destruct (exec token st) as [st1 | what |]; simpl; [apply IH | reflexivity | reflexivity].
Qed.

Lemma repeat_loop_replicate (exec : executor) (proc : list string) (count : nat) :
  forall st : PSInterpreter,
    Operators.repeat_loop exec count proc st
    = Operators.run_tokens exec (concat (replicate count proc)) st.
Proof.
  induction count as [| count IH]; intros st; simpl; [reflexivity |].
  rewrite run_tokens_app.
  destruct (Operators.run_tokens exec proc st) as [st1 | what |]; simpl;
    [apply IH | reflexivity | reflexivity].
Qed.

(** X9. [count proc repeat] with [count >= 0] is the execution of the
    procedure's tokens [count] times over, one copy after the other, on the
    stack without the two operands; with [count = 0] nothing but the pops
    happens, and a negative count is refused. *)
Theorem repeat_is_replication (exec : executor) (st : PSInterpreter)
    (procPtr countPtr : PSObjectPtr) (proc : list string) (count : Z)
    (rest : list PSObjectPtr) :
  stack_ st = procPtr :: countPtr :: rest ->
  heap st !! procPtr = Some (PSProcedure proc) ->
  heap st !! countPtr = Some (PSInteger count) ->
  (count < 0 -> Operators.repeat exec st = Throw "Repeat count cannot be negative")
  /\ (0 <= count ->
      Operators.repeat exec st
      = Operators.run_tokens exec (concat (replicate (Z.to_nat count) proc))
          (with_stack rest st))
  /\ (count = 0 -> Operators.repeat exec st = Done (with_stack rest st)).
Proof.
  intros Hs Hp Hc.
  assert (Hrun : Operators.repeat exec st
                 = if count <? 0 then Throw "Repeat count cannot be negative"
                   else Operators.repeat_loop exec (Z.to_nat count) proc (with_stack rest st)).
  { unfold Operators.repeat.
    rewrite need_enough by (rewrite Hs; simpl; lia).
    destruct st as [h s d gs]. simpl in Hs, Hp, Hc. subst s.
    unfold Operators.pop_obj, PSStack.pop, deref. simpl.
    rewrite Hp. simpl. rewrite Hc. simpl.
    destruct (count <? 0); reflexivity. }
  rewrite Hrun. split; [| split].
  - intros Hneg. apply Z.ltb_lt in Hneg. rewrite Hneg. reflexivity.
  - intros Hpos. destruct (count <? 0) eqn:Hlt; [apply Z.ltb_lt in Hlt; lia |].
    apply repeat_loop_replicate.
  - intros ->. reflexivity.
Qed.

Lemma for_count_test (start end_ increment : Z) (k : nat) :
  increment <> 0 ->
  (k < Operators.for_count start end_ increment)%nat
  <-> for_test end_ increment (start + Z.of_nat k * increment).
Proof.
  intros Hinc. unfold Operators.for_count, for_test.
  destruct (0 <? increment) eqn:Hpos.
  - apply Z.ltb_lt in Hpos.
    destruct (start <=? end_) eqn:Hle.
    + apply Z.leb_le in Hle.
      pose proof (Z.mul_div_le (end_ - start) increment Hpos) as Hfloor.
      assert (Hq : 0 <= (end_ - start) / increment) by (apply Z.div_pos; lia).
      split.
      * intros Hk. assert (Z.of_nat k <= (end_ - start) / increment) by lia. nia.
      * intros Hk.
        assert (Z.of_nat k <= (end_ - start) / increment)
          by (apply Z.div_le_lower_bound; lia).
        lia.
    + apply Z.leb_gt in Hle. split; [lia | nia].
  - apply Z.ltb_ge in Hpos. assert (Hneg : 0 < - increment) by lia.
    destruct (end_ <=? start) eqn:Hle.
    + apply Z.leb_le in Hle.
      pose proof (Z.mul_div_le (start - end_) (- increment) Hneg) as Hfloor.
      assert (Hq : 0 <= (start - end_) / - increment) by (apply Z.div_pos; lia).
      split.
      * intros Hk. assert (Z.of_nat k <= (start - end_) / - increment) by lia. nia.
      * intros Hk.
        assert (Z.of_nat k <= (start - end_) / - increment)
          by (apply Z.div_le_lower_bound; lia).
        lia.
    + apply Z.leb_gt in Hle. split; [lia | nia].
Qed.

Lemma progression_succ (start increment : Z) (n : nat) :
  progression start increment (S n) = start :: progression (start + increment) increment n.
Proof.
  unfold progression. simpl. f_equal; [lia |].
  rewrite <- seq_shift, map_map. apply map_ext. intros k. lia.
Qed.

Lemma for_loop_empty_body (exec : executor) (increment : Z) (n : nat) :
  forall (i : Z) (st : PSInterpreter),
    Operators.for_loop exec n i increment [] st
    = Done (mkPSInterpreter
              (heap st ++ map PSInteger (progression i increment n))
              (reverse (seq (length (heap st)) n) ++ stack_ st)
              (dictionaryStack_ st) (graphicsStack_ st)).
Proof.
  induction n as [| n IH]; intros i st.
  - simpl. rewrite app_nil_r. destruct st; reflexivity.
  - rewrite progression_succ. simpl. rewrite IH. simpl.
    rewrite length_app. simpl. rewrite reverse_cons, <- !app_assoc. simpl.
    replace (length (heap st) + 1)%nat with (S (length (heap st))) by lia.
    reflexivity.
Qed.

(** X10. [start end increment { } for], with a procedure that has no
    tokens, pushes new Integer objects for [start], [start + increment],
    ... in this order, the last one on top: exactly the values [start + k *
    increment] that pass the loop test ([<= end] for a positive increment,
    [>= end] for a negative one). Every value pushed lies between [start]
    and [end], so none of them leaves the range of [int]. The value on
    which the loop test fails must be an [int] as well: the source computes
    it with [i += increment], whose overflow is undefined. An increment of
    zero is refused. *)
Theorem for_pushes_progression (exec : executor) (st : PSInterpreter)
    (procPtr incrementPtr endPtr startPtr : PSObjectPtr) (start end_ increment : Z)
    (rest : list PSObjectPtr) :
  stack_ st = procPtr :: incrementPtr :: endPtr :: startPtr :: rest ->
  heap st !! procPtr = Some (PSProcedure []) ->
  heap st !! incrementPtr = Some (PSInteger increment) ->
  heap st !! endPtr = Some (PSInteger end_) ->
  heap st !! startPtr = Some (PSInteger start) ->
  in_int start = true ->
  in_int end_ = true ->
  in_int (start + Z.of_nat (Operators.for_count start end_ increment) * increment) = true ->
  (increment = 0 -> Operators.for_ exec st = Throw "Increment cannot be zero")
  /\ (increment <> 0 ->
      let n := Operators.for_count start end_ increment in
      Operators.for_ exec st
      = Done (mkPSInterpreter
                (heap st ++ map PSInteger (progression start increment n))
                (reverse (seq (length (heap st)) n) ++ rest)
                (dictionaryStack_ st) (graphicsStack_ st))
      /\ (forall k : nat,
            (k < n)%nat <-> for_test end_ increment (start + Z.of_nat k * increment))
      /\ Forall (fun value => in_int value = true) (progression start increment n)).
Proof.
  intros Hs Hp Hi He Hst Hstart Hend _.
  assert (Hrun : Operators.for_ exec st
                 = if increment =? 0 then Throw "Increment cannot be zero"
                   else Operators.for_loop exec (Operators.for_count start end_ increment)
                          start increment [] (with_stack rest st)).
  { unfold Operators.for_.
    rewrite need_enough by (rewrite Hs; simpl; lia).
    destruct st as [h s d gs]. simpl in Hs, Hp, Hi, He, Hst. subst s.
    unfold Operators.pop_obj, PSStack.pop, deref. simpl.
    rewrite Hp. simpl. rewrite Hi. simpl. rewrite He. simpl. rewrite Hst. simpl.
    destruct (increment =? 0); reflexivity. }
  rewrite Hrun. split.
  - intros ->. reflexivity.
  - intros Hne n. destruct (increment =? 0) eqn:Hz; [apply Z.eqb_eq in Hz; contradiction |].
    split; [apply for_loop_empty_body |].
    split; [intros k; apply for_count_test; exact Hne |].
    apply Forall_forall. intros value Hin. unfold progression in Hin.
    apply list_elem_of_fmap in Hin as (k & -> & Hk).
    apply list_elem_of_In, in_seq in Hk.
    assert (Htest : for_test end_ increment (start + Z.of_nat k * increment))
      by (apply for_count_test; [exact Hne | fold n; lia]).
    unfold in_int, INT_MIN, INT_MAX in *.
    apply andb_true_iff in Hstart as [Hs1 Hs2]. apply andb_true_iff in Hend as [He1 He2].
    apply Z.leb_le in Hs1, Hs2, He1, He2.
    unfold for_test in Htest. apply andb_true_iff.
    destruct (0 <? increment) eqn:Hpos.
    + apply Z.ltb_lt in Hpos. split; apply Z.leb_le; nia.
    + apply Z.ltb_ge in Hpos. split; apply Z.leb_le; nia.
Qed.

(** X11. [cond proc1 proc2 ifelse] replays the tokens of exactly one of the
    two procedures, the first when the condition is true in the sense of
    [if] and the second otherwise; both operands must be procedures, and an
    operand that is not makes [ifelse] throw whichever branch the condition
    selects. *)
Theorem ifelse_runs_one_branch (exec : executor) (st : PSInterpreter)
    (elsePtr thenPtr conditionPtr : PSObjectPtr) (elseObj thenObj conditionObj : PSObject)
    (rest : list PSObjectPtr) :
  stack_ st = elsePtr :: thenPtr :: conditionPtr :: rest ->
  heap st !! elsePtr = Some elseObj ->
  heap st !! thenPtr = Some thenObj ->
  heap st !! conditionPtr = Some conditionObj ->
  (forall thenProc elseProc : list string,
      thenObj = PSProcedure thenProc -> elseObj = PSProcedure elseProc ->
      Operators.ifelse exec st
      = Operators.run_tokens exec
          (if Operators.condition_of conditionObj then thenProc else elseProc)
          (with_stack rest st))
  /\ (getType thenObj <> PROCEDURE ->
      Operators.ifelse exec st = Throw "Second operand must be a procedure")
  /\ (getType thenObj = PROCEDURE -> getType elseObj <> PROCEDURE ->
      Operators.ifelse exec st = Throw "Third operand must be a procedure").
Proof.
  intros Hs He Ht Hc.
  assert (Hrun : Operators.ifelse exec st
                 = if negb (Operators.is_type PROCEDURE thenObj)
                   then Throw "Second operand must be a procedure"
                   else if negb (Operators.is_type PROCEDURE elseObj)
                   then Throw "Third operand must be a procedure"
                   else proc ← (if Operators.condition_of conditionObj
                                then asProcedure thenObj else asProcedure elseObj);
                        Operators.run_tokens exec proc (with_stack rest st)).
  { unfold Operators.ifelse.
    rewrite need_enough by (rewrite Hs; simpl; lia).
    destruct st as [h s d gs]. simpl in Hs, He, Ht, Hc. subst s.
    unfold Operators.pop_obj, PSStack.pop, deref. simpl.
    rewrite He. simpl. rewrite Ht. simpl. rewrite Hc. reflexivity. }
  rewrite Hrun. split; [| split].
  - intros thenProc elseProc -> ->. simpl.
    destruct (Operators.condition_of conditionObj); reflexivity.
  - intros Hnot. unfold Operators.is_type.
    rewrite bool_decide_eq_false_2 by assumption. reflexivity.
  - intros Hthen Hnot. unfold Operators.is_type.
    rewrite bool_decide_eq_true_2 by assumption.
    rewrite bool_decide_eq_false_2 by assumption. reflexivity.
Qed.

(** ** The lexer *)

Lemma append_cons (c : ascii) (s t : string) : String c s +:+ t = String c (s +:+ t).
Proof. reflexivity. Qed.

Lemma append_char_assoc (cur : string) (c : ascii) (w : string) :
  (cur +:+ String c "") +:+ w = cur +:+ String c w.
Proof.
  induction cur as [| d cur IH]; [reflexivity |].
  rewrite !append_cons, IH. reflexivity.
Qed.

Lemma append_empty (s : string) : s +:+ "" = s.
Proof.
  induction s as [| c s IH]; [reflexivity |].
  rewrite append_cons, IH. reflexivity.
Qed.

Lemma scan_plain_char (c : ascii) (rest : string) (toks : list string) (cur : string)
    (bl brl dl : Z) :
  plain_char c = true ->
  PSParser.scan (String c rest)
    (PSParser.mkLexer toks cur false false false false false false bl brl dl)
  = PSParser.scan rest
      (PSParser.mkLexer toks (cur +:+ String c "") false false false false false false
         bl brl dl).
Proof.
  intros Hc.
  destruct c as [[] [] [] [] [] [] [] []]; try discriminate Hc; try reflexivity.
  destruct rest as [| d rest2]; [reflexivity |].
  simpl. destruct (Ascii.eqb d ">"); reflexivity.
Qed.

Lemma scan_whitespace (c : ascii) (rest : string) (toks : list string) (cur : string)
    (bl brl dl : Z) :
  PSParser.isWhitespace c = true ->
  PSParser.scan (String c rest)
    (PSParser.mkLexer toks cur false false false false false false bl brl dl)
  = PSParser.scan rest
      (PSParser.flush
         (PSParser.mkLexer toks cur false false false false false false bl brl dl)).
Proof.
  intros Hc.
  destruct c as [[] [] [] [] [] [] [] []]; try discriminate Hc; reflexivity.
Qed.

Lemma scan_plain_word (w rest : string) (toks : list string) (bl brl dl : Z) :
  forall cur : string,
    all_chars plain_char w = true ->
    PSParser.scan (w +:+ rest)
      (PSParser.mkLexer toks cur false false false false false false bl brl dl)
    = PSParser.scan rest
        (PSParser.mkLexer toks (cur +:+ w) false false false false false false bl brl dl).
Proof.
  induction w as [| c w IH]; intros cur Hw; simpl in Hw.
  - rewrite append_empty. reflexivity.
  - apply andb_true_iff in Hw as [Hc Hw].
    change (String c w +:+ rest) with (String c (w +:+ rest)).
    rewrite scan_plain_char by exact Hc.
    rewrite IH by exact Hw. rewrite append_char_assoc. reflexivity.
Qed.

Lemma scan_join (sep : ascii) (ws : list string) (bl brl dl : Z) :
  PSParser.isWhitespace sep = true ->
  Forall (fun w => plain_word w = true) ws ->
  forall toks : list string,
    PSParser.flush
      (PSParser.scan (join (String sep "") ws)
         (PSParser.mkLexer toks "" false false false false false false bl brl dl))
    = PSParser.mkLexer (toks ++ ws) "" false false false false false false bl brl dl.
Proof.
  intros Hsep Hws. induction Hws as [| w rest Hw Hrest IH]; intros toks.
  - simpl. rewrite app_nil_r. reflexivity.
  - assert (Hchars : all_chars plain_char w = true) by (destruct w; [discriminate Hw | exact Hw]).
    destruct rest as [| w2 rest].
    + cbn [join]. rewrite <- (append_empty w) at 1.
      rewrite scan_plain_word by exact Hchars.
      change ("" +:+ w) with w.
      destruct w; [discriminate Hw | reflexivity].
    + change (join (String sep "") (w :: w2 :: rest))
        with (w +:+ String sep (join (String sep "") (w2 :: rest))).
      rewrite scan_plain_word by exact Hchars.
      rewrite scan_whitespace by exact Hsep.
      change ("" +:+ w) with w.
      destruct w as [| c w]; [discriminate Hw |].
      cbn [PSParser.flush PSParser.currentToken PSParser.tokens
           PSParser.inString PSParser.escapeNext PSParser.inComment PSParser.inArray
           PSParser.inDict PSParser.inProc PSParser.braceLevel PSParser.bracketLevel
           PSParser.dictLevel].
      rewrite IH. rewrite <- app_assoc. reflexivity.
Qed.

(** X12. Words of plain characters (no white space, delimiter, [%] or
    [<]) written with one white-space character between neighbours are
    tokenized into exactly these words, in order: the lexer neither splits
    nor merges nor drops any of them. *)
Theorem tokenize_joined_words (sep : ascii) (ws : list string) :
  PSParser.isWhitespace sep = true ->
  Forall (fun w => plain_word w = true) ws ->
  PSParser.tokenize (join (String sep "") ws) = ws.
Proof.
  intros Hsep Hws. unfold PSParser.tokenize, PSParser.lexer0.
  rewrite (scan_join sep ws 0 0 0 Hsep Hws []). reflexivity.
Qed.

Lemma tokenize_joined_words_example :
  PSParser.tokenize (join " " ["/x"; "5"; "def"; "x"; "-2.5"; "add"])
  = ["/x"; "5"; "def"; "x"; "-2.5"; "add"].
Proof.
  apply (tokenize_joined_words " " ["/x"; "5"; "def"; "x"; "-2.5"; "add"]).
  - reflexivity.
  - repeat constructor.
Defined.

(** *** No empty token *)

Lemma flush_not_empty (lx : PSParser.lexer) :
  tokens_not_empty lx -> tokens_not_empty (PSParser.flush lx).
Proof.
  unfold tokens_not_empty, PSParser.flush. intros Hlx.
  destruct (PSParser.currentToken lx) as [| c cur]; [exact Hlx |]. simpl.
  apply Forall_app. split; [exact Hlx |]. constructor; [discriminate | constructor].
Qed.

Lemma push_token_not_empty (c : ascii) (lx : PSParser.lexer) :
  tokens_not_empty lx -> tokens_not_empty (PSParser.push_token (String c "") lx).
Proof.
  unfold tokens_not_empty, PSParser.push_token. simpl. intros Hlx.
  apply Forall_app. split; [exact Hlx |]. constructor; [discriminate | constructor].
Qed.

Lemma scan_not_empty (n : nat) :
  forall (input : string) (lx : PSParser.lexer),
    (String.length input < n)%nat ->
    tokens_not_empty lx -> tokens_not_empty (PSParser.scan input lx).
Proof.
  induction n as [| n IH]; intros input lx Hlen Hlx; [lia |].
  destruct input as [| c rest]; [exact Hlx |].
  simpl in Hlen.
  assert (Hrest : forall lx' : PSParser.lexer,
             tokens_not_empty lx' -> tokens_not_empty (PSParser.scan rest lx'))
    by (intros lx'; apply IH; lia).
  assert (Hrest2 : forall (c2 : ascii) (rest2 : string) (lx' : PSParser.lexer),
             rest = String c2 rest2 ->
             tokens_not_empty lx' -> tokens_not_empty (PSParser.scan rest2 lx')).
  { intros c2 rest2 lx' -> Hlx'. apply IH; [simpl in Hlen; lia | exact Hlx']. }
  cbn [PSParser.scan].
  repeat match goal with
         | |- tokens_not_empty (if ?b then _ else _) => destruct b
         | |- tokens_not_empty (match ?r with EmptyString => _ | String _ _ => _ end) =>
             destruct r eqn:?
         | |- tokens_not_empty (let level := _ in _) => cbv zeta
         end;
    try exact Hlx;
    first [ apply Hrest | eapply Hrest2; [reflexivity |] ];
    repeat match goal with
           | |- context [if ?b then _ else _] => destruct b
           end;
    first [ exact Hlx
          | apply flush_not_empty; exact Hlx
          | apply push_token_not_empty, flush_not_empty; exact Hlx ].
Qed.

(** X13. The lexer never returns an empty token, whatever the input: the
    tests for empty tokens in [executeToken] and in the parsing of procedure
    literals never fire on its output. *)
Theorem tokenize_no_empty_token (input : string) :
  Forall (fun tok => tok <> "") (PSParser.tokenize input).
Proof.
  unfold PSParser.tokenize.
  apply flush_not_empty.
  apply (scan_not_empty (S (String.length input))); [lia |].
  constructor.
Qed.

(** *** Brace groups *)

Lemma scan_in_proc_other (c : ascii) (rest : string) (toks : list string) (cur : string)
    (bl brl dl : Z) :
  Ascii.eqb c "{"%char = false ->
  Ascii.eqb c "}"%char = false ->
  PSParser.scan (String c rest)
    (PSParser.mkLexer toks cur false false false false false true bl brl dl)
  = PSParser.scan rest
      (PSParser.mkLexer toks (cur +:+ String c "") false false false false false true
         bl brl dl).
Proof.
  intros Hopen Hclose.
  destruct c as [[] [] [] [] [] [] [] []]; try discriminate Hopen; try discriminate Hclose;
    try reflexivity;
    (destruct rest as [| d rest2]; [reflexivity |]);
    simpl;
    first [ destruct (Ascii.eqb d ">"); reflexivity
          | destruct (Ascii.eqb d "<"); reflexivity ].
Qed.

Lemma scan_in_proc (body : string) (rest : string) (toks : list string) (brl dl : Z) :
  forall (depth : nat) (cur : string),
    balanced depth body = true ->
    PSParser.scan (body +:+ String "}" rest)
      (PSParser.mkLexer toks cur false false false false false true
         (Z.of_nat depth + 1) brl dl)
    = PSParser.scan rest
        (PSParser.mkLexer toks (cur +:+ body +:+ "}") false false false false false false
           0 brl dl).
Proof.
  induction body as [| c body IH]; intros depth cur Hbal; simpl in Hbal.
  - apply Nat.eqb_eq in Hbal. subst depth. reflexivity.
  - rewrite !append_cons.
    destruct (Ascii.eqb c "{") eqn:Hopen; [| destruct (Ascii.eqb c "}") eqn:Hclose].
    + apply Ascii.eqb_eq in Hopen. subst c.
      specialize (IH (S depth) (cur +:+ "{") Hbal).
      rewrite append_char_assoc in IH. rewrite <- IH.
      cbn [PSParser.scan]. cbn.
      replace (Z.of_nat depth + 1 + 1) with (Z.of_nat (S depth) + 1) by lia.
      reflexivity.
    + apply Ascii.eqb_eq in Hclose. subst c.
      destruct depth as [| depth]; [discriminate Hbal |].
      specialize (IH depth (cur +:+ "}") Hbal).
      rewrite append_char_assoc in IH. rewrite <- IH.
      cbn [PSParser.scan]. cbn.
      replace (Z.of_nat (S depth) + 1 - 1) with (Z.of_nat depth + 1) by lia.
      replace (Z.of_nat depth + 1 =? 0) with false by (symmetry; apply Z.eqb_neq; lia).
      reflexivity.
    + rewrite scan_in_proc_other by assumption.
      rewrite IH by exact Hbal. rewrite append_char_assoc. reflexivity.
Qed.

(** X14. A brace group [{body}] whose body closes the braces it opens is
    one token, returned verbatim: inside the braces the lexer splits at no
    white space and treats neither [%] nor parentheses, brackets or angle
    brackets as special. *)
Theorem tokenize_brace_group (body : string) :
  balanced 0 body = true ->
  PSParser.tokenize ("{" +:+ body +:+ "}") = ["{" +:+ body +:+ "}"].
Proof.
  intros Hbal. unfold PSParser.tokenize, PSParser.lexer0.
  change (PSParser.scan ("{" +:+ body +:+ "}")
            (PSParser.mkLexer [] "" false false false false false false 0 0 0))
    with (PSParser.scan (body +:+ String "}" "")
            (PSParser.mkLexer [] "{" false false false false false true
               (Z.of_nat 0 + 1) 0 0)).
  rewrite (scan_in_proc body "" [] 0 0 0 "{" Hbal).
  reflexivity.
Qed.

Lemma tokenize_brace_group_example :
  PSParser.tokenize "{ dup (a b) % [ {1 add} repeat }"
  = ["{ dup (a b) % [ {1 add} repeat }"].
Proof.
  apply (tokenize_brace_group " dup (a b) % [ {1 add} repeat ").
  reflexivity.
Defined.

(** ** Literal tokens *)

Section Literals.
Context `{LibC}.

(** The name of every registered operator starts with a lower-case letter. *)
Lemma registered_first_char (name : string) (op : OperatorFunction) :
  getOperator name = Some op ->
  exists c : ascii,
    first_char name = Some c
    /\ (97 <=? nat_of_ascii c)%nat = true /\ (nat_of_ascii c <=? 122)%nat = true.
Proof.
  intros Hlook. apply getOperator_registered in Hlook.
  apply (list_elem_of_fmap_2 fst) in Hlook. simpl in Hlook.
  assert (Hall : Forall (fun n : string =>
                           exists c : ascii,
                             first_char n = Some c
                             /\ (97 <=? nat_of_ascii c)%nat = true
                             /\ (nat_of_ascii c <=? 122)%nat = true)
                   (registrations.*1)).
  { unfold registrations. simpl.
    repeat (constructor; [eexists; split; [reflexivity | split; reflexivity] |]).
    constructor. }
  apply (proj1 (Forall_forall _ _) Hall _ Hlook).
Qed.

Lemma not_registered (token : string) (c : ascii) :
  first_char token = Some c ->
  ((97 <=? nat_of_ascii c)%nat && (nat_of_ascii c <=? 122)%nat)%bool = false ->
  getOperator token = None.
Proof.
  intros Hc Hrange. destruct (getOperator token) as [op |] eqn:Hop; [| reflexivity].
  destruct (registered_first_char token op Hop) as (c' & Hc' & Hlo & Hhi).
  rewrite Hc in Hc'. injection Hc' as <-. rewrite Hlo, Hhi in Hrange. discriminate Hrange.
Qed.

(** X15. A token of two or more characters that starts with a slash is
    never executed: whatever is defined under that name, with or without
    the slash, and whether or not the rest of the token names an operator,
    the token is pushed as a new String object that holds it verbatim,
    slash included. *)
Theorem name_literal_is_pushed (fuel : nat) (name : string) (st : PSInterpreter) :
  name <> "" ->
  executeToken (S fuel) ("/" +:+ name) st
  = Done (Operators.push_new (PSString ("/" +:+ name)) st)
  /\ stack_ (Operators.push_new (PSString ("/" +:+ name)) st)
     = length (heap st) :: stack_ st
  /\ heap (Operators.push_new (PSString ("/" +:+ name)) st) !! length (heap st)
     = Some (PSString ("/" +:+ name)).
Proof.
  intros Hname. split; [| split].
  - rewrite executeToken_step.
    rewrite bool_decide_eq_false_2 by discriminate.
    rewrite (not_registered ("/" +:+ name) "/" eq_refl eq_refl).
    destruct name as [| c name]; [contradiction |].
    assert (Hlen : (1 <? slen ("/" +:+ String c name)) = true).
    { apply Z.ltb_lt. unfold slen.
      change ("/" +:+ String c name) with (String "/" (String c name)).
      simpl String.length. lia. }
    rewrite Hlen. reflexivity.
  - reflexivity.
  - simpl. rewrite lookup_app_r by lia. rewrite Nat.sub_diag. reflexivity.
Qed.

Lemma length_append (s t : string) :
  String.length (s +:+ t) = (String.length s + String.length t)%nat.
Proof.
  induction s as [| c s IH]; [reflexivity |].
  rewrite append_cons. simpl. rewrite IH. reflexivity.
Qed.

Lemma substring_prefix (s t : string) :
  String.substring 0 (String.length s) (s +:+ t) = s.
Proof.
  induction s as [| c s IH]; [destruct t; reflexivity |].
  rewrite append_cons. simpl. rewrite IH. reflexivity.
Qed.

Lemma substring_suffix (s t : string) :
  String.substring (String.length s) (String.length t) (s +:+ t) = t.
Proof.
  induction s as [| c s IH].
  - change ("" +:+ t) with t. simpl String.length.
    rewrite <- (append_empty t) at 2. apply substring_prefix.
  - rewrite append_cons. simpl. exact IH.
Qed.

Lemma interior_braces (body : string) :
  interior 1 ("{" +:+ body +:+ "}") = body.
Proof.
  unfold interior, substr.
  change ("{" +:+ body +:+ "}") with (String "{" (body +:+ "}")).
  simpl String.length. rewrite length_append. simpl String.length.
  replace (S (String.length body + 1) - 2 * 1)%nat with (String.length body) by lia.
  simpl. apply substring_prefix.
Qed.

Lemma enclosed_braces (body : string) :
  enclosed 2 "{" "}" ("{" +:+ body +:+ "}") = true.
Proof.
  unfold enclosed, substr, substr_from, slen.
  change ("{" +:+ body +:+ "}") with (String "{" (body +:+ "}")).
  simpl String.length. rewrite length_append. simpl String.length.
  replace (S (String.length body + 1) - 1)%nat with (S (String.length body)) by lia.
  replace (S (String.length body + 1) - S (String.length body))%nat with 1%nat by lia.
  apply andb_true_iff. split; [apply andb_true_iff; split |].
  - apply Z.leb_le. lia.
  - apply bool_decide_eq_true_2. simpl. destruct (body +:+ "}"); reflexivity.
  - apply bool_decide_eq_true_2.
    change (String.substring (S (String.length body)) 1 (String "{" (body +:+ "}")))
      with (String.substring (String.length body) (String.length "}") (body +:+ "}")).
    apply substring_suffix.
Qed.

Lemma not_enclosed_other (n : Z) (open_ close_ : string) (c d : ascii) (rest : string) :
  first_char open_ = Some d -> c <> d ->
  enclosed n open_ close_ (String c rest) = false.
Proof.
  intros Hopen Hne. unfold enclosed, substr.
  destruct open_ as [| d' open_]; [discriminate Hopen |]. injection Hopen as ->.
  rewrite (bool_decide_eq_false_2 (String.substring 0 _ _ = _)).
  - rewrite andb_false_r. reflexivity.
  - simpl. intros Heq. injection Heq as Heq _. contradiction.
Qed.

Lemma filter_not_empty (toks : list string) :
  Forall (fun tok => tok <> "") toks ->
  filter (fun procToken => procToken ≠ "") toks = toks.
Proof.
  induction 1 as [| tok toks Htok _ IH]; [reflexivity |].
  rewrite filter_cons_True by exact Htok. rewrite IH. reflexivity.
Qed.

Lemma braces_are_a_procedure (exec : executor) (body : string) (st : PSInterpreter) :
  stod ("{" +:+ body +:+ "}") = None ->
  execute_number_or_literal exec ("{" +:+ body +:+ "}") st
  = Done (Operators.push_new (PSProcedure (PSParser.tokenize body)) st).
Proof.
  intros Hstod.
  assert (Hlit : execute_literal exec ("{" +:+ body +:+ "}") st
                 = Done (Operators.push_new (PSProcedure (PSParser.tokenize body)) st)).
  { unfold execute_literal.
    assert (Hparen : enclosed 2 "(" ")" ("{" +:+ body +:+ "}") = false)
      by (apply (not_enclosed_other 2 "(" ")" "{" "(" (body +:+ "}"));
          [reflexivity | discriminate]).
    assert (Hbracket : enclosed 2 "[" "]" ("{" +:+ body +:+ "}") = false)
      by (apply (not_enclosed_other 2 "[" "]" "{" "[" (body +:+ "}"));
          [reflexivity | discriminate]).
    assert (Hangle : enclosed 4 "<<" ">>" ("{" +:+ body +:+ "}") = false)
      by (apply (not_enclosed_other 4 "<<" ">>" "{" "<" (body +:+ "}"));
          [reflexivity | discriminate]).
    rewrite Hparen, Hbracket, Hangle, enclosed_braces, interior_braces.
    unfold PSParser.parse, PSParser.tokenize at 1.
    rewrite filter_not_empty; [reflexivity |].
    apply flush_not_empty.
    apply (scan_not_empty (S (String.length body))); [lia | constructor]. }
  unfold execute_number_or_literal. rewrite Hstod.
  change (stoi ("{" +:+ body +:+ "}")) with (@None Z).
  destruct (has_dot _); exact Hlit.
Qed.

(** X16. A brace group [{body}] that the current dictionary does not bind
    to a procedure is not executed: a new Procedure object is pushed whose
    tokens are those of [body], as the lexer splits it, kept for later. *)
Theorem procedure_literal_is_deferred (fuel : nat) (body : string) (st : PSInterpreter) :
  lookup_procedure ("{" +:+ body +:+ "}") st = Done None ->
  stod ("{" +:+ body +:+ "}") = None ->
  executeToken (S fuel) ("{" +:+ body +:+ "}") st
  = Done (Operators.push_new (PSProcedure (PSParser.tokenize body)) st).
Proof.
  intros Hlook Hstod.
  rewrite executeToken_step.
  rewrite bool_decide_eq_false_2 by discriminate.
  rewrite (not_registered ("{" +:+ body +:+ "}") "{" eq_refl eq_refl).
  change (is_char (first_char ("{" +:+ body +:+ "}")) "/") with false.
  rewrite andb_false_r, Hlook. simpl.
  apply braces_are_a_procedure. exact Hstod.
Qed.

(** X17. After [/name proc def], where [name] is no operator name and
    does not itself start with a slash, executing the bare token [name]
    replays the tokens of the procedure, in order, on the state as it is; the
    definition itself leaves nothing on the operand stack. *)
Theorem defined_procedure_call (st : PSInterpreter) (procPtr keyPtr dictPtr : PSObjectPtr)
    (key : string) (proc : list string) (d : gmap string PSObjectPtr)
    (rest : list PSObjectPtr) :
  stack_ st = procPtr :: keyPtr :: rest ->
  heap st !! keyPtr = Some (PSString key) ->
  heap st !! procPtr = Some (PSProcedure proc) ->
  getCurrentDictionary st = Some dictPtr ->
  heap st !! dictPtr = Some (PSDictionary d) ->
  strip_slash key <> "" ->
  hasOperator (strip_slash key) = false ->
  is_char (first_char (strip_slash key)) "/" = false ->
  exists st1 : PSInterpreter,
    Operators.def st = Done st1
    /\ stack_ st1 = rest
    /\ forall fuel : nat,
         executeToken (S fuel) (strip_slash key) st1
         = Operators.run_tokens (executeToken fuel) proc st1.
Proof.
  intros Hs Hk Hp Hcur Hd Hname Hop Hslash.
  set (d1 := <[strip_slash key := procPtr]> d).
  set (st1 := assign dictPtr (PSDictionary d1) (with_stack rest st)).
  assert (Hdlt : (dictPtr < length (heap st))%nat) by (eapply lookup_lt_Some; eassumption).
  exists st1. split; [apply (def_binds st procPtr keyPtr dictPtr key d rest Hs Hk Hcur Hd) |].
  split; [reflexivity |].
  intros fuel.
  assert (Hnone : getOperator (strip_slash key) = None).
  { unfold hasOperator in Hop. apply bool_decide_eq_false_1 in Hop.
    unfold getOperator. destruct (OperatorRegistry !! strip_slash key) eqn:Hreg;
      [exfalso; apply Hop; eexists; reflexivity | reflexivity]. }
  apply (bare_key_dispatch fuel (strip_slash key) st1 dictPtr procPtr d1 (PSProcedure proc)).
  - exact Hname.
  - exact Hnone.
  - rewrite Hslash. apply andb_false_r.
  - exact Hcur.
  - simpl. apply list_lookup_insert_eq. exact Hdlt.
  - unfold d1. apply lookup_insert_eq.
  - simpl. rewrite list_lookup_insert_ne; [exact Hp |].
    intros ->. rewrite Hp in Hd. discriminate Hd.
Qed.

End Literals.

Lemma name_literal_is_pushed_example :
  @executeToken unused_libc 1 ("/" +:+ "add") (new_interpreter [])
  = Done (Operators.push_new (PSString ("/" +:+ "add")) (new_interpreter []))
  /\ stack_ (Operators.push_new (PSString ("/" +:+ "add")) (new_interpreter []))
     = length (heap (new_interpreter [])) :: stack_ (new_interpreter [])
  /\ heap (Operators.push_new (PSString ("/" +:+ "add")) (new_interpreter []))
       !! length (heap (new_interpreter []))
     = Some (PSString ("/" +:+ "add")).
Proof.
  apply (@name_literal_is_pushed unused_libc 0 "add" (new_interpreter [])).
  discriminate.
Defined.

Lemma procedure_literal_is_deferred_example :
  @executeToken unused_libc 1 ("{" +:+ " dup 1.5 mul " +:+ "}") (new_interpreter [])
  = Done (Operators.push_new (PSProcedure (PSParser.tokenize " dup 1.5 mul "))
            (new_interpreter [])).
Proof.
  apply (@procedure_literal_is_deferred unused_libc 0 " dup 1.5 mul " (new_interpreter [])).
  - vm_compute. reflexivity.
  - reflexivity.
Defined.

Lemma defined_procedure_call_example :
  exists st1 : PSInterpreter,
    Operators.def
      (mkPSInterpreter [PSDictionary ∅; PSString "/square"; PSProcedure ["dup"; "mul"]]
         [2; 1]%nat [0%nat] [Graphics.GraphicsState0])
    = Done st1
    /\ stack_ st1 = []
    /\ forall fuel : nat,
         @executeToken unused_libc (S fuel) (strip_slash "/square") st1
         = Operators.run_tokens (@executeToken unused_libc fuel) ["dup"; "mul"] st1.
Proof.
  apply (@defined_procedure_call unused_libc
           (mkPSInterpreter [PSDictionary ∅; PSString "/square"; PSProcedure ["dup"; "mul"]]
              [2; 1]%nat [0%nat] [Graphics.GraphicsState0])
           2%nat 1%nat 0%nat "/square" ["dup"; "mul"] ∅ []).
  - reflexivity.
  - reflexivity.
  - reflexivity.
  - reflexivity.
  - reflexivity.
  - discriminate.
  - vm_compute. reflexivity.
  - reflexivity.
Defined.

(** ** The store over time *)

Lemma stable_refl (o : PSObject) : stable o o.
Proof.
  destruct o; simpl; try reflexivity.
  - eexists. split; reflexivity.
  - eexists. split; [reflexivity | auto].
Qed.

Lemma stable_trans (o1 o2 o3 : PSObject) : stable o1 o2 -> stable o2 o3 -> stable o1 o3.
Proof.
  destruct o1; simpl; try (intros -> H23; exact H23).
  - intros (v2 & -> & Hlen2) (v3 & -> & Hlen3). exists v3. split; [reflexivity | congruence].
  - intros (d2 & -> & Hk2) (d3 & -> & Hk3). exists d3. split; [reflexivity | auto].
Qed.

Lemma store_extends_refl (h : list PSObject) : store_extends h h.
Proof. intros p o Hp. exists o. split; [exact Hp | apply stable_refl]. Qed.

Lemma store_extends_trans (h1 h2 h3 : list PSObject) :
  store_extends h1 h2 -> store_extends h2 h3 -> store_extends h1 h3.
Proof.
  intros H12 H23 p o Hp.
  destruct (H12 p o Hp) as (o2 & Hp2 & Hs2).
  destruct (H23 p o2 Hp2) as (o3 & Hp3 & Hs3).
  exists o3. split; [exact Hp3 | apply (stable_trans _ _ _ Hs2 Hs3)].
Qed.

Lemma store_extends_app (h k : list PSObject) : store_extends h (h ++ k).
Proof.
  intros p o Hp. exists o. split; [| apply stable_refl].
  rewrite lookup_app_l; [exact Hp |]. eapply lookup_lt_Some. exact Hp.
Qed.

Lemma store_extends_insert (h : list PSObject) (q : PSObjectPtr) (o o' : PSObject) :
  h !! q = Some o -> stable o o' -> store_extends h (<[q := o']> h).
Proof.
  intros Hq Hstable p o1 Hp. destruct (decide (p = q)) as [-> | Hne].
  - exists o'. split.
    + apply list_lookup_insert_eq. eapply lookup_lt_Some. exact Hq.
    + rewrite Hq in Hp. injection Hp as <-. exact Hstable.
  - exists o1. split; [| apply stable_refl].
    rewrite list_lookup_insert_ne by congruence. exact Hp.
Qed.

Lemma evolves_refl (st : PSInterpreter) : evolves st st.
Proof. split; [reflexivity | apply store_extends_refl]. Qed.

Lemma evolves_trans (st1 st2 st3 : PSInterpreter) :
  evolves st1 st2 -> evolves st2 st3 -> evolves st1 st3.
Proof.
  intros [Hd12 Hh12] [Hd23 Hh23]. split; [congruence |].
  apply (store_extends_trans _ _ _ Hh12 Hh23).
Qed.

(** The steps that the operators are made of. *)

Lemma evolves_same (st X Y : PSInterpreter) :
  heap Y = heap X -> dictionaryStack_ Y = dictionaryStack_ X ->
  evolves st X -> evolves st Y.
Proof.
  intros Hh Hd [Hd1 Hh1]. split; [congruence | rewrite Hh; exact Hh1].
Qed.

Lemma evolves_push (st X : PSInterpreter) (p : PSObjectPtr) :
  evolves st X -> evolves st (PSStack.push p X).
Proof. apply evolves_same; reflexivity. Qed.

Lemma evolves_with_stack (st X : PSInterpreter) (s : list PSObjectPtr) :
  evolves st X -> evolves st (with_stack s X).
Proof. apply evolves_same; reflexivity. Qed.

Lemma evolves_with_graphics (st X : PSInterpreter) (gs : list GraphicsState) :
  evolves st X -> evolves st (with_graphics gs X).
Proof. apply evolves_same; reflexivity. Qed.

Lemma evolves_set_current (st X : PSInterpreter) (gs : GraphicsState) :
  evolves st X -> evolves st (Operators.setCurrentGraphicsState gs X).
Proof. apply evolves_same; reflexivity. Qed.

Lemma evolves_clear (st X : PSInterpreter) :
  evolves st X -> evolves st (PSStack.clear X).
Proof. apply evolves_same; reflexivity. Qed.

Lemma evolves_push_all (st X : PSInterpreter) (elements : list PSObjectPtr) :
  evolves st X -> evolves st (Operators.push_all elements X).
Proof. rewrite push_all_stack. apply evolves_with_stack. Qed.

Lemma evolves_with_heap (st X : PSInterpreter) (h : list PSObject) :
  store_extends (heap X) h -> evolves st X -> evolves st (with_heap h X).
Proof.
  intros Hh [Hd1 Hh1]. split; [exact Hd1 |].
  apply (store_extends_trans _ _ _ Hh1 Hh).
Qed.

Lemma evolves_push_new (st X : PSInterpreter) (o : PSObject) :
  evolves st X -> evolves st (Operators.push_new o X).
Proof.
  intros [Hd1 Hh1]. split; [exact Hd1 |]. simpl.
  apply (store_extends_trans _ _ _ Hh1). apply store_extends_app.
Qed.

Lemma evolves_assign (st X : PSInterpreter) (p : PSObjectPtr) (o o' : PSObject) :
  heap X !! p = Some o -> stable o o' -> evolves st X -> evolves st (assign p o' X).
Proof.
  intros Hp Hstable [Hd1 Hh1]. split; [exact Hd1 |]. simpl.
  apply (store_extends_trans _ _ _ Hh1). apply (store_extends_insert _ _ _ _ Hp Hstable).
Qed.

Lemma evolves_pop (st X Y : PSInterpreter) (p : PSObjectPtr) :
  PSStack.pop X = Done (p, Y) -> evolves st X -> evolves st Y.
Proof.
  unfold PSStack.pop. destruct (stack_ X); intros Hpop; [discriminate Hpop |].
  injection Hpop as _ <-. apply evolves_with_stack.
Qed.

Lemma deref_lookup (X : PSInterpreter) (p : PSObjectPtr) (o : PSObject) :
  deref X p = Done o -> heap X !! p = Some o.
Proof.
  unfold deref. destruct (heap X !! p); intros Hd; [| discriminate Hd].
  injection Hd as <-. reflexivity.
Qed.

Lemma pop_obj_inv (X Y : PSInterpreter) (p : PSObjectPtr) (o : PSObject) :
  Operators.pop_obj X = Done (p, o, Y) ->
  PSStack.pop X = Done (p, Y) /\ heap Y !! p = Some o.
Proof.
  unfold Operators.pop_obj. intros Hpop.
  apply bind_Done in Hpop as ([q Z] & Hq & Hpop).
  apply bind_Done in Hpop as (o' & Ho & Hpop).
  injection Hpop as -> -> ->. split; [exact Hq | apply deref_lookup; exact Ho].
Qed.

Lemma evolves_pop_obj (st X Y : PSInterpreter) (p : PSObjectPtr) (o : PSObject) :
  Operators.pop_obj X = Done (p, o, Y) -> evolves st X -> evolves st Y.
Proof. intros Hpop. apply pop_obj_inv in Hpop as [Hpop _]. apply (evolves_pop _ _ _ _ Hpop). Qed.

Lemma evolves_dup (st X Y : PSInterpreter) :
  PSStack.dup X = Done Y -> evolves st X -> evolves st Y.
Proof.
  unfold PSStack.dup. destruct (stack_ X); intros Hdup; [discriminate Hdup |].
  apply bind_Done in Hdup as (o & _ & Hdup). injection Hdup as <-.
  intros [Hd1 Hh1]. split; [exact Hd1 |]. simpl.
  apply (store_extends_trans _ _ _ Hh1). apply store_extends_app.
Qed.

Lemma evolves_exch (st X Y : PSInterpreter) :
  PSStack.exch X = Done Y -> evolves st X -> evolves st Y.
Proof.
  unfold PSStack.exch. destruct (stack_ X) as [| a [| b rest]]; intros Hx;
    try discriminate Hx.
  injection Hx as <-. apply evolves_with_stack.
Qed.

Lemma arraySet_stable (o o' : PSObject) (index : nat) (p : PSObjectPtr) :
  arraySet o index p = Done o' -> stable o o'.
Proof.
  destruct o; simpl; intros Hset; try discriminate Hset.
  destruct (decide _); [| discriminate Hset]. injection Hset as <-.
  eexists. split; [reflexivity | apply length_insert].
Qed.

Lemma dictPut_stable (o o' : PSObject) (key : string) (p : PSObjectPtr) :
  dictPut o key p = Done o' -> stable o o'.
Proof.
  destruct o; simpl; intros Hput; try discriminate Hput. injection Hput as <-.
  eexists. split; [reflexivity |]. intros k Hk.
  destruct (decide (key = k)) as [-> | Hne].
  - rewrite lookup_insert_eq. eexists. reflexivity.
  - rewrite lookup_insert_ne by exact Hne. exact Hk.
Qed.

Lemma current_dictionary_lookup (X : PSInterpreter) (p : PSObjectPtr) (o : PSObject) :
  Operators.current_dictionary X = Done (p, o) -> heap X !! p = Some o.
Proof.
  unfold Operators.current_dictionary. destruct (getCurrentDictionary X); [| discriminate].
  intros Hcur. apply bind_Done in Hcur as (o' & Ho & Hcur).
  destruct (Operators.is_type DICTIONARY o'); [| discriminate Hcur].
  injection Hcur as -> ->. apply deref_lookup. exact Ho.
Qed.

(** Walk back from the final state to the initial one, step by step. *)
Ltac evolve :=
  repeat first
    [ assumption
    | lazymatch goal with
      | |- evolves ?st ?st => apply evolves_refl
      | |- evolves _ (PSStack.push _ _) => apply evolves_push
      | |- evolves _ (Operators.push_new _ _) => apply evolves_push_new
      | |- evolves _ (with_stack _ _) => apply evolves_with_stack
      | |- evolves _ (with_graphics _ _) => apply evolves_with_graphics
      | |- evolves _ (Operators.setCurrentGraphicsState _ _) => apply evolves_set_current
      | |- evolves _ (PSStack.clear _) => apply evolves_clear
      | |- evolves _ (Operators.push_all _ _) => apply evolves_push_all
      | |- evolves _ (with_heap (heap ?X ++ _) ?X) =>
          apply evolves_with_heap; [apply store_extends_app |]
      | |- evolves _ (assign _ _ _) =>
          eapply evolves_assign;
            [ first [ eassumption
                    | eapply pop_obj_inv; eassumption
                    | eapply current_dictionary_lookup; eassumption
                    | eapply deref_lookup; eassumption ]
            | first [ eapply arraySet_stable; eassumption
                    | eapply dictPut_stable; eassumption ]
            | ]
      end
    | match goal with
      | Hs : Operators.pop_obj _ = Done (_, _, ?Y) |- evolves _ ?Y =>
          apply (evolves_pop_obj _ _ _ _ _ Hs)
      | Hs : PSStack.pop _ = Done (_, ?Y) |- evolves _ ?Y =>
          apply (evolves_pop _ _ _ _ Hs)
      | Hs : PSStack.dup _ = Done ?Y |- evolves _ ?Y => apply (evolves_dup _ _ _ Hs)
      | Hs : PSStack.exch _ = Done ?Y |- evolves _ ?Y => apply (evolves_exch _ _ _ Hs)
      end ].

Ltac evolves_plain :=
  let st := fresh "st" in
  let st' := fresh "st'" in
  let Hrun := fresh "Hrun" in
  intros st st' Hrun;
  cbv beta iota zeta delta
    [plain Operators.add Operators.sub Operators.mul Operators.div
     Operators.binary_arith Operators.dup Operators.pop Operators.exch
     Operators.clear Operators.stack Operators.show Operators.eq Operators.ne
     Operators.lt Operators.le Operators.gt Operators.ge Operators.binary_compare
     Operators.array Operators.get Operators.put Operators.length Operators.aload
     Operators.dict Operators.def Operators.load Operators.store Operators.known
     Operators.keys
     Operators.moveto Operators.lineto Operators.point_operator
     Operators.closepath Operators.stroke Operators.fill Operators.newpath
     Operators.clear_path Operators.gsave Operators.grestore Operators.translate
     Operators.scale Operators.rotate Operators.setrgbcolor Operators.setlinewidth
     Operators.showpage] in Hrun;
  split_run Hrun;
  solve [evolve].

Lemma run_tokens_evolves (exec : executor) (proc : list string) :
  executor_evolves exec ->
  forall st st' : PSInterpreter,
    Operators.run_tokens exec proc st = Done st' -> evolves st st'.
Proof.
  intros Hexec. induction proc as [| token proc IH]; intros st st' Hrun; simpl in Hrun.
  - injection Hrun as <-. apply evolves_refl.
  - apply bind_Done in Hrun as (st1 & Htoken & Hrun).
    apply (evolves_trans _ st1); [apply (Hexec _ _ _ Htoken) | apply (IH _ _ Hrun)].
Qed.

Lemma forall_loop_evolves (exec : executor) (elements : list PSObjectPtr)
    (proc : list string) :
  executor_evolves exec ->
  forall st st' : PSInterpreter,
    Operators.forall_loop exec elements proc st = Done st' -> evolves st st'.
Proof.
  intros Hexec. induction elements as [| element elements IH];
    intros st st' Hrun; simpl in Hrun.
  - injection Hrun as <-. apply evolves_refl.
  - apply bind_Done in Hrun as (st1 & Hbody & Hrun).
    apply (evolves_trans _ st1); [| apply (IH _ _ Hrun)].
    apply (evolves_trans _ (PSStack.push element st)); [evolve |].
    apply (run_tokens_evolves exec proc Hexec _ _ Hbody).
Qed.

Lemma repeat_loop_evolves (exec : executor) (count : nat) (proc : list string) :
  executor_evolves exec ->
  forall st st' : PSInterpreter,
    Operators.repeat_loop exec count proc st = Done st' -> evolves st st'.
Proof.
  intros Hexec. induction count as [| count IH]; intros st st' Hrun; simpl in Hrun.
  - injection Hrun as <-. apply evolves_refl.
  - apply bind_Done in Hrun as (st1 & Hbody & Hrun).
    apply (evolves_trans _ st1); [| apply (IH _ _ Hrun)].
    apply (run_tokens_evolves exec proc Hexec _ _ Hbody).
Qed.

Lemma for_loop_evolves (exec : executor) (n : nat) (increment : Z) (proc : list string) :
  executor_evolves exec ->
  forall (i : Z) (st st' : PSInterpreter),
    Operators.for_loop exec n i increment proc st = Done st' -> evolves st st'.
Proof.
  intros Hexec. induction n as [| n IH]; intros i st st' Hrun; simpl in Hrun.
  - injection Hrun as <-. apply evolves_refl.
  - apply bind_Done in Hrun as (st1 & Hbody & Hrun).
    apply (evolves_trans _ st1); [| apply (IH _ _ _ Hrun)].
    apply (evolves_trans _ (Operators.push_new (PSInteger i) st)); [evolve |].
    apply (run_tokens_evolves exec proc Hexec _ _ Hbody).
Qed.

Lemma astore_loop_evolves (i : nat) (arrayPtr : PSObjectPtr) :
  forall st st' : PSInterpreter,
    Operators.astore_loop i arrayPtr st = Done st' -> evolves st st'.
Proof.
  induction i as [| i IH]; intros st st' Hrun; simpl in Hrun.
  - injection Hrun as <-. apply evolves_refl.
  - split_run Hrun.
    eapply evolves_trans; [| apply (IH _ _ Hrun)]. evolve.
Qed.

Lemma astore_evolves (st st' : PSInterpreter) :
  Operators.astore st = Done st' -> evolves st st'.
Proof.
  intros Hrun. unfold Operators.astore in Hrun. split_run Hrun.
  apply evolves_push.
  eapply evolves_trans; [| eapply astore_loop_evolves; eassumption]. evolve.
Qed.

Ltac evolves_control Hexec :=
  let st := fresh "st" in
  let st' := fresh "st'" in
  let Hrun := fresh "Hrun" in
  intros st st' Hrun;
  cbv beta iota zeta delta
    [Operators.exec Operators.forall_ Operators.if_ Operators.ifelse
     Operators.repeat Operators.for_] in Hrun;
  split_run Hrun;
  try (eapply evolves_trans;
       [| first [ eapply (run_tokens_evolves _ _ Hexec); eassumption
                | eapply (forall_loop_evolves _ _ _ Hexec); eassumption
                | eapply (repeat_loop_evolves _ _ _ Hexec); eassumption
                | eapply (for_loop_evolves _ _ _ _ Hexec); eassumption ] ]);
  solve [evolve].

Section Store.
Context `{LibC}.

Lemma registered_evolve :
  Forall (fun entry => operator_evolves entry.2) registrations.
Proof.
  unfold registrations.
  repeat (constructor;
          [ intros exec Hexec; simpl;
            first [ apply astore_evolves
                  | evolves_plain
                  | evolves_control Hexec ] |]).
  constructor.
Qed.

Lemma array_elements_extends (exec : executor) (elementTokens : list string) :
  executor_evolves exec ->
  forall (h h' : list PSObject) (array array' : list PSObjectPtr),
    array_elements exec elementTokens h array = Done (array', h') ->
    store_extends h h'.
Proof.
  intros Hexec. induction elementTokens as [| token rest IH];
    intros h h' array array' Hrun; simpl in Hrun.
  - injection Hrun as _ <-. apply store_extends_refl.
  - destruct token as [| c token]; [apply (IH _ _ _ _ Hrun) |].
    apply bind_Done in Hrun as (temp & Htemp & Hrun).
    apply Hexec in Htemp as [_ Htemp]. simpl in Htemp.
    apply (store_extends_trans _ (heap temp)).
    + apply (store_extends_trans _ (h ++ [PSDictionary ∅]));
        [apply store_extends_app | exact Htemp].
    + destruct (stack_ temp); apply (IH _ _ _ _ Hrun).
Qed.

Lemma dict_entries_extends (exec : executor) (n : nat) :
  executor_evolves exec ->
  forall (elementTokens : list string) (h h' : list PSObject)
         (dict dict' : gmap string PSObjectPtr),
    (length elementTokens < n)%nat ->
    dict_entries exec elementTokens h dict = Done (dict', h') ->
    store_extends h h'.
Proof.
  intros Hexec. induction n as [| n IH];
    intros elementTokens h h' dict dict' Hlen Hrun; [lia |].
  destruct elementTokens as [| key [| valueToken rest]]; simpl in Hrun.
  - injection Hrun as _ <-. apply store_extends_refl.
  - injection Hrun as _ <-. apply store_extends_refl.
  - apply bind_Done in Hrun as (temp & Htemp & Hrun).
    apply Hexec in Htemp as [_ Htemp]. simpl in Htemp.
    apply (store_extends_trans _ (heap temp)).
    + apply (store_extends_trans _ (h ++ [PSDictionary ∅]));
        [apply store_extends_app | exact Htemp].
    + simpl in Hlen.
      destruct (stack_ temp); (eapply IH; [| exact Hrun]; lia).
Qed.

Lemma executeToken_evolves (fuel : nat) : executor_evolves (executeToken fuel).
Proof.
  induction fuel as [| fuel IH]; intros token st st' Hrun.
  - discriminate Hrun.
  - rewrite executeToken_step in Hrun.
    destruct (bool_decide (token = "")); [injection Hrun as <-; apply evolves_refl |].
    destruct (getOperator token) as [op |] eqn:Hop.
    + apply getOperator_registered in Hop.
      pose proof (proj1 (Forall_forall _ _) registered_evolve _ Hop) as Hev.
      apply (Hev (executeToken fuel) IH st st' Hrun).
    + destruct ((1 <? slen token) && is_char (first_char token) "/"%char)%bool.
      * injection Hrun as <-. evolve.
      * apply bind_Done in Hrun as (found & _ & Hrun).
        destruct found as [procedure |].
        -- apply (run_tokens_evolves _ procedure IH st st' Hrun).
        -- unfold execute_number_or_literal, execute_literal in Hrun.
           split_run Hrun; evolve;
             apply evolves_with_heap; try apply evolves_refl;
             first [ eapply array_elements_extends; eassumption
                   | eapply (dict_entries_extends _ _ IH); [| eassumption]; apply Nat.lt_succ_diag_r ].
Qed.

Lemma execute_evolves (fuel : nat) (program : string) (st st' : PSInterpreter) :
  execute fuel program st = Done st' -> evolves st st'.
Proof. apply run_tokens_evolves, executeToken_evolves. Qed.

(** X18. Running a program never changes the dictionary stack: no
    operator pushes or pops a dictionary there, so the current dictionary
    of [def] and [load], and of the lookup of bare tokens, stays the one it
    was. *)
Theorem dictionary_stack_is_fixed (fuel : nat) (program : string)
    (st st' : PSInterpreter) :
  execute fuel program st = Done st' ->
  dictionaryStack_ st' = dictionaryStack_ st
  /\ getCurrentDictionary st' = getCurrentDictionary st.
Proof.
  intros Hrun. apply execute_evolves in Hrun as [Hd _].
  unfold getCurrentDictionary. rewrite Hd. split; reflexivity.
Qed.

(** X19. Running a program never frees or retypes an object of the store:
    every handle stays valid, an Integer, Real, String, Boolean, Procedure
    or Null object keeps its value for good, an array keeps its length and
    a dictionary keeps its keys. *)
Theorem store_objects_are_stable (fuel : nat) (program : string)
    (st st' : PSInterpreter) (p : PSObjectPtr) (o : PSObject) :
  execute fuel program st = Done st' ->
  heap st !! p = Some o ->
  exists o' : PSObject,
    heap st' !! p = Some o'
    /\ stable o o'
    /\ getType o' = getType o
    /\ (getType o <> ARRAY -> getType o <> DICTIONARY -> o' = o).
Proof.
  intros Hrun Hp. apply execute_evolves in Hrun as [_ Hh].
  destruct (Hh p o Hp) as (o' & Hp' & Hstable).
  exists o'. split; [exact Hp' |]. split; [exact Hstable |].
  destruct o; simpl in Hstable;
    try (subst o'; split; [reflexivity | intros _ _; reflexivity]).
  - destruct Hstable as (v' & -> & _). split; [reflexivity | intros Hne; contradiction].
  - destruct Hstable as (d' & -> & _).
    split; [reflexivity | intros _ Hne; contradiction].
Qed.

End Store.

(** ** Printing and reading back *)

Lemma read_digits_uint (d : Decimal.uint) :
  forall (acc : Z) (n : nat),
    read_digits (NilEmpty.string_of_uint d) acc n
    = (digits_value d acc, (n + Decimal.nb_digits d)%nat).
Proof.
  induction d; intros acc n; simpl;
    try (rewrite IHd;
         match goal with
         | |- context [digit_value ?c] =>
             let v := eval vm_compute in (digit_value c) in
             change (digit_value c) with v
         end;
         apply pair_equal_spec; split; [apply (f_equal (digits_value d)); lia | lia]).
  f_equal. lia.
Qed.

Lemma digits_value_acc (d : Decimal.uint) :
  forall acc : positive, Z.pos (Pos.of_uint_acc d acc) = digits_value d (Z.pos acc).
Proof.
  induction d; intros acc; simpl; try (rewrite IHd; f_equal; lia). reflexivity.
Qed.

Lemma digits_value_of_uint (d : Decimal.uint) :
  Z.of_N (Pos.of_uint d) = digits_value d 0.
Proof.
  induction d; simpl; try exact IHd; try (rewrite digits_value_acc; reflexivity).
  reflexivity.
Qed.

Lemma digits_of_positive (p : positive) : digits_value (Pos.to_uint p) 0 = Z.pos p.
Proof.
  rewrite <- digits_value_of_uint, DecimalPos.Unsigned.of_to. reflexivity.
Qed.

Lemma uint_first_char (d : Decimal.uint) :
  d <> Decimal.Nil ->
  exists (c : ascii) (rest : string),
    NilEmpty.string_of_uint d = String c rest /\ isdigit c = true.
Proof.
  intros Hd. destruct d; [contradiction | ..]; simpl; eexists; eexists; split; reflexivity.
Qed.

Lemma uint_has_no_dot (d : Decimal.uint) : has_dot (NilEmpty.string_of_uint d) = false.
Proof. induction d; simpl; [reflexivity | ..]; exact IHd. Qed.

Lemma nb_digits_positive (d : Decimal.uint) :
  d <> Decimal.Nil -> (0 < Decimal.nb_digits d)%nat.
Proof. destruct d; [contradiction | ..]; simpl; lia. Qed.

Lemma stoi_digits (d : Decimal.uint) :
  d <> Decimal.Nil ->
  stoi (NilEmpty.string_of_uint d)
  = if in_int (digits_value d 0) then Some (digits_value d 0) else None.
Proof.
  intros Hd. destruct (uint_first_char d Hd) as (c & rest & Htext & Hdigit).
  pose proof (read_digits_uint d 0 0) as Hread.
  pose proof (nb_digits_positive d Hd) as Hn.
  unfold stoi. rewrite Htext in *.
  assert (Hspace : skip_spaces (String c rest) = String c rest).
  { simpl. destruct c as [[] [] [] [] [] [] [] []]; try discriminate Hdigit; reflexivity. }
  rewrite Hspace.
  assert (Hsign : (match String c rest with
                   | String "-"%char tail => (true, tail)
                   | String "+"%char tail => (false, tail)
                   | _ => (false, String c rest)
                   end) = (false, String c rest)).
  { destruct c as [[] [] [] [] [] [] [] []]; try discriminate Hdigit; reflexivity. }
  rewrite Hsign, Hread.
  destruct (0 + Decimal.nb_digits d)%nat eqn:Hcount; [lia | reflexivity].
Qed.

(** Reading back what [std::to_string] printed. *)
Lemma stoi_to_string (v : Z) : in_int v = true -> stoi (to_string v) = Some v.
Proof.
  intros Hv. unfold to_string. destruct v as [| p | p]; [reflexivity | |].
  - assert (Hd := DecimalPos.Unsigned.to_uint_nonnil p).
    change (Z.to_int (Z.pos p)) with (Decimal.Pos (Pos.to_uint p)).
    unfold NilZero.string_of_int, NilZero.string_of_uint.
    destruct (Pos.to_uint p) eqn:Hu; [contradiction | ..];
      rewrite <- Hu in *; rewrite (stoi_digits _ Hd), digits_of_positive, Hv; reflexivity.
  - assert (Hd := DecimalPos.Unsigned.to_uint_nonnil p).
    change (Z.to_int (Z.neg p)) with (Decimal.Neg (Pos.to_uint p)).
    unfold NilZero.string_of_int, NilZero.string_of_uint.
    assert (Htext : (match Pos.to_uint p with
                     | Decimal.Nil => "0"
                     | _ => NilEmpty.string_of_uint (Pos.to_uint p)
                     end) = NilEmpty.string_of_uint (Pos.to_uint p))
      by (destruct (Pos.to_uint p); [contradiction | ..]; reflexivity).
    rewrite Htext.
    pose proof (read_digits_uint (Pos.to_uint p) 0 0) as Hread.
    pose proof (nb_digits_positive _ Hd) as Hn.
    unfold stoi. simpl skip_spaces. cbv iota beta. rewrite Hread.
    destruct (0 + Decimal.nb_digits (Pos.to_uint p))%nat eqn:Hcount; [lia |].
    rewrite digits_of_positive. change (- Z.pos p) with (Z.neg p). rewrite Hv. reflexivity.
Qed.

Lemma to_string_first_char (v : Z) :
  exists (c : ascii) (rest : string),
    to_string v = String c rest
    /\ (isdigit c = true \/ c = "-"%char).
Proof.
  unfold to_string. destruct v as [| p | p].
  - exists "0"%char, "". split; [reflexivity | left; reflexivity].
  - assert (Hd := DecimalPos.Unsigned.to_uint_nonnil p).
    change (Z.to_int (Z.pos p)) with (Decimal.Pos (Pos.to_uint p)).
    destruct (uint_first_char _ Hd) as (c & rest & Htext & Hdigit).
    exists c, rest. split; [| left; exact Hdigit].
    unfold NilZero.string_of_int, NilZero.string_of_uint.
    destruct (Pos.to_uint p); [contradiction | ..]; exact Htext.
  - change (Z.to_int (Z.neg p)) with (Decimal.Neg (Pos.to_uint p)).
    eexists "-"%char, _. split; [reflexivity | right; reflexivity].
Qed.

Lemma to_string_has_no_dot (v : Z) : has_dot (to_string v) = false.
Proof.
  unfold to_string. destruct v as [| p | p]; [reflexivity | |].
  - change (Z.to_int (Z.pos p)) with (Decimal.Pos (Pos.to_uint p)).
    unfold NilZero.string_of_int, NilZero.string_of_uint.
    destruct (Pos.to_uint p) eqn:Hu; [reflexivity | ..];
      rewrite <- Hu; apply uint_has_no_dot.
  - change (Z.to_int (Z.neg p)) with (Decimal.Neg (Pos.to_uint p)).
    unfold NilZero.string_of_int, NilZero.string_of_uint.
    destruct (Pos.to_uint p) eqn:Hu; [reflexivity | ..];
      rewrite <- Hu; apply uint_has_no_dot.
Qed.

Section ReadingBack.
Context `{LibC}.
Variable print_double : float -> string.

Lemma integer_token_is_pushed (fuel : nat) (v : Z) (st : PSInterpreter) :
  in_int v = true ->
  lookup_procedure (to_string v) st = Done None ->
  executeToken (S fuel) (to_string v) st = Done (Operators.push_new (PSInteger v) st).
Proof.
  intros Hv Hlook.
  destruct (to_string_first_char v) as (c & rest & Htext & Hc).
  rewrite executeToken_step.
  rewrite bool_decide_eq_false_2 by (rewrite Htext; discriminate).
  assert (Hop : getOperator (to_string v) = None).
  { apply (not_registered (to_string v) c); [rewrite Htext; reflexivity |].
    destruct Hc as [Hdigit | ->]; [| reflexivity].
    destruct c as [[] [] [] [] [] [] [] []]; try discriminate Hdigit; reflexivity. }
  assert (Hslash : is_char (first_char (to_string v)) "/" = false).
  { rewrite Htext. simpl. destruct Hc as [Hdigit | ->]; [| reflexivity].
    destruct c as [[] [] [] [] [] [] [] []]; try discriminate Hdigit; reflexivity. }
  rewrite Hop, Hslash, andb_false_r, Hlook. simpl.
  unfold execute_number_or_literal.
  rewrite to_string_has_no_dot, (stoi_to_string v Hv). reflexivity.
Qed.

(** X20. An Integer object read back from its own printed form: the
    text that [toString] gives for the Integer [v], executed as a token
    that the current dictionary does not bind to a procedure, pushes a new
    Integer object that holds [v] again. *)
Theorem integer_prints_and_reads_back (fuel : nat) (h : list PSObject) (v : Z)
    (st : PSInterpreter) :
  in_int v = true ->
  lookup_procedure (to_string v) st = Done None ->
  toString print_double 1 h (PSInteger v) = Some (to_string v)
  /\ stoi (to_string v) = Some v
  /\ executeToken (S fuel) (to_string v) st
     = Done (Operators.push_new (PSInteger v) st).
Proof.
  intros Hv Hlook. split; [reflexivity |]. split; [apply stoi_to_string; exact Hv |].
  apply integer_token_is_pushed; assumption.
Qed.

(** X21. A Procedure object read back from its own printed form: for a
    procedure whose tokens are plain words, the text that [toString] gives
    is [{], the tokens with one space between neighbours, and [}]; executed
    as a token that the current dictionary does not bind to a procedure, it
    pushes a new Procedure object with the same tokens. *)
Theorem procedure_prints_and_reads_back (fuel : nat) (h : list PSObject)
    (proc : list string) (st : PSInterpreter) :
  Forall (fun w => plain_word w = true) proc ->
  lookup_procedure ("{" +:+ join " " proc +:+ "}") st = Done None ->
  stod ("{" +:+ join " " proc +:+ "}") = None ->
  toString print_double 1 h (PSProcedure proc) = Some ("{" +:+ join " " proc +:+ "}")
  /\ executeToken (S fuel) ("{" +:+ join " " proc +:+ "}") st
     = Done (Operators.push_new (PSProcedure proc) st).
Proof.
  intros Hproc Hlook Hstod. split; [reflexivity |].
  rewrite executeToken_step.
  rewrite bool_decide_eq_false_2 by discriminate.
  rewrite (not_registered ("{" +:+ join " " proc +:+ "}") "{" eq_refl eq_refl).
  change (is_char (first_char ("{" +:+ join " " proc +:+ "}")) "/") with false.
  rewrite andb_false_r, Hlook. simpl.
  rewrite (braces_are_a_procedure _ _ _ Hstod).
  unfold PSParser.tokenize, PSParser.lexer0.
  rewrite (scan_join " " proc 0 0 0 eq_refl Hproc []). reflexivity.
Qed.

End ReadingBack.

(** ** Content streams *)

Lemma all_chars_append (p : ascii -> bool) (s t : string) :
  all_chars p (s +:+ t) = (all_chars p s && all_chars p t)%bool.
Proof.
  induction s as [| c s IH]; [reflexivity |].
  rewrite append_cons. simpl. rewrite IH, andb_assoc. reflexivity.
Qed.

Lemma append_first_char (s t : string) (c : ascii) (rest : string) :
  s = String c rest -> s +:+ t = String c (rest +:+ t).
Proof. intros ->. reflexivity. Qed.

(** What [read_stream] has in hand between two characters: complete tokens,
    and a token in progress without white space. *)
Lemma read_stream_words (input : string) :
  forall (tokens : list string) (token : string) (skipping : bool),
    Forall (fun t => stream_word t = true) tokens ->
    all_chars (fun d => negb (isspace d)) token = true ->
    Forall (fun t => stream_word t = true)
      (ContentStream.read_stream input tokens token skipping).
Proof.
  assert (Hdone : forall (tokens : list string) (token : string),
             Forall (fun t => stream_word t = true) tokens ->
             all_chars (fun d => negb (isspace d)) token = true ->
             Forall (fun t => stream_word t = true)
               (match token with
                | EmptyString => tokens
                | String "%"%char _ => tokens
                | _ => tokens ++ [token]
                end)).
  { intros tokens token Htokens Htoken.
    destruct token as [| c token]; [exact Htokens |].
    destruct (Ascii.eqb c "%") eqn:Hc.
    - apply Ascii.eqb_eq in Hc. subst c. exact Htokens.
    - assert (Hword : stream_word (String c token) = true)
        by (unfold stream_word; rewrite Hc; exact Htoken).
      destruct c as [[] [] [] [] [] [] [] []];
        first [ discriminate Hc
              | apply Forall_app; split; [exact Htokens | constructor; [exact Hword | constructor]] ]. }
  induction input as [| c rest IH]; intros tokens token skipping Htokens Htoken.
  - apply Hdone; assumption.
  - simpl. destruct skipping; [apply IH; [exact Htokens | reflexivity] |].
    destruct (isspace c) eqn:Hspace.
    + destruct token as [| d token]; [apply IH; [exact Htokens | reflexivity] |].
      destruct (Ascii.eqb d "%") eqn:Hd.
      * apply Ascii.eqb_eq in Hd. subst d. apply IH; [exact Htokens | reflexivity].
      * assert (Hword : stream_word (String d token) = true)
          by (unfold stream_word; rewrite Hd; exact Htoken).
        destruct d as [[] [] [] [] [] [] [] []];
          first [ discriminate Hd
                | apply IH;
                  [ apply Forall_app; split;
                    [exact Htokens | constructor; [exact Hword | constructor]]
                  | reflexivity ] ].
    + apply IH; [exact Htokens |].
      rewrite all_chars_append, Htoken. simpl. rewrite Hspace. reflexivity.
Qed.

Lemma read_word (w : string) :
  forall (rest : string) (tokens : list string) (token : string),
    all_chars (fun d => negb (isspace d)) w = true ->
    ContentStream.read_stream (w +:+ rest) tokens token false
    = ContentStream.read_stream rest tokens (token +:+ w) false.
Proof.
  induction w as [| c w IH]; intros rest tokens token Hw.
  - rewrite append_empty. reflexivity.
  - simpl in Hw. apply andb_true_iff in Hw as [Hc Hw].
    rewrite append_cons. simpl. apply negb_true_iff in Hc. rewrite Hc.
    rewrite IH by exact Hw. rewrite append_char_assoc. reflexivity.
Qed.

Lemma read_joined_words (ws : list string) :
  Forall (fun w => stream_word w = true) ws ->
  forall tokens : list string,
    ContentStream.read_stream (join " " ws) tokens "" false = (tokens ++ ws)%list.
Proof.
  induction 1 as [| w rest Hw Hrest IH]; intros tokens.
  - simpl. rewrite app_nil_r. reflexivity.
  - destruct w as [| c w]; [discriminate Hw |].
    unfold stream_word in Hw. apply andb_true_iff in Hw as [Hc Hchars].
    apply negb_true_iff in Hc.
    destruct rest as [| w2 rest].
    + cbn [join]. rewrite <- (append_empty (String c w)) at 1.
      rewrite read_word by exact Hchars. change ("" +:+ String c w) with (String c w).
      simpl. destruct c as [[] [] [] [] [] [] [] []]; first [discriminate Hc | reflexivity].
    + change (join " " (String c w :: w2 :: rest))
        with (String c w +:+ String " " (join " " (w2 :: rest))).
      rewrite read_word by exact Hchars. change ("" +:+ String c w) with (String c w).
      change (ContentStream.read_stream (String " " (join " " (w2 :: rest))) tokens
                (String c w) false)
        with (match String c w with
              | EmptyString =>
                  ContentStream.read_stream (join " " (w2 :: rest)) tokens "" false
              | String "%"%char _ =>
                  ContentStream.read_stream (join " " (w2 :: rest)) tokens "" true
              | _ =>
                  ContentStream.read_stream (join " " (w2 :: rest))
                    (tokens ++ [String c w]) "" false
              end).
      replace (tokens ++ String c w :: w2 :: rest)%list
        with ((tokens ++ [String c w]) ++ w2 :: rest)%list
        by (rewrite <- app_assoc; reflexivity).
      rewrite <- IH.
      destruct c as [[] [] [] [] [] [] [] []]; first [discriminate Hc | reflexivity].
Qed.

Lemma read_comment (comment : string) :
  forall (rest : string) (tokens : list string) (token : string) (skipping : bool),
    all_chars (fun d => negb (Ascii.eqb d PSParser.newline)) comment = true ->
    (skipping = true \/ exists tail : string, token = String "%" tail) ->
    ContentStream.read_stream (comment +:+ String PSParser.newline rest) tokens token skipping
    = ContentStream.read_stream rest tokens "" false.
Proof.
  induction comment as [| c comment IH]; intros rest tokens token skipping Hline Hstate.
  - change ("" +:+ String PSParser.newline rest) with (String PSParser.newline rest).
    destruct skipping; [reflexivity |].
    destruct Hstate as [Hskip | (tail & ->)]; [discriminate Hskip | reflexivity].
  - simpl in Hline. apply andb_true_iff in Hline as [Hc Hline].
    rewrite append_cons. cbn [ContentStream.read_stream].
    destruct skipping.
    + rewrite Hc. apply IH; [exact Hline | left; reflexivity].
    + destruct Hstate as [Hskip | (tail & ->)]; [discriminate Hskip |].
      destruct (isspace c).
      * rewrite Hc. apply IH; [exact Hline | left; reflexivity].
      * apply IH; [exact Hline | right]. eexists. reflexivity.
Qed.

(** X22. No token of a content stream is empty, holds white space or
    starts with [%]. Words without white space that do not start with [%],
    written with one space between neighbours, come back as they are, a [%]
    inside a word included; and a token that starts with [%] is dropped
    together with the rest of its line. *)
Theorem content_stream_tokens (streamData comment : string) (ws : list string) :
  Forall (fun w => stream_word w = true) ws ->
  all_chars (fun d => negb (Ascii.eqb d PSParser.newline)) comment = true ->
  Forall (fun t => stream_word t = true) (ContentStream.parseContentStream streamData)
  /\ ContentStream.parseContentStream (join " " ws) = ws
  /\ ContentStream.parseContentStream
       ("%" +:+ comment +:+ String PSParser.newline streamData)
     = ContentStream.parseContentStream streamData.
Proof.
  intros Hws Hline. split; [| split].
  - apply read_stream_words; [constructor | reflexivity].
  - apply (read_joined_words ws Hws []).
  - unfold ContentStream.parseContentStream.
    change ("%" +:+ comment +:+ String PSParser.newline streamData)
      with (String "%" (comment +:+ String PSParser.newline streamData)).
    change (ContentStream.read_stream
              (String "%" (comment +:+ String PSParser.newline streamData)) [] "" false)
      with (ContentStream.read_stream (comment +:+ String PSParser.newline streamData)
              [] "%" false).
    apply read_comment; [exact Hline | right]. eexists. reflexivity.
Qed.

Lemma content_stream_tokens_example :
  Forall (fun t => stream_word t = true)
    (ContentStream.parseContentStream "10 20 m 30 40 l S")
  /\ ContentStream.parseContentStream (join " " ["0.5"; "w"; "50%gray"]) = ["0.5"; "w"; "50%gray"]
  /\ ContentStream.parseContentStream
       ("%" +:+ " a comment" +:+ String PSParser.newline "10 20 m 30 40 l S")
     = ContentStream.parseContentStream "10 20 m 30 40 l S".
Proof.
  apply (content_stream_tokens "10 20 m 30 40 l S" " a comment" ["0.5"; "w"; "50%gray"]).
  - repeat constructor.
  - reflexivity.
Defined.

Lemma plain_is_stream_word (w : string) : plain_word w = true -> stream_word w = true.
Proof.
  intros Hw. destruct w as [| c w]; [discriminate Hw |].
  unfold plain_word in Hw. unfold stream_word.
  assert (Hall : forall s : string,
             all_chars plain_char s = true ->
             all_chars (fun d => negb (isspace d)) s = true).
  { induction s as [| d s IH]; [reflexivity |]. simpl. intros Hs.
    apply andb_true_iff in Hs as [Hd Hs]. rewrite (IH Hs), andb_true_r.
    destruct d as [[] [] [] [] [] [] [] []]; first [discriminate Hd | reflexivity]. }
  rewrite (Hall _ Hw), andb_true_r.
  simpl in Hw. apply andb_true_iff in Hw as [Hc _].
  destruct c as [[] [] [] [] [] [] [] []]; first [discriminate Hc | reflexivity].
Qed.

Lemma renamed_is_plain (w : string) : plain_word w = true -> plain_word (renamed w) = true.
Proof.
  intros Hw. unfold renamed.
  destruct (ContentStream.operatorMap !! w) as [ps |] eqn:Hlook; [| exact Hw].
  destruct (bool_decide (ps = "")); [exact Hw |].
  apply elem_of_list_to_map_2 in Hlook.
  assert (Hall : Forall (fun entry : string * string => plain_word entry.2 = true)
                   ContentStream.operatorMap_entries)
    by (unfold ContentStream.operatorMap_entries; repeat constructor).
  apply (proj1 (Forall_forall _ _) Hall _ Hlook).
Qed.

Lemma execute_tokens_renamed (exec : executor) (tokens : list string) :
  forall st : PSInterpreter,
    ContentStream.execute_tokens exec tokens st
    = Operators.run_tokens exec (map renamed tokens) st.
Proof.
  induction tokens as [| token tokens IH]; intros st; [reflexivity |].
  cbn [ContentStream.execute_tokens map Operators.run_tokens].
  assert (Hhead : (if negb (bool_decide (ContentStream.mapPDFOperatorToPS token = ""))
                   then exec (ContentStream.mapPDFOperatorToPS token) st
                   else exec token st) = exec (renamed token) st).
  { unfold ContentStream.mapPDFOperatorToPS, renamed.
    destruct (ContentStream.operatorMap !! token) as [ps |].
    - destruct (bool_decide (ps = "")); reflexivity.
    - reflexivity. }
  rewrite Hhead. destruct (exec (renamed token) st); simpl; [apply IH | reflexivity ..].
Qed.

Section ContentStreams.
Context `{LibC}.

(** X23. A content stream of plain words with one space between
    neighbours runs as the PostScript program in which each PDF operator of
    the operator map is replaced by its PostScript name and every other
    token (numbers, names, unmapped words) stays as it is. *)
Theorem content_stream_is_renamed_program (fuel : nat) (tokens : list string)
    (st : PSInterpreter) :
  Forall (fun w => plain_word w = true) tokens ->
  ContentStream.executeContentStream fuel (join " " tokens) st
  = execute fuel (join " " (map renamed tokens)) st.
Proof.
  intros Htokens.
  unfold ContentStream.executeContentStream, ContentStream.parseContentStream, execute,
    PSParser.parse, PSParser.tokenize, PSParser.lexer0.
  rewrite (read_joined_words tokens); [| eapply Forall_impl; [exact Htokens |];
                                          intros w; apply plain_is_stream_word].
  rewrite (scan_join " " (map renamed tokens) 0 0 0 eq_refl); [| apply Forall_fmap;
    eapply Forall_impl; [exact Htokens |]; intros w; apply renamed_is_plain].
  apply execute_tokens_renamed.
Qed.

Lemma letters_have_no_dot (w : string) :
  all_chars lower_case w = true -> has_dot w = false.
Proof.
  induction w as [| c w IH]; [reflexivity |]. simpl. intros Hw.
  apply andb_true_iff in Hw as [Hc Hw]. rewrite (IH Hw).
  destruct c as [[] [] [] [] [] [] [] []]; first [discriminate Hc | reflexivity].
Qed.

Lemma unknown_word_is_pushed (fuel : nat) (c : ascii) (w : string) (st : PSInterpreter) :
  all_chars lower_case (String c w) = true ->
  String c w <> "true" -> String c w <> "false" ->
  getOperator (String c w) = None ->
  lookup_procedure (String c w) st = Done None ->
  executeToken (S fuel) (String c w) st
  = Done (Operators.push_new (PSString (String c w)) st).
Proof.
  intros Hletters Htrue Hfalse Hop Hlook.
  pose proof (letters_have_no_dot _ Hletters) as Hdot.
  simpl in Hletters. apply andb_true_iff in Hletters as [Hc _].
  rewrite executeToken_step.
  rewrite bool_decide_eq_false_2 by discriminate.
  rewrite Hop.
  assert (Hslash : is_char (first_char (String c w)) "/" = false)
    by (destruct c as [[] [] [] [] [] [] [] []]; first [discriminate Hc | reflexivity]).
  rewrite Hslash, andb_false_r, Hlook. simpl.
  unfold execute_number_or_literal. rewrite Hdot.
  assert (Hstoi : stoi (String c w) = None)
    by (destruct c as [[] [] [] [] [] [] [] []]; first [discriminate Hc | reflexivity]).
  rewrite Hstoi. unfold execute_literal.
  rewrite (not_enclosed_other 2 "(" ")" c "(") by (try reflexivity; intros ->; discriminate Hc).
  rewrite (not_enclosed_other 2 "[" "]" c "[") by (try reflexivity; intros ->; discriminate Hc).
  rewrite (not_enclosed_other 4 "<<" ">>" c "<") by (try reflexivity; intros ->; discriminate Hc).
  rewrite (not_enclosed_other 2 "{" "}" c "{") by (try reflexivity; intros ->; discriminate Hc).
  rewrite (bool_decide_eq_false_2 _ Htrue), (bool_decide_eq_false_2 _ Hfalse).
  reflexivity.
Qed.

(** X24. A PDF operator whose PostScript name in the operator map is not
    a registered operator is not refused: unless the current dictionary
    binds that name to a procedure, the name is pushed as a new String
    object on top of the operands, which stay on the stack. This is so for
    34 of the 53 entries of the map, among them [c], [re], [cm] and [Tf]. *)
Theorem unimplemented_operator_is_pushed (fuel : nat) (pdfOperator psOperator : string)
    (st : PSInterpreter) :
  ContentStream.operatorMap !! pdfOperator = Some psOperator ->
  hasOperator psOperator = false ->
  lookup_procedure psOperator st = Done None ->
  ContentStream.execute_tokens (executeToken (S fuel)) [pdfOperator] st
  = Done (Operators.push_new (PSString psOperator) st)
  /\ stack_ (Operators.push_new (PSString psOperator) st)
     = length (heap st) :: stack_ st
  /\ (filter (fun entry : string * string => negb (hasOperator entry.2))
        ContentStream.operatorMap_entries).*1
     = ["c"; "f*"; "F*"; "W"; "W*"; "cm"; "J"; "j"; "M"; "d"; "ri"; "i";
        "gs"; "g"; "G"; "k"; "K"; "BT"; "ET"; "Tm"; "T*"; "Tc"; "Tw"; "Tz";
        "TL"; "Tf"; "Tr"; "Ts"; "re"; "MP"; "DP"; "BMC"; "EMC"; "BDC"].
Proof.
  intros Hmap Hop Hlook. split; [| split; [reflexivity | vm_compute; reflexivity]].
  assert (Hnone : getOperator psOperator = None).
  { unfold hasOperator in Hop. apply bool_decide_eq_false_1 in Hop.
    unfold getOperator. destruct (OperatorRegistry !! psOperator) eqn:Hreg;
      [exfalso; apply Hop; eexists; reflexivity | reflexivity]. }
  assert (Hall : Forall (fun entry : string * string =>
                           all_chars lower_case entry.2 = true
                           /\ entry.2 <> "" /\ entry.2 <> "true" /\ entry.2 <> "false")
                   ContentStream.operatorMap_entries)
    by (unfold ContentStream.operatorMap_entries;
        repeat (constructor; [repeat split; discriminate |]); constructor).
  pose proof (elem_of_list_to_map_2 _ _ _ Hmap) as Hin.
  destruct (proj1 (Forall_forall _ _) Hall _ Hin) as (Hletters & Hne & Htrue & Hfalse).
  simpl in Hletters, Hne, Htrue, Hfalse.
  cbn [ContentStream.execute_tokens]. unfold ContentStream.mapPDFOperatorToPS. rewrite Hmap.
  rewrite (bool_decide_eq_false_2 _ Hne). cbn [negb].
  destruct psOperator as [| c w]; [contradiction |].
  rewrite (unknown_word_is_pushed fuel c w st Hletters Htrue Hfalse Hnone Hlook).
  reflexivity.
Qed.

End ContentStreams.

(** ** Saved graphics states *)

Lemma outcome_bind_assoc {A B C : Type} (m : outcome A) (f : A -> outcome B)
    (g : B -> outcome C) :
  ((m ≫= f) ≫= g) = (m ≫= fun a => f a ≫= g).
Proof. destruct m; reflexivity. Qed.

Lemma times_snoc (n : nat) (f : PSInterpreter -> outcome PSInterpreter) :
  forall st : PSInterpreter, times (S n) f st = (times n f st ≫= f).
Proof.
  induction n as [| n IH]; intros st.
  - simpl. destruct (f st); reflexivity.
  - change (times (S (S n)) f st) with (f st ≫= times (S n) f).
    change (times (S n) f st) with (f st ≫= times n f).
    rewrite outcome_bind_assoc. destruct (f st) as [st1 | |]; simpl; [| reflexivity ..].
    apply IH.
Qed.

Lemma times_gsave_depth (n : nat) :
  forall st : PSInterpreter,
    graphicsStack_ st <> [] ->
    exists st1 : PSInterpreter,
      times n Operators.gsave st = Done st1
      /\ length (graphicsStack_ st1) = (n + length (graphicsStack_ st))%nat.
Proof.
  induction n as [| n IH]; intros st Hg.
  - exists st. split; reflexivity.
  - destruct (graphicsStack_ st) as [| gs rest] eqn:Hgs; [contradiction |].
    destruct (gsave_grestore st gs rest Hgs) as [Hsave _].
    destruct (IH (with_graphics (gs :: gs :: rest) st)) as (st1 & Hrun & Hdepth);
      [discriminate |].
    exists st1. split.
    + simpl. rewrite Hsave. exact Hrun.
    + rewrite Hdepth. simpl. lia.
Qed.

(** X25. [gsave] repeated [n] times and then [grestore] repeated [n]
    times brings the interpreter back to the state it started from, with a
    graphics stack that was [n] states deeper in between; and [grestore]
    never removes the last graphics state: at depth one it throws and
    changes nothing. *)
Theorem gsave_grestore_nested (n : nat) (st : PSInterpreter) :
  graphicsStack_ st <> [] ->
  (times n Operators.gsave st ≫= times n Operators.grestore) = Done st
  /\ (exists st1 : PSInterpreter,
        times n Operators.gsave st = Done st1
        /\ length (graphicsStack_ st1) = (n + length (graphicsStack_ st))%nat)
  /\ (length (graphicsStack_ st) = 1%nat ->
      Operators.grestore st = Throw "Graphics state stack underflow").
Proof.
  intros Hg. split; [| split].
  - revert st Hg. induction n as [| n IH]; intros st Hg; [reflexivity |].
    destruct (graphicsStack_ st) as [| gs rest] eqn:Hgs; [contradiction |].
    destruct (gsave_grestore st gs rest Hgs) as [Hsave Hrestore].
    change (times (S n) Operators.gsave st)
      with (Operators.gsave st ≫= times n Operators.gsave).
    rewrite Hsave.
    change (Done (with_graphics (gs :: gs :: rest) st) ≫= times n Operators.gsave)
      with (times n Operators.gsave (with_graphics (gs :: gs :: rest) st)).
    assert (Hsplit : forall s : PSInterpreter,
               times (S n) Operators.grestore s
               = (times n Operators.grestore s ≫= Operators.grestore))
      by (intros s; apply times_snoc).
    destruct (times n Operators.gsave (with_graphics (gs :: gs :: rest) st))
      as [st1 | what |] eqn:Hrun.
    + specialize (IH (with_graphics (gs :: gs :: rest) st) ltac:(discriminate)).
      rewrite Hrun in IH.
      change (times n Operators.grestore st1
              = Done (with_graphics (gs :: gs :: rest) st)) in IH.
      change (times (S n) Operators.grestore st1 = Done st).
      rewrite Hsplit, IH. exact Hrestore.
    + specialize (IH (with_graphics (gs :: gs :: rest) st) ltac:(discriminate)).
      rewrite Hrun in IH. discriminate IH.
    + specialize (IH (with_graphics (gs :: gs :: rest) st) ltac:(discriminate)).
      rewrite Hrun in IH. discriminate IH.
  - apply times_gsave_depth. exact Hg.
  - intros Hdepth. unfold Operators.grestore.
    destruct (decide _) as [| Hlong]; [reflexivity | lia].
Qed.

Lemma gsave_grestore_nested_example :
  (times 3 Operators.gsave (new_interpreter []) ≫= times 3 Operators.grestore) = Done (new_interpreter [])
  /\ (exists st1 : PSInterpreter,
        times 3 Operators.gsave (new_interpreter []) = Done st1
        /\ length (graphicsStack_ st1) = (3 + length (graphicsStack_ (new_interpreter [])))%nat)
  /\ (length (graphicsStack_ (new_interpreter [])) = 1%nat ->
      Operators.grestore (new_interpreter []) = Throw "Graphics state stack underflow").
Proof.
  apply (gsave_grestore_nested 3 (new_interpreter [])). discriminate.
Defined.

(** The steps that the operators are made of. *)

Lemma same_saved_refl (st : PSInterpreter) : same_saved st st.
Proof. split; reflexivity. Qed.

Lemma same_saved_trans (st1 st2 st3 : PSInterpreter) :
  same_saved st1 st2 -> same_saved st2 st3 -> same_saved st1 st3.
Proof. intros [Hl12 Ht12] [Hl23 Ht23]. split; congruence. Qed.

Lemma same_saved_step (st X Y : PSInterpreter) :
  graphicsStack_ Y = graphicsStack_ X -> same_saved st X -> same_saved st Y.
Proof. intros Hg [Hl Ht]. split; rewrite Hg; assumption. Qed.

Lemma same_saved_set_current (st X : PSInterpreter) (gs gs' : GraphicsState) :
  Operators.getCurrentGraphicsState X = Done gs ->
  same_saved st X -> same_saved st (Operators.setCurrentGraphicsState gs' X).
Proof.
  unfold Operators.getCurrentGraphicsState. intros Hcur [Hl Ht].
  destruct (graphicsStack_ X) as [| g rest] eqn:Hg; [discriminate Hcur |].
  split; simpl; rewrite Hg; assumption.
Qed.

Ltac saved :=
  repeat first
    [ assumption
    | lazymatch goal with
      | |- same_saved ?st ?st => apply same_saved_refl
      | |- same_saved _ (PSStack.push _ ?X) => apply (same_saved_step _ X); [reflexivity |]
      | |- same_saved _ (Operators.push_new _ ?X) =>
          apply (same_saved_step _ X); [reflexivity |]
      | |- same_saved _ (with_stack _ ?X) => apply (same_saved_step _ X); [reflexivity |]
      | |- same_saved _ (with_heap _ ?X) => apply (same_saved_step _ X); [reflexivity |]
      | |- same_saved _ (assign _ _ ?X) => apply (same_saved_step _ X); [reflexivity |]
      | |- same_saved _ (PSStack.clear ?X) => apply (same_saved_step _ X); [reflexivity |]
      | |- same_saved _ (Operators.push_all _ ?X) =>
          apply (same_saved_step _ X); [apply graphics_push_all |]
      | |- same_saved _ (Operators.setCurrentGraphicsState _ _) =>
          eapply same_saved_set_current; [eassumption |]
      end
    | match goal with
      | Hs : Operators.pop_obj _ = Done (_, _, ?Y) |- same_saved _ ?Y =>
          apply (same_saved_step _ _ _ (graphics_pop_obj _ _ _ _ Hs))
      | Hs : PSStack.pop _ = Done (_, ?Y) |- same_saved _ ?Y =>
          apply (same_saved_step _ _ _ (graphics_pop _ _ _ Hs))
      | Hs : PSStack.dup _ = Done ?Y |- same_saved _ ?Y =>
          apply (same_saved_step _ _ _ (graphics_dup _ _ Hs))
      | Hs : PSStack.exch _ = Done ?Y |- same_saved _ ?Y =>
          apply (same_saved_step _ _ _ (graphics_exch _ _ Hs))
      end ].

Ltac saved_plain :=
  let st := fresh "st" in
  let st' := fresh "st'" in
  let Hrun := fresh "Hrun" in
  intros st st' Hrun;
  cbv beta iota zeta delta
    [Operators.add Operators.sub Operators.mul Operators.div
     Operators.binary_arith Operators.dup Operators.pop Operators.exch
     Operators.clear Operators.stack Operators.show Operators.eq Operators.ne
     Operators.lt Operators.le Operators.gt Operators.ge Operators.binary_compare
     Operators.array Operators.get Operators.put Operators.length Operators.aload
     Operators.dict Operators.def Operators.load Operators.store Operators.known
     Operators.keys
     Operators.moveto Operators.lineto Operators.point_operator
     Operators.closepath Operators.stroke Operators.fill Operators.newpath
     Operators.clear_path Operators.translate
     Operators.scale Operators.rotate Operators.setrgbcolor Operators.setlinewidth
     Operators.showpage] in Hrun;
  split_run Hrun;
  solve [saved].

Lemma astore_loop_same_saved (i : nat) (arrayPtr : PSObjectPtr) :
  forall st st' : PSInterpreter,
    Operators.astore_loop i arrayPtr st = Done st' -> same_saved st st'.
Proof.
  induction i as [| i IH]; intros st st' Hrun; simpl in Hrun.
  - injection Hrun as <-. apply same_saved_refl.
  - split_run Hrun.
    eapply same_saved_trans; [| apply (IH _ _ Hrun)]. saved.
Qed.

Lemma astore_same_saved (st st' : PSInterpreter) :
  Operators.astore st = Done st' -> same_saved st st'.
Proof.
  intros Hrun. unfold Operators.astore in Hrun. split_run Hrun.
  match goal with
  | |- same_saved _ (PSStack.push _ ?X) => apply (same_saved_step _ X); [reflexivity |]
  end.
  eapply same_saved_trans; [| eapply astore_loop_same_saved; eassumption]. saved.
Qed.

Section SavedProofs.
Context `{LibC}.

Lemma without_save_restore_same_saved :
  Forall (fun f => forall st st' : PSInterpreter, f st = Done st' -> same_saved st st')
    without_save_restore.
Proof.
  unfold without_save_restore.
  repeat (constructor; [first [exact astore_same_saved | saved_plain] |]).
  constructor.
Qed.

Lemma run_operators_same_saved (ops : list (PSInterpreter -> outcome PSInterpreter)) :
  Forall (fun f => f ∈ without_save_restore) ops ->
  forall st st' : PSInterpreter, run_operators ops st = Done st' -> same_saved st st'.
Proof.
  induction 1 as [| f ops Hf _ IH]; intros st st' Hrun; simpl in Hrun.
  - injection Hrun as <-. apply same_saved_refl.
  - apply bind_Done in Hrun as (st1 & Hstep & Hrun).
    apply (same_saved_trans _ st1); [| apply (IH _ _ Hrun)].
    apply (proj1 (Forall_forall _ _) without_save_restore_same_saved f Hf _ _ Hstep).
Qed.

(** X26. Whatever operators other than [gsave], [grestore] and the
    control operators run between a [gsave] and the matching [grestore],
    they write to the copy that [gsave] pushed: the [grestore] succeeds and
    puts the graphics stack back exactly as it was before the [gsave], the
    current point, path, CTM, color and line width included. *)
Theorem grestore_undoes_what_follows_gsave
    (ops : list (PSInterpreter -> outcome PSInterpreter)) (st st1 st2 : PSInterpreter) :
  Forall (fun f => f ∈ without_save_restore) ops ->
  Operators.gsave st = Done st1 ->
  run_operators ops st1 = Done st2 ->
  Operators.grestore st2 = Done (with_graphics (graphicsStack_ st) st2).
Proof.
  intros Hops Hsave Hrun.
  destruct (run_operators_same_saved ops Hops st1 st2 Hrun) as [Hdepth Htail].
  unfold Operators.gsave, Operators.getCurrentGraphicsState in Hsave.
  destruct (graphicsStack_ st) as [| gs rest] eqn:Hgs; [discriminate Hsave |].
  injection Hsave as <-. simpl in Hdepth, Htail.
  unfold Operators.grestore.
  destruct (decide _) as [Hshort | _]; [lia |].
  rewrite Htail. reflexivity.
Qed.

End SavedProofs.

(** ** Fields of xref-stream records as numbers *)

(** X27. A field of an xref-stream record is read as the number that its
    bytes spell in big-endian order, which lies below [256 ^ width], for
    the widths 1 to 4; a width of 0 or above 4 is not read at all and
    leaves the field at 0; and the reads of 1, 2 and 4 bytes answer 0
    rather than read past the end of the data. *)
Theorem xref_field_is_big_endian (width : nat) (data : list Byte.byte) (offset : nat) :
  ((1 <= width <= 4)%nat -> (offset + width <= length data)%nat ->
   PDF.read_field width data offset
   = Some (big_endian (take width (drop offset data)))
   /\ 0 <= big_endian (take width (drop offset data)) < 256 ^ Z.of_nat width)
  /\ ((width = 0 \/ 4 < width)%nat -> PDF.read_field width data offset = Some 0)
  /\ ((width = 1 \/ width = 2 \/ width = 4)%nat -> (length data < offset + width)%nat ->
      PDF.read_field width data offset = Some 0).
Proof.
  split; [| split].
  - intros Hwidth Hlen. split; [apply read_field_big_endian; assumption |].
    pose proof (big_endian_range (take width (drop offset data))) as Hrange.
    rewrite length_take, length_drop in Hrange.
    replace (width `min` (length data - offset))%nat with width in Hrange by lia.
    exact Hrange.
  - intros [-> | Hbig]; [reflexivity |].
    destruct width as [| [| [| [| [| width]]]]]; try lia. reflexivity.
  - intros Hwidth Hshort. unfold PDF.read_field.
    destruct Hwidth as [-> | [-> | ->]].
    + unfold PDF.readBigEndian8. destruct (decide _); [reflexivity | lia].
    + unfold PDF.readBigEndian16. destruct (decide _); [reflexivity | lia].
    + unfold PDF.readBigEndian32. destruct (decide _); [reflexivity | lia].
Qed.


(** ** Array literals of integers *)

Lemma has_dot_append (s t : string) : has_dot (s +:+ t) = (has_dot s || has_dot t)%bool.
Proof.
  induction s as [| c s IH]; [reflexivity |].
  rewrite append_cons. simpl. rewrite IH. destruct (Ascii.eqb c "."); reflexivity.
Qed.

Lemma has_dot_join (ws : list string) :
  Forall (fun w => has_dot w = false) ws -> has_dot (join " " ws) = false.
Proof.
  induction 1 as [| w ws Hw _ IH]; [reflexivity |].
  destruct ws as [| w2 ws]; [exact Hw |].
  change (join " " (w :: w2 :: ws)) with (w +:+ " " +:+ join " " (w2 :: ws)).
  rewrite !has_dot_append, Hw, IH. reflexivity.
Qed.

Lemma digits_are_plain (d : Decimal.uint) :
  all_chars plain_char (NilEmpty.string_of_uint d) = true.
Proof. induction d; simpl; [reflexivity | ..]; exact IHd. Qed.

Lemma to_string_plain (v : Z) : plain_word (to_string v) = true.
Proof.
  unfold to_string. destruct v as [| p | p]; [reflexivity | |].
  - assert (Hd := DecimalPos.Unsigned.to_uint_nonnil p).
    change (Z.to_int (Z.pos p)) with (Decimal.Pos (Pos.to_uint p)).
    unfold NilZero.string_of_int, NilZero.string_of_uint.
    destruct (uint_first_char _ Hd) as (c & rest & Htext & _).
    pose proof (digits_are_plain (Pos.to_uint p)) as Hplain.
    destruct (Pos.to_uint p) eqn:Hu; [contradiction | ..];
      rewrite <- Hu in *; unfold plain_word; rewrite Htext in *; exact Hplain.
  - change (Z.to_int (Z.neg p)) with (Decimal.Neg (Pos.to_uint p)).
    unfold NilZero.string_of_int, NilZero.string_of_uint.
    pose proof (digits_are_plain (Pos.to_uint p)) as Hplain.
    destruct (Pos.to_uint p) eqn:Hu; [reflexivity | ..];
      rewrite <- Hu in *; unfold plain_word; simpl; exact Hplain.
Qed.

Lemma interior_brackets (body : string) :
  interior 1 ("[" +:+ body +:+ "]") = body.
Proof.
  unfold interior, substr.
  change ("[" +:+ body +:+ "]") with (String "[" (body +:+ "]")).
  simpl String.length. rewrite length_append. simpl String.length.
  replace (S (String.length body + 1) - 2 * 1)%nat with (String.length body) by lia.
  simpl. apply substring_prefix.
Qed.

Lemma enclosed_brackets (body : string) :
  enclosed 2 "[" "]" ("[" +:+ body +:+ "]") = true.
Proof.
  unfold enclosed, substr, substr_from, slen.
  change ("[" +:+ body +:+ "]") with (String "[" (body +:+ "]")).
  simpl String.length. rewrite length_append. simpl String.length.
  replace (S (String.length body + 1) - 1)%nat with (S (String.length body)) by lia.
  replace (S (String.length body + 1) - S (String.length body))%nat with 1%nat by lia.
  apply andb_true_iff. split; [apply andb_true_iff; split |].
  - apply Z.leb_le. lia.
  - apply bool_decide_eq_true_2. simpl. destruct (body +:+ "]"); reflexivity.
  - apply bool_decide_eq_true_2.
    change (String.substring (S (String.length body)) 1 (String "[" (body +:+ "]")))
      with (String.substring (String.length body) (String.length "]") (body +:+ "]")).
    apply substring_suffix.
Qed.

Lemma lookup_in_new_interpreter (token : string) (h : list PSObject) :
  lookup_procedure token (new_interpreter h) = Done None.
Proof.
  unfold lookup_procedure, getCurrentDictionary, new_interpreter, deref. simpl.
  rewrite lookup_app_r by lia. rewrite Nat.sub_diag. reflexivity.
Qed.

Lemma literal_handles_succ (base n : nat) :
  literal_handles base (S n) = (base + 1)%nat :: literal_handles (base + 2) n.
Proof.
  unfold literal_handles. simpl. f_equal; [lia |].
  rewrite <- seq_shift, map_map. apply map_ext. intros k. lia.
Qed.

Section IntegerArrays.
Context `{LibC}.
Variable print_double : float -> string.

Lemma array_elements_integers (fuel : nat) (vs : list Z) :
  Forall (fun v => in_int v = true) vs ->
  forall (h : list PSObject) (array : list PSObjectPtr),
    array_elements (executeToken (S fuel)) (map to_string vs) h array
    = Done ((array ++ literal_handles (length h) (length vs))%list,
            (h ++ literal_store vs)%list).
Proof.
  induction 1 as [| v vs Hv _ IH]; intros h array.
  - simpl. rewrite !app_nil_r. reflexivity.
  - cbn [map array_elements length]. rewrite literal_handles_succ.
    change (literal_store (v :: vs))
      with (PSDictionary ∅ :: PSInteger v :: literal_store vs).
    destruct (to_string_first_char v) as (c & rest & Htext & _).
    rewrite Htext. rewrite <- Htext.
    rewrite (integer_token_is_pushed fuel v (new_interpreter h) Hv
               (lookup_in_new_interpreter _ h)).
    cbn [mbind outcome_bind].
    unfold Operators.push_new, make_shared, PSStack.push, with_stack, with_heap,
      new_interpreter.
    cbn [stack_ heap dictionaryStack_ graphicsStack_].
    rewrite IH. rewrite !length_app. cbn [length].
    rewrite <- !app_assoc. cbn [app].
    replace (length h + 1 + 1)%nat with (length h + 2)%nat by lia.
    reflexivity.
Qed.

Lemma print_integers (h : list PSObject) (elems : list PSObjectPtr) (vs : list Z) :
  Forall2 (fun p v => h !! p = Some (PSInteger v)) elems vs ->
  mapM (fun p => element ← h !! p; toString print_double 1 h element) elems
  = Some (map to_string vs).
Proof.
  induction 1 as [| p v elems vs Hp _ IH]; [reflexivity |].
  set (print := fun p : PSObjectPtr =>
                  element ← h !! p; toString print_double 1 h element) in *.
  change (mapM print (p :: elems))
    with (print p ≫= fun text => mapM print elems ≫= fun texts => Some (text :: texts)).
  rewrite IH. unfold print. rewrite Hp. reflexivity.
Qed.

Lemma literal_handles_hold (vs : list Z) :
  forall (h : list PSObject) (tail : list PSObject),
    Forall2 (fun p v => (h ++ literal_store vs ++ tail)%list !! p = Some (PSInteger v))
      (literal_handles (length h) (length vs)) vs.
Proof.
  induction vs as [| v vs IH]; intros h tail; [constructor |].
  cbn [length]. rewrite literal_handles_succ. constructor.
  - rewrite lookup_app_r by lia.
    replace (length h + 1 - length h)%nat with 1%nat by lia. reflexivity.
  - specialize (IH (h ++ [PSDictionary ∅; PSInteger v])%list tail).
    rewrite length_app in IH. cbn [length] in IH.
    rewrite <- app_assoc in IH. exact IH.
Qed.

(** X29. An array of Integers read back from its own printed form. For
    an array whose elements are the Integers [vs], [toString] gives [[],
    the decimal numbers with one space between neighbours, and []]; executed
    as a token that the current dictionary does not bind to a procedure,
    that text pushes the handle of a new array whose elements are new
    Integer objects holding the same values in the same order. *)
Theorem integer_array_prints_and_reads_back (fuel : nat) (vs : list Z)
    (st : PSInterpreter) (elems : list PSObjectPtr) :
  Forall (fun v => in_int v = true) vs ->
  Forall2 (fun p v => heap st !! p = Some (PSInteger v)) elems vs ->
  lookup_procedure ("[" +:+ join " " (map to_string vs) +:+ "]") st = Done None ->
  toString print_double 2 (heap st) (PSArray elems)
  = Some ("[" +:+ join " " (map to_string vs) +:+ "]")
  /\ exists (st' : PSInterpreter) (arrayPtr : PSObjectPtr) (elems' : list PSObjectPtr),
       executeToken (S (S fuel)) ("[" +:+ join " " (map to_string vs) +:+ "]") st = Done st'
       /\ stack_ st' = arrayPtr :: stack_ st
       /\ heap st' !! arrayPtr = Some (PSArray elems')
       /\ Forall2 (fun p v => heap st' !! p = Some (PSInteger v)) elems' vs.
Proof.
  intros Hvs Helems Hlook. split.
  - change (toString print_double 2 (heap st) (PSArray elems))
      with (parts ← mapM (fun p => element ← heap st !! p;
                                   toString print_double 1 (heap st) element) elems;
            Some ("[" +:+ join " " parts +:+ "]")).
    rewrite (print_integers _ _ _ Helems). reflexivity.
  - set (text := "[" +:+ join " " (map to_string vs) +:+ "]") in *.
    set (h' := (heap st ++ literal_store vs)%list).
    exists (mkPSInterpreter
              (h' ++ [PSArray (literal_handles (length (heap st)) (length vs))])
              (length h' :: stack_ st) (dictionaryStack_ st) (graphicsStack_ st)),
      (length h'), (literal_handles (length (heap st)) (length vs)).
    split; [| split; [reflexivity | split]].
    + rewrite executeToken_step.
      rewrite bool_decide_eq_false_2 by discriminate.
      rewrite (not_registered text "[" eq_refl eq_refl).
      change (is_char (first_char text) "/") with false.
      rewrite andb_false_r, Hlook. cbn [mbind outcome_bind].
      unfold execute_number_or_literal.
      assert (Hdot : has_dot text = false).
      { unfold text.
        change ("[" +:+ join " " (map to_string vs) +:+ "]")
          with (String "[" (join " " (map to_string vs) +:+ "]")).
        cbn [has_dot]. change (Ascii.eqb "[" ".") with false. cbv iota.
        rewrite has_dot_append, has_dot_join; [reflexivity |].
        apply Forall_fmap, Forall_forall. intros v _. apply to_string_has_no_dot. }
      rewrite Hdot. change (stoi text) with (@None Z). cbv iota.
      unfold execute_literal.
      assert (Hparen : enclosed 2 "(" ")" text = false)
        by (apply (not_enclosed_other 2 "(" ")" "[" "("
                     (join " " (map to_string vs) +:+ "]"));
            [reflexivity | discriminate]).
      rewrite Hparen. unfold text at 1. rewrite enclosed_brackets.
      unfold text at 1. rewrite interior_brackets.
      unfold PSParser.parse, PSParser.tokenize, PSParser.lexer0.
      rewrite (scan_join " " (map to_string vs) 0 0 0 eq_refl);
        [| apply Forall_fmap, Forall_forall; intros v _; apply to_string_plain].
      cbn [PSParser.tokens app].
      rewrite (array_elements_integers fuel vs Hvs (heap st) []).
      cbn [mbind outcome_bind app]. reflexivity.
    + cbn [heap]. rewrite lookup_app_r by lia. rewrite Nat.sub_diag. reflexivity.
    + cbn [heap]. unfold h'. rewrite <- app_assoc.
      apply literal_handles_hold.
Qed.

End IntegerArrays.

Lemma integer_array_prints_and_reads_back_example :
  toString (fun _ => "0.5") 2
    (heap (mkPSInterpreter [PSDictionary ∅; PSInteger 7; PSInteger (-1)] [] [0%nat]
             [Graphics.GraphicsState0]))
    (PSArray [1%nat; 2%nat])
  = Some ("[" +:+ join " " (map to_string [7; -1]) +:+ "]")
  /\ exists (st' : PSInterpreter) (arrayPtr : PSObjectPtr) (elems' : list PSObjectPtr),
       @executeToken unused_libc 2 ("[" +:+ join " " (map to_string [7; -1]) +:+ "]")
         (mkPSInterpreter [PSDictionary ∅; PSInteger 7; PSInteger (-1)] [] [0%nat]
            [Graphics.GraphicsState0])
       = Done st'
       /\ stack_ st' = [arrayPtr]
       /\ heap st' !! arrayPtr = Some (PSArray elems')
       /\ Forall2 (fun p v => heap st' !! p = Some (PSInteger v)) elems' [7; -1].
Proof.
  apply (@integer_array_prints_and_reads_back unused_libc (fun _ => "0.5") 0 [7; -1]
           (mkPSInterpreter [PSDictionary ∅; PSInteger 7; PSInteger (-1)] [] [0%nat]
              [Graphics.GraphicsState0])
           [1%nat; 2%nat]).
  - repeat constructor.
  - repeat constructor.
  - vm_compute. reflexivity.
Defined.

(** ** Handles *)

Lemma object_closed_mono (n m : nat) (o : PSObject) :
  object_closed n o -> (n <= m)%nat -> object_closed m o.
Proof.
  intros Ho Hle. destruct o; simpl in *; try exact I.
  - eapply Forall_impl; [exact Ho |]. simpl. intros p Hp. lia.
  - eapply map_Forall_impl; [exact Ho |]. simpl. intros key p Hp. lia.
Qed.

Lemma store_closed_lookup (h : list PSObject) (n : nat) (p : PSObjectPtr) (o : PSObject) :
  Forall (object_closed n) h -> h !! p = Some o -> object_closed n o.
Proof. intros Hh Hp. apply (proj1 (Forall_lookup _ _) Hh p o Hp). Qed.

Lemma closed_pop (X Y : PSInterpreter) (p : PSObjectPtr) :
  PSStack.pop X = Done (p, Y) -> closed X ->
  closed Y /\ length (heap Y) = length (heap X) /\ (p < length (heap X))%nat.
Proof.
  unfold PSStack.pop. destruct (stack_ X) as [| q rest] eqn:Hs; intros Hpop;
    [discriminate Hpop |].
  injection Hpop as -> <-. intros (Hstack & Hdict & Hstore).
  rewrite Hs in Hstack. apply Forall_cons in Hstack as [Hp Hrest].
  split; [| split; [reflexivity | exact Hp]].
  split; [exact Hrest | split; assumption].
Qed.

Lemma closed_deref (X : PSInterpreter) (p : PSObjectPtr) (o : PSObject) :
  deref X p = Done o -> closed X ->
  (p < length (heap X))%nat /\ object_closed (length (heap X)) o.
Proof.
  intros Hd (_ & _ & Hstore). apply deref_lookup in Hd.
  split; [eapply lookup_lt_Some; exact Hd | apply (store_closed_lookup _ _ _ _ Hstore Hd)].
Qed.

Lemma closed_pop_obj (X Y : PSInterpreter) (p : PSObjectPtr) (o : PSObject) :
  Operators.pop_obj X = Done (p, o, Y) -> closed X ->
  closed Y /\ length (heap Y) = length (heap X) /\ (p < length (heap X))%nat
  /\ object_closed (length (heap X)) o.
Proof.
  intros Hpop Hc. apply pop_obj_inv in Hpop as [Hpop Hlook].
  destruct (closed_pop _ _ _ Hpop Hc) as (Hc' & Hlen & Hp).
  split; [exact Hc' |]. split; [exact Hlen |]. split; [exact Hp |].
  destruct Hc' as (_ & _ & Hstore). rewrite <- Hlen.
  apply (store_closed_lookup _ _ _ _ Hstore Hlook).
Qed.

Lemma closed_current_dictionary (X : PSInterpreter) (p : PSObjectPtr) (o : PSObject) :
  Operators.current_dictionary X = Done (p, o) -> closed X ->
  (p < length (heap X))%nat /\ object_closed (length (heap X)) o.
Proof.
  intros Hcur (_ & _ & Hstore). apply current_dictionary_lookup in Hcur.
  split; [eapply lookup_lt_Some; exact Hcur | apply (store_closed_lookup _ _ _ _ Hstore Hcur)].
Qed.

Lemma closed_push (X : PSInterpreter) (p : PSObjectPtr) :
  closed X -> (p < length (heap X))%nat -> closed (PSStack.push p X).
Proof.
  intros (Hstack & Hdict & Hstore) Hp.
  split; [apply Forall_cons; split; assumption | split; assumption].
Qed.

Lemma closed_with_stack (X : PSInterpreter) (s : list PSObjectPtr) :
  closed X -> Forall (fun p => (p < length (heap X))%nat) s -> closed (with_stack s X).
Proof. intros (_ & Hdict & Hstore) Hs. split; [exact Hs | split; assumption]. Qed.

Lemma closed_with_graphics (X : PSInterpreter) (gs : list GraphicsState) :
  closed X -> closed (with_graphics gs X).
Proof. intros Hc. exact Hc. Qed.

Lemma closed_set_current (X : PSInterpreter) (gs : GraphicsState) :
  closed X -> closed (Operators.setCurrentGraphicsState gs X).
Proof. intros Hc. exact Hc. Qed.

Lemma closed_with_heap_app (X : PSInterpreter) (k : list PSObject) :
  closed X -> Forall (object_closed (length (heap X) + length k)) k ->
  closed (with_heap (heap X ++ k) X).
Proof.
  intros (Hstack & Hdict & Hstore) Hk. unfold closed. simpl. rewrite length_app.
  split; [| split].
  - eapply Forall_impl; [exact Hstack |]. simpl. intros p Hp. lia.
  - eapply Forall_impl; [exact Hdict |]. simpl. intros p Hp. lia.
  - apply Forall_app. split; [| exact Hk].
    eapply Forall_impl; [exact Hstore |]. intros o Ho.
    apply (object_closed_mono _ _ _ Ho). lia.
Qed.

Lemma closed_push_new (X : PSInterpreter) (o : PSObject) :
  closed X -> object_closed (S (length (heap X))) o -> closed (Operators.push_new o X).
Proof.
  intros Hc Ho.
  assert (Happ : closed (with_heap (heap X ++ [o]) X)).
  { apply closed_with_heap_app; [exact Hc |]. constructor; [| constructor].
    apply (object_closed_mono _ _ _ Ho). simpl. lia. }
  destruct Happ as (Hstack & Hdict & Hstore). simpl in *.
  split; [| split; assumption]. simpl.
  apply Forall_cons. split; [rewrite length_app; simpl; lia | exact Hstack].
Qed.

Lemma closed_assign (X : PSInterpreter) (p : PSObjectPtr) (o : PSObject) :
  closed X -> object_closed (length (heap X)) o -> closed (assign p o X).
Proof.
  intros (Hstack & Hdict & Hstore) Ho. unfold closed. simpl.
  rewrite length_insert. split; [exact Hstack | split; [exact Hdict |]].
  apply Forall_insert; assumption.
Qed.

Lemma closed_dup (X Y : PSInterpreter) :
  PSStack.dup X = Done Y -> closed X -> closed Y.
Proof.
  unfold PSStack.dup. destruct (stack_ X) as [| top rest] eqn:Hs; intros Hdup;
    [discriminate Hdup |].
  apply bind_Done in Hdup as (o & Ho & Hdup). injection Hdup as <-.
  intros Hc. destruct (closed_deref _ _ _ Ho Hc) as [_ Hobj].
  apply (closed_push_new X o Hc). apply (object_closed_mono _ _ _ Hobj). lia.
Qed.

Lemma closed_exch (X Y : PSInterpreter) :
  PSStack.exch X = Done Y -> closed X -> closed Y.
Proof.
  unfold PSStack.exch. destruct (stack_ X) as [| a [| b rest]] eqn:Hs; intros Hx;
    try discriminate Hx.
  injection Hx as <-. intros (Hstack & Hdict & Hstore). rewrite Hs in Hstack.
  apply Forall_cons in Hstack as [Ha Hstack]. apply Forall_cons in Hstack as [Hb Hrest].
  split; [| split; assumption].
  simpl. repeat (apply Forall_cons; split; [assumption |]). exact Hrest.
Qed.

Lemma closed_push_all (X : PSInterpreter) (elements : list PSObjectPtr) :
  closed X -> Forall (fun p => (p < length (heap X))%nat) elements ->
  closed (Operators.push_all elements X).
Proof.
  intros Hc He. rewrite push_all_stack. apply closed_with_stack; [exact Hc |].
  apply Forall_app. split; [apply Forall_reverse; exact He | apply Hc].
Qed.

(** Objects that the operators build. *)

Lemma arith_closed (name : string) (iop : Z -> Z -> Z) (fop : float -> float -> float)
    (a b res : PSObject) (n : nat) :
  Operators.arith name iop fop a b = Done res -> object_closed n res.
Proof.
  unfold Operators.arith. intros Hrun. split_run Hrun; exact I.
Qed.

Lemma div_values_closed (a b res : PSObject) (n : nat) :
  Operators.div_values a b = Done res -> object_closed n res.
Proof.
  unfold Operators.div_values. intros Hrun. split_run Hrun; exact I.
Qed.

Lemma arraySet_closed (o o' : PSObject) (index : nat) (p : PSObjectPtr) (n : nat) :
  arraySet o index p = Done o' -> object_closed n o -> (p < n)%nat -> object_closed n o'.
Proof.
  destruct o; simpl; intros Hset; try discriminate Hset.
  destruct (decide _); [| discriminate Hset]. injection Hset as <-.
  intros Ho Hp. simpl. apply Forall_insert; assumption.
Qed.

Lemma dictPut_closed (o o' : PSObject) (key : string) (p : PSObjectPtr) (n : nat) :
  dictPut o key p = Done o' -> object_closed n o -> (p < n)%nat -> object_closed n o'.
Proof.
  destruct o; simpl; intros Hput; try discriminate Hput. injection Hput as <-.
  intros Ho Hp. simpl. apply map_Forall_insert_2; assumption.
Qed.

Lemma arrayGet_closed (o : PSObject) (index : nat) (p : PSObjectPtr) (n : nat) :
  arrayGet o index = Done p -> object_closed n o -> (p < n)%nat.
Proof.
  destruct o as [| | | | v | d | |]; simpl; intros Hget; try discriminate Hget.
  destruct (v !! index) as [q |] eqn:Hq; [| discriminate Hget].
  injection Hget as <-. intros Ho.
  apply (proj1 (Forall_lookup _ _) Ho index q Hq).
Qed.

Lemma dictGet_closed (o : PSObject) (key : string) (p : PSObjectPtr) (n : nat) :
  dictGet o key = Done p -> object_closed n o -> (p < n)%nat.
Proof.
  destruct o as [| | | | v | d | |]; simpl; intros Hget; try discriminate Hget.
  destruct (d !! key) as [q |] eqn:Hq; [| discriminate Hget].
  injection Hget as <-. intros Ho. apply (Ho key q Hq).
Qed.

Lemma asArray_closed (o : PSObject) (v : list PSObjectPtr) (n m : nat) :
  asArray o = Done v -> object_closed n o -> (n <= m)%nat ->
  Forall (fun p => (p < m)%nat) v.
Proof.
  destruct o; simpl; intros Has; try discriminate Has. injection Has as <-.
  intros Ho Hle. eapply Forall_impl; [exact Ho |]. simpl. intros p Hp. lia.
Qed.

Lemma new_handles_closed (first n m : nat) :
  (first + n <= m)%nat -> Forall (fun p => (p < m)%nat) (seq first n).
Proof.
  intros Hle. apply Forall_forall. intros p Hp. apply elem_of_seq in Hp. lia.
Qed.

Lemma scalars_closed (n : nat) (k : list PSObject) :
  Forall (fun o => getType o <> ARRAY /\ getType o <> DICTIONARY) k ->
  Forall (object_closed n) k.
Proof.
  intros Hk. eapply Forall_impl; [exact Hk |]. intros o [Ha Hd].
  destruct o; simpl; try exact I; contradiction.
Qed.

(** The side conditions: a handle is allocated, an object is closed. *)
Ltac close_side :=
  first
    [ lia
    | solve [rewrite ?push_all_stack; simpl;
             rewrite ?length_insert, ?length_app, ?length_replicate, ?length_map;
             simpl; lia]
    | exact I
    | match goal with
      | Ho : object_closed _ ?o |- object_closed _ ?o =>
          apply (object_closed_mono _ _ _ Ho); lia
      | Hs : arraySet _ _ _ = Done ?o |- object_closed _ ?o =>
          eapply arraySet_closed; [exact Hs | close_side | close_side]
      | Hs : dictPut _ _ _ = Done ?o |- object_closed _ ?o =>
          eapply dictPut_closed; [exact Hs | close_side | close_side]
      | Hs : Operators.arith _ _ _ _ _ = Done ?o |- object_closed _ ?o =>
          apply (arith_closed _ _ _ _ _ _ _ Hs)
      | Hs : Operators.div_values _ _ = Done ?o |- object_closed _ ?o =>
          apply (div_values_closed _ _ _ _ Hs)
      | Hs : arrayGet _ _ = Done ?p |- (?p < _)%nat =>
          eapply arrayGet_closed; [exact Hs | close_side]
      | Hs : dictGet _ _ = Done ?p |- (?p < _)%nat =>
          eapply dictGet_closed; [exact Hs | close_side]
      | Hs : asArray _ = Done ?v |- Forall _ ?v =>
          eapply asArray_closed; [exact Hs | eassumption | lia]
      | |- object_closed _ (PSArray (seq _ _)) =>
          simpl; apply new_handles_closed; simpl;
          rewrite ?length_app, ?length_replicate, ?length_map; lia
      | |- Forall (object_closed _) (replicate _ PSNull) =>
          apply Forall_replicate; exact I
      | |- Forall (object_closed _) (map _ _) =>
          apply Forall_fmap, Forall_forall; intros; exact I
      | |- object_closed _ (PSDictionary ∅) => apply map_Forall_empty
      end ].

(** Walk back from the final state, closing each step. *)
Ltac close_back :=
  repeat first
    [ assumption
    | lazymatch goal with
      | |- closed (PSStack.push _ _) => apply closed_push; [| close_side]
      | |- closed (Operators.push_new _ _) => apply closed_push_new; [| close_side]
      | |- closed (with_graphics _ _) => apply closed_with_graphics
      | |- closed (Operators.setCurrentGraphicsState _ _) => apply closed_set_current
      | |- closed (PSStack.clear _) =>
          apply closed_with_stack; [| constructor]
      | |- closed (Operators.push_all _ _) => apply closed_push_all; [| close_side]
      | |- closed (with_heap (heap ?X ++ _) ?X) =>
          apply closed_with_heap_app; [| close_side]
      | |- closed (assign _ _ _) => apply closed_assign; [| close_side]
      end
    | match goal with
      | Hs : PSStack.dup ?X = Done ?Y |- closed ?Y => apply (closed_dup _ _ Hs)
      | Hs : PSStack.exch ?X = Done ?Y |- closed ?Y => apply (closed_exch _ _ Hs)
      end ].

(** Take the facts about what was popped out of a closed state. *)
Ltac close_forward :=
  repeat match goal with
         | Hc : closed ?X, Hs : Operators.pop_obj ?X = Done (_, _, _) |- _ =>
             let Hc' := fresh "Hclosed" in
             let Hl := fresh "Hlen" in
             let Hp := fresh "Hvalid" in
             let Ho := fresh "Hobj" in
             destruct (closed_pop_obj _ _ _ _ Hs Hc) as (Hc' & Hl & Hp & Ho); clear Hs
         | Hc : closed ?X, Hs : PSStack.pop ?X = Done (_, _) |- _ =>
             let Hc' := fresh "Hclosed" in
             let Hl := fresh "Hlen" in
             let Hp := fresh "Hvalid" in
             destruct (closed_pop _ _ _ Hs Hc) as (Hc' & Hl & Hp); clear Hs
         | Hc : closed ?X, Hs : Operators.current_dictionary ?X = Done (_, _) |- _ =>
             let Hp := fresh "Hvalid" in
             let Ho := fresh "Hobj" in
             destruct (closed_current_dictionary _ _ _ Hs Hc) as (Hp & Ho); clear Hs
         | Hc : closed ?X, Hs : deref ?X _ = Done _ |- _ =>
             let Hp := fresh "Hvalid" in
             let Ho := fresh "Hobj" in
             destruct (closed_deref _ _ _ Hs Hc) as (Hp & Ho); clear Hs
         | Hs : Operators.pop_obj ?X = Done (_, _, _) |- _ =>
             let Hc := fresh "Hclosed" in
             assert (Hc : closed X) by (solve [close_back])
         end.

Ltac closed_plain :=
  let st := fresh "st" in
  let st' := fresh "st'" in
  let Hrun := fresh "Hrun" in
  let Hc := fresh "Hclosed" in
  intros st st' Hrun Hc;
  cbv beta iota zeta delta
    [plain Operators.add Operators.sub Operators.mul Operators.div
     Operators.binary_arith Operators.dup Operators.pop Operators.exch
     Operators.clear Operators.stack Operators.show Operators.eq Operators.ne
     Operators.lt Operators.le Operators.gt Operators.ge Operators.binary_compare
     Operators.array Operators.get Operators.put Operators.length Operators.aload
     Operators.dict Operators.def Operators.load Operators.store Operators.known
     Operators.keys
     Operators.moveto Operators.lineto Operators.point_operator
     Operators.closepath Operators.stroke Operators.fill Operators.newpath
     Operators.clear_path Operators.gsave Operators.grestore Operators.translate
     Operators.scale Operators.rotate Operators.setrgbcolor Operators.setlinewidth
     Operators.showpage] in Hrun;
  split_run Hrun;
  close_forward;
  solve [close_back].

Lemma store_extends_length (h h' : list PSObject) :
  store_extends h h' -> (length h <= length h')%nat.
Proof.
  intros Hext. destruct (decide (length h = 0)%nat) as [Hz | Hnz]; [lia |].
  destruct (lookup_lt_is_Some_2 h (length h - 1) ltac:(lia)) as [o Ho].
  destruct (Hext _ _ Ho) as (o' & Ho' & _).
  apply lookup_lt_Some in Ho'. lia.
Qed.

Lemma run_tokens_closed (exec : executor) (proc : list string) :
  executor_closed exec ->
  forall st st' : PSInterpreter,
    Operators.run_tokens exec proc st = Done st' -> closed st -> closed st'.
Proof.
  intros Hexec. induction proc as [| token proc IH]; intros st st' Hrun Hc; simpl in Hrun.
  - injection Hrun as <-. exact Hc.
  - apply bind_Done in Hrun as (st1 & Htoken & Hrun).
    apply (IH _ _ Hrun). apply (Hexec _ _ _ Htoken Hc).
Qed.

Lemma forall_loop_closed (exec : executor) (proc : list string) :
  executor_evolves exec -> executor_closed exec ->
  forall (elements : list PSObjectPtr) (st st' : PSInterpreter),
    Forall (fun p => (p < length (heap st))%nat) elements ->
    Operators.forall_loop exec elements proc st = Done st' -> closed st -> closed st'.
Proof.
  intros Hev Hexec. induction elements as [| element elements IH];
    intros st st' He Hrun Hc; simpl in Hrun.
  - injection Hrun as <-. exact Hc.
  - apply Forall_cons in He as [Hfirst He].
    apply bind_Done in Hrun as (st1 & Hbody & Hrun).
    pose proof (run_tokens_evolves exec proc Hev _ _ Hbody) as [_ Hgrow].
    apply store_extends_length in Hgrow. simpl in Hgrow.
    apply (IH st1 st'); [| exact Hrun |].
    + eapply Forall_impl; [exact He |]. simpl. intros p Hp. lia.
    + apply (run_tokens_closed exec proc Hexec _ _ Hbody).
      apply closed_push; assumption.
Qed.

Lemma repeat_loop_closed (exec : executor) (count : nat) (proc : list string) :
  executor_closed exec ->
  forall st st' : PSInterpreter,
    Operators.repeat_loop exec count proc st = Done st' -> closed st -> closed st'.
Proof.
  intros Hexec. induction count as [| count IH]; intros st st' Hrun Hc; simpl in Hrun.
  - injection Hrun as <-. exact Hc.
  - apply bind_Done in Hrun as (st1 & Hbody & Hrun).
    apply (IH _ _ Hrun). apply (run_tokens_closed exec proc Hexec _ _ Hbody Hc).
Qed.

Lemma for_loop_closed (exec : executor) (n : nat) (increment : Z) (proc : list string) :
  executor_closed exec ->
  forall (i : Z) (st st' : PSInterpreter),
    Operators.for_loop exec n i increment proc st = Done st' -> closed st -> closed st'.
Proof.
  intros Hexec. induction n as [| n IH]; intros i st st' Hrun Hc; simpl in Hrun.
  - injection Hrun as <-. exact Hc.
  - apply bind_Done in Hrun as (st1 & Hbody & Hrun).
    apply (IH _ _ _ Hrun). apply (run_tokens_closed exec proc Hexec _ _ Hbody).
    apply closed_push_new; [exact Hc | exact I].
Qed.

Lemma astore_loop_closed (i : nat) (arrayPtr : PSObjectPtr) :
  forall st st' : PSInterpreter,
    Operators.astore_loop i arrayPtr st = Done st' -> closed st -> closed st'.
Proof.
  induction i as [| i IH]; intros st st' Hrun Hc; simpl in Hrun.
  - injection Hrun as <-. exact Hc.
  - split_run Hrun. close_forward.
    apply (IH _ _ Hrun). close_back.
Qed.

Lemma astore_closed (st st' : PSInterpreter) :
  Operators.astore st = Done st' -> closed st -> closed st'.
Proof.
  intros Hrun Hc. unfold Operators.astore in Hrun. split_run Hrun. close_forward.
  match goal with
  | Hloop : Operators.astore_loop _ _ _ = Done ?Y |- _ =>
      pose proof (astore_loop_closed _ _ _ _ Hloop ltac:(assumption)) as Hdone;
      pose proof (astore_loop_evolves _ _ _ _ Hloop) as [_ Hgrow];
      apply store_extends_length in Hgrow
  end.
  apply closed_push; [exact Hdone | lia].
Qed.

Ltac closed_control Hev Hexec :=
  let st := fresh "st" in
  let st' := fresh "st'" in
  let Hrun := fresh "Hrun" in
  let Hc := fresh "Hclosed" in
  intros st st' Hrun Hc;
  cbv beta iota zeta delta
    [Operators.exec Operators.forall_ Operators.if_ Operators.ifelse
     Operators.repeat Operators.for_] in Hrun;
  split_run Hrun;
  close_forward;
  first [ solve [close_back]
        | eapply (run_tokens_closed _ _ Hexec); [eassumption |]; solve [close_back]
        | eapply (repeat_loop_closed _ _ _ Hexec); [eassumption |]; solve [close_back]
        | eapply (for_loop_closed _ _ _ _ Hexec); [eassumption |]; solve [close_back]
        | eapply (forall_loop_closed _ _ Hev Hexec); [| eassumption |];
          [close_side | solve [close_back]] ].

Section Handles.
Context `{LibC}.

Lemma registered_closed :
  Forall (fun entry =>
            forall exec : executor,
              executor_evolves exec -> executor_closed exec ->
              forall st st' : PSInterpreter,
                entry.2 exec st = Done st' -> closed st -> closed st')
    registrations.
Proof.
  unfold registrations.
  repeat (constructor;
          [ intros exec Hev Hexec; simpl;
            first [ exact astore_closed
                  | closed_plain
                  | closed_control Hev Hexec ] |]).
  constructor.
Qed.

Lemma new_interpreter_closed (h : list PSObject) :
  Forall (object_closed (length h)) h -> closed (new_interpreter h).
Proof.
  intros Hh. unfold closed, new_interpreter. simpl. rewrite length_app. simpl.
  split; [constructor | split].
  - constructor; [lia | constructor].
  - apply Forall_app. split.
    + eapply Forall_impl; [exact Hh |]. intros o Ho.
      apply (object_closed_mono _ _ _ Ho). lia.
    + constructor; [apply map_Forall_empty | constructor].
Qed.

Lemma closed_with_heap (X : PSInterpreter) (h' : list PSObject) :
  closed X -> (length (heap X) <= length h')%nat ->
  Forall (object_closed (length h')) h' -> closed (with_heap h' X).
Proof.
  intros (Hstack & Hdict & _) Hle Hh'. split; [| split; [| exact Hh']]; simpl.
  - eapply Forall_impl; [exact Hstack |]. simpl. intros p Hp. lia.
  - eapply Forall_impl; [exact Hdict |]. simpl. intros p Hp. lia.
Qed.

Lemma temporary_interpreter (exec : executor) (token : string) (h : list PSObject)
    (temp : PSInterpreter) :
  executor_evolves exec -> executor_closed exec ->
  Forall (object_closed (length h)) h ->
  exec token (new_interpreter h) = Done temp ->
  closed temp /\ (length h <= length (heap temp))%nat.
Proof.
  intros Hev Hexec Hh Hrun. split.
  - apply (Hexec _ _ _ Hrun). apply new_interpreter_closed. exact Hh.
  - apply Hev in Hrun as [_ Hgrow]. apply store_extends_length in Hgrow.
    simpl in Hgrow. rewrite length_app in Hgrow. simpl in Hgrow. lia.
Qed.

Lemma array_elements_closed (exec : executor) (elementTokens : list string) :
  executor_evolves exec -> executor_closed exec ->
  forall (h h' : list PSObject) (array array' : list PSObjectPtr),
    Forall (object_closed (length h)) h ->
    Forall (fun p => (p < length h)%nat) array ->
    array_elements exec elementTokens h array = Done (array', h') ->
    Forall (object_closed (length h')) h'
    /\ Forall (fun p => (p < length h')%nat) array'
    /\ (length h <= length h')%nat.
Proof.
  intros Hev Hexec. induction elementTokens as [| token rest IH];
    intros h h' array array' Hh Harray Hrun; simpl in Hrun.
  - injection Hrun as <- <-. split; [exact Hh | split; [exact Harray | lia]].
  - destruct token as [| c token]; [apply (IH _ _ _ _ Hh Harray Hrun) |].
    apply bind_Done in Hrun as (temp & Htemp & Hrun).
    destruct (temporary_interpreter _ _ _ _ Hev Hexec Hh Htemp)
      as [(Hstack & _ & Hstore) Hgrow].
    assert (Hold : Forall (fun p => (p < length (heap temp))%nat) array)
      by (eapply Forall_impl; [exact Harray |]; simpl; intros p Hp; lia).
    destruct (stack_ temp) as [| top others].
    + destruct (IH _ _ _ _ Hstore Hold Hrun) as (Hh' & Ha' & Hle).
      split; [exact Hh' | split; [exact Ha' | lia]].
    + apply Forall_cons in Hstack as [Htop _].
      assert (Hnew : Forall (fun p => (p < length (heap temp))%nat) (array ++ [top]))
        by (apply Forall_app; split; [exact Hold | constructor; [exact Htop | constructor]]).
      destruct (IH _ _ _ _ Hstore Hnew Hrun) as (Hh' & Ha' & Hle).
      split; [exact Hh' | split; [exact Ha' | lia]].
Qed.

Lemma dict_entries_closed (exec : executor) (n : nat) :
  executor_evolves exec -> executor_closed exec ->
  forall (elementTokens : list string) (h h' : list PSObject)
         (dict dict' : gmap string PSObjectPtr),
    (length elementTokens < n)%nat ->
    Forall (object_closed (length h)) h ->
    map_Forall (fun (_ : string) p => (p < length h)%nat) dict ->
    dict_entries exec elementTokens h dict = Done (dict', h') ->
    Forall (object_closed (length h')) h'
    /\ map_Forall (fun (_ : string) p => (p < length h')%nat) dict'
    /\ (length h <= length h')%nat.
Proof.
  intros Hev Hexec. induction n as [| n IH];
    intros elementTokens h h' dict dict' Hlen Hh Hdict Hrun; [lia |].
  destruct elementTokens as [| key [| valueToken rest]]; simpl in Hrun.
  - injection Hrun as <- <-. split; [exact Hh | split; [exact Hdict | lia]].
  - injection Hrun as <- <-. split; [exact Hh | split; [exact Hdict | lia]].
  - apply bind_Done in Hrun as (temp & Htemp & Hrun).
    destruct (temporary_interpreter _ _ _ _ Hev Hexec Hh Htemp)
      as [(Hstack & _ & Hstore) Hgrow].
    assert (Hold : map_Forall (fun (_ : string) p => (p < length (heap temp))%nat) dict)
      by (eapply map_Forall_impl; [exact Hdict |]; simpl; intros k p Hp; lia).
    simpl in Hlen.
    destruct (stack_ temp) as [| top others].
    + destruct (IH rest _ _ _ _ ltac:(lia) Hstore Hold Hrun) as (Hh' & Hd' & Hle).
      split; [exact Hh' | split; [exact Hd' | lia]].
    + apply Forall_cons in Hstack as [Htop _].
      assert (Hnew : map_Forall (fun (_ : string) p => (p < length (heap temp))%nat)
                       (<[strip_slash key := top]> dict))
        by (apply map_Forall_insert_2; assumption).
      destruct (IH rest _ _ _ _ ltac:(lia) Hstore Hnew Hrun) as (Hh' & Hd' & Hle).
      split; [exact Hh' | split; [exact Hd' | lia]].
Qed.

Lemma executeToken_closed (fuel : nat) : executor_closed (executeToken fuel).
Proof.
  induction fuel as [| fuel IH]; intros token st st' Hrun Hc.
  - discriminate Hrun.
  - pose proof (executeToken_evolves fuel) as Hev.
    rewrite executeToken_step in Hrun.
    destruct (bool_decide (token = "")); [injection Hrun as <-; exact Hc |].
    destruct (getOperator token) as [op |] eqn:Hop.
    + apply getOperator_registered in Hop.
      pose proof (proj1 (Forall_forall _ _) registered_closed _ Hop) as Hop'.
      apply (Hop' (executeToken fuel) Hev IH st st' Hrun Hc).
    + destruct ((1 <? slen token) && is_char (first_char token) "/"%char)%bool.
      * injection Hrun as <-. apply closed_push_new; [exact Hc | exact I].
      * apply bind_Done in Hrun as (found & _ & Hrun).
        destruct found as [procedure |].
        -- apply (run_tokens_closed _ procedure IH st st' Hrun Hc).
        -- unfold execute_number_or_literal, execute_literal in Hrun.
           split_run Hrun;
             try (apply closed_push_new; [exact Hc | exact I]);
             first
               [ match goal with
                 | Ha : array_elements _ _ _ _ = Done _ |- _ =>
                     destruct (array_elements_closed _ _ Hev IH _ _ _ _
                                 (proj2 (proj2 Hc)) (Forall_nil_2 _) Ha)
                       as (Hh' & Ha' & Hle)
                 end;
                 (apply closed_push_new; [apply closed_with_heap; assumption |]);
                 simpl; eapply Forall_impl; [exact Ha' |]; simpl; intros p Hp; lia
               | match goal with
                 | Ha : dict_entries _ _ _ _ = Done _ |- _ =>
                     destruct (dict_entries_closed _ _ Hev IH _ _ _ _ _
                                 (Nat.lt_succ_diag_r _)
                                 (proj2 (proj2 Hc)) (map_Forall_empty _) Ha)
                       as (Hh' & Hd' & Hle)
                 end;
                 (apply closed_push_new; [apply closed_with_heap; assumption |]);
                 simpl; eapply map_Forall_impl; [exact Hd' |]; simpl; intros k p Hp; lia ].
Qed.

(** X30. Running a program keeps every handle alive. From a state in
    which each handle denotes an object of the store, as in a new
    interpreter, a program leads to such a state again: the handles on the
    operand stack, the elements of every array and the values of every
    dictionary can all be dereferenced, so no operator leaves a dangling
    handle behind. *)
Theorem handles_stay_allocated (fuel : nat) (program : string)
    (st st' : PSInterpreter) :
  closed st ->
  execute fuel program st = Done st' ->
  closed st'
  /\ (forall p : PSObjectPtr, p ∈ stack_ st' -> exists o : PSObject, deref st' p = Done o)
  /\ (forall (a : PSObjectPtr) (v : list PSObjectPtr) (p : PSObjectPtr),
        heap st' !! a = Some (PSArray v) -> p ∈ v ->
        exists o : PSObject, deref st' p = Done o)
  /\ (forall (d : PSObjectPtr) (m : gmap string PSObjectPtr) (key : string)
             (p : PSObjectPtr),
        heap st' !! d = Some (PSDictionary m) -> m !! key = Some p ->
        exists o : PSObject, deref st' p = Done o).
Proof.
  intros Hc Hrun.
  assert (Hc' : closed st')
    by (apply (run_tokens_closed _ _ (executeToken_closed fuel) _ _ Hrun Hc)).
  assert (Hderef : forall p : PSObjectPtr,
             (p < length (heap st'))%nat -> exists o : PSObject, deref st' p = Done o).
  { intros p Hp. destruct (lookup_lt_is_Some_2 _ _ Hp) as [o Ho].
    exists o. unfold deref, PSObjectPtr in *. rewrite Ho. reflexivity. }
  split; [exact Hc' |]. destruct Hc' as (Hstack & _ & Hstore).
  split; [| split].
  - intros p Hp. apply Hderef. apply (proj1 (Forall_forall _ _) Hstack p Hp).
  - intros a v p Ha Hp. apply Hderef.
    pose proof (store_closed_lookup _ _ _ _ Hstore Ha) as Hv. simpl in Hv.
    apply (proj1 (Forall_forall _ _) Hv p Hp).
  - intros d m key p Hd Hkey. apply Hderef.
    pose proof (store_closed_lookup _ _ _ _ Hstore Hd) as Hm. simpl in Hm.
    apply (Hm key p Hkey).
Qed.

End Handles.

Lemma handles_stay_allocated_example :
  closed (mkPSInterpreter
            [PSDictionary ∅; PSInteger 2; PSNull; PSNull; PSArray [2%nat; 3%nat]]
            [4%nat] [0%nat] [Graphics.GraphicsState0]).
Proof.
  apply (@handles_stay_allocated unused_libc 1 "2 array" (new_interpreter [])).
  - apply new_interpreter_closed. constructor.
  - vm_compute. reflexivity.
Defined.

(** ** The properties at concrete inputs *)

Lemma put_then_get_example :
  exists st1 : PSInterpreter,
    Operators.put
      (mkPSInterpreter [PSNull; PSArray [0%nat]; PSInteger 0; PSString "(Hello)"]
         [3; 2; 1]%nat [] [])
    = Done st1
    /\ stack_ st1 = [1%nat]
    /\ heap st1 = <[1%nat := PSArray (<[Z.to_nat 0 := 3%nat]> [0%nat])]>
                    [PSNull; PSArray [0%nat]; PSInteger 0; PSString "(Hello)"]
    /\ Operators.get (PSStack.push 2%nat st1) = Done (with_stack [3%nat] st1).
Proof.
  apply (put_then_get (fun _ => "0.5")
           (mkPSInterpreter [PSNull; PSArray [0%nat]; PSInteger 0; PSString "(Hello)"]
              [3; 2; 1]%nat [] [])
           3%nat 2%nat 1%nat 0 [0%nat] [] eq_refl eq_refl eq_refl).
  - simpl. lia.
  - exists 1%nat, "(Hello)". reflexivity.
  - exists 2%nat, "[(Hello)]". reflexivity.
Defined.

Lemma index_out_of_bounds_example :
  Operators.get
    (mkPSInterpreter [PSNull; PSArray [0%nat]; PSInteger 1; PSString "(Hello)"]
       [2; 1]%nat [] [])
  = Throw "Array index out of bounds"
  /\ Operators.put
       (PSStack.push 3%nat
          (mkPSInterpreter [PSNull; PSArray [0%nat]; PSInteger 1; PSString "(Hello)"]
             [2; 1]%nat [] []))
     = Throw "Array index out of bounds".
Proof.
  apply (index_out_of_bounds
           (mkPSInterpreter [PSNull; PSArray [0%nat]; PSInteger 1; PSString "(Hello)"]
              [2; 1]%nat [] [])
           3%nat 2%nat 1%nat 1 [0%nat] [] eq_refl eq_refl eq_refl).
  right. simpl. lia.
Defined.

Lemma array_of_nulls_example :
  exists (st1 : PSInterpreter) (arrayPtr : PSObjectPtr) (elems : list PSObjectPtr),
    Operators.array (mkPSInterpreter [PSInteger 2] [0%nat] [] []) = Done st1
    /\ stack_ st1 = [arrayPtr]
    /\ heap st1 !! arrayPtr = Some (PSArray elems)
    /\ length elems = 2%nat.
Proof.
  destruct (proj2 (array_of_nulls (mkPSInterpreter [PSInteger 2] [0%nat] [] [])
                     0%nat 2 [] eq_refl eq_refl eq_refl))
    as (st1 & arrayPtr & elems & Hrun & Hstack & Harr & Hlen & _); [lia |].
  exists st1, arrayPtr, elems. repeat split; assumption.
Defined.

Lemma forall_empty_procedure_example :
  Operators.forall_ (@executeToken unused_libc 1)
    (mkPSInterpreter [PSInteger 1; PSInteger 2; PSArray [0%nat; 1%nat]; PSProcedure []]
       [3%nat; 2%nat] [] [])
  = Done (mkPSInterpreter [PSInteger 1; PSInteger 2; PSArray [0%nat; 1%nat]; PSProcedure []]
            [1%nat; 0%nat] [] []).
Proof.
  exact (forall_empty_procedure (@executeToken unused_libc 1)
           (mkPSInterpreter [PSInteger 1; PSInteger 2; PSArray [0%nat; 1%nat]; PSProcedure []]
              [3%nat; 2%nat] [] [])
           3%nat 2%nat [0%nat; 1%nat] [] eq_refl eq_refl eq_refl).
Defined.

Lemma def_then_load_example :
  exists st1 : PSInterpreter,
    Operators.def
      (mkPSInterpreter [PSDictionary ∅; PSString "/k"; PSInteger 5; PSString "k"]
         [2; 1]%nat [0%nat] [Graphics.GraphicsState0])
    = Done st1
    /\ stack_ st1 = []
    /\ Operators.load (PSStack.push 1%nat st1) = Done (PSStack.push 2%nat st1)
    /\ (strip_slash "k" = strip_slash "/k" ->
        Operators.load (PSStack.push 3%nat st1) = Done (PSStack.push 2%nat st1))
    /\ (strip_slash "k" <> strip_slash "/k" ->
        Operators.load (PSStack.push 3%nat st1)
        = match (∅ : gmap string PSObjectPtr) !! strip_slash "k" with
          | Some v => Done (PSStack.push v st1)
          | None => Throw ("Key not found in dictionary: " +:+ strip_slash "k")
          end).
Proof.
  apply (def_then_load
           (mkPSInterpreter [PSDictionary ∅; PSString "/k"; PSInteger 5; PSString "k"]
              [2; 1]%nat [0%nat] [Graphics.GraphicsState0])
           2%nat 1%nat 3%nat 0%nat "/k" "k" ∅ []);
    reflexivity.
Defined.

Lemma store_then_known_example :
  exists st1 : PSInterpreter,
    Operators.store
      (mkPSInterpreter [PSDictionary ∅; PSString "/k"; PSInteger 5; PSString "/j"]
         [2; 1; 0]%nat [] [])
    = Done st1
    /\ stack_ st1 = []
    /\ heap st1 !! 0%nat = Some (PSDictionary (<[strip_slash "/k" := 2%nat]> ∅))
    /\ Operators.known (PSStack.push 1%nat (PSStack.push 0%nat st1))
       = Done (Operators.push_new (PSBoolean true) st1)
    /\ (strip_slash "/j" <> strip_slash "/k" ->
        Operators.known (PSStack.push 3%nat (PSStack.push 0%nat st1))
        = Done (Operators.push_new
                  (PSBoolean (bool_decide
                     (is_Some ((∅ : gmap string PSObjectPtr) !! strip_slash "/j")))) st1)).
Proof.
  apply (store_then_known
           (mkPSInterpreter [PSDictionary ∅; PSString "/k"; PSInteger 5; PSString "/j"]
              [2; 1; 0]%nat [] [])
           2%nat 1%nat 3%nat 0%nat "/k" "/j" ∅ []);
    reflexivity.
Defined.

Lemma repeat_is_replication_example :
  (3 < 0 ->
   Operators.repeat (@executeToken unused_libc 1)
     (mkPSInterpreter [PSInteger 3; PSProcedure ["7"]] [1; 0]%nat [] [])
   = Throw "Repeat count cannot be negative")
  /\ (0 <= 3 ->
      Operators.repeat (@executeToken unused_libc 1)
        (mkPSInterpreter [PSInteger 3; PSProcedure ["7"]] [1; 0]%nat [] [])
      = Operators.run_tokens (@executeToken unused_libc 1)
          (concat (replicate (Z.to_nat 3) ["7"]))
          (with_stack [] (mkPSInterpreter [PSInteger 3; PSProcedure ["7"]] [1; 0]%nat [] [])))
  /\ (3 = 0 ->
      Operators.repeat (@executeToken unused_libc 1)
        (mkPSInterpreter [PSInteger 3; PSProcedure ["7"]] [1; 0]%nat [] [])
      = Done (with_stack []
                (mkPSInterpreter [PSInteger 3; PSProcedure ["7"]] [1; 0]%nat [] []))).
Proof.
  apply (repeat_is_replication (@executeToken unused_libc 1)
           (mkPSInterpreter [PSInteger 3; PSProcedure ["7"]] [1; 0]%nat [] [])
           1%nat 0%nat ["7"] 3 []);
    reflexivity.
Defined.

Lemma for_pushes_progression_example :
  Operators.for_ (@executeToken unused_libc 1)
    (mkPSInterpreter [PSInteger 10; PSInteger 1; PSInteger (-3); PSProcedure []]
       [3; 2; 1; 0]%nat [] [])
  = Done (mkPSInterpreter
            ([PSInteger 10; PSInteger 1; PSInteger (-3); PSProcedure []]
             ++ map PSInteger (progression 10 (-3) (Operators.for_count 10 1 (-3))))
            (reverse (seq 4 (Operators.for_count 10 1 (-3))) ++ [])
            [] [])
  /\ progression 10 (-3) (Operators.for_count 10 1 (-3)) = [10; 7; 4; 1].
Proof.
  destruct (proj2 (for_pushes_progression (@executeToken unused_libc 1)
                     (mkPSInterpreter
                        [PSInteger 10; PSInteger 1; PSInteger (-3); PSProcedure []]
                        [3; 2; 1; 0]%nat [] [])
                     3%nat 2%nat 1%nat 0%nat 10 1 (-3) []
                     eq_refl eq_refl eq_refl eq_refl eq_refl eq_refl eq_refl eq_refl))
    as (Hrun & _ & _); [discriminate |].
  split; [exact Hrun | reflexivity].
Defined.

Lemma ifelse_runs_one_branch_example :
  Operators.ifelse (@executeToken unused_libc 1)
    (mkPSInterpreter [PSBoolean false; PSProcedure ["1"]; PSProcedure ["2"]]
       [2; 1; 0]%nat [] [])
  = Operators.run_tokens (@executeToken unused_libc 1)
      (if Operators.condition_of (PSBoolean false) then ["1"] else ["2"])
      (with_stack []
         (mkPSInterpreter [PSBoolean false; PSProcedure ["1"]; PSProcedure ["2"]]
            [2; 1; 0]%nat [] [])).
Proof.
  exact (proj1 (ifelse_runs_one_branch (@executeToken unused_libc 1)
                  (mkPSInterpreter [PSBoolean false; PSProcedure ["1"]; PSProcedure ["2"]]
                     [2; 1; 0]%nat [] [])
                  2%nat 1%nat 0%nat (PSProcedure ["2"]) (PSProcedure ["1"])
                  (PSBoolean false) [] eq_refl eq_refl eq_refl eq_refl)
           ["1"] ["2"] eq_refl eq_refl).
Defined.

Lemma dictionary_stack_is_fixed_example :
  dictionaryStack_
    (mkPSInterpreter [PSDictionary ∅; PSInteger 1; PSInteger 2; PSInteger 3]
       [3%nat] [0%nat] [Graphics.GraphicsState0])
  = dictionaryStack_ (new_interpreter [])
  /\ getCurrentDictionary
       (mkPSInterpreter [PSDictionary ∅; PSInteger 1; PSInteger 2; PSInteger 3]
          [3%nat] [0%nat] [Graphics.GraphicsState0])
     = getCurrentDictionary (new_interpreter []).
Proof.
  apply (@dictionary_stack_is_fixed unused_libc 1 "1 2 add" (new_interpreter [])).
  vm_compute. reflexivity.
Defined.

Lemma store_objects_are_stable_example :
  exists o' : PSObject,
    heap (mkPSInterpreter [PSDictionary ∅; PSInteger 1; PSInteger 2; PSInteger 3]
            [3%nat] [0%nat] [Graphics.GraphicsState0]) !! 0%nat = Some o'
    /\ stable (PSDictionary ∅) o'
    /\ getType o' = getType (PSDictionary ∅)
    /\ (getType (PSDictionary ∅) <> ARRAY -> getType (PSDictionary ∅) <> DICTIONARY ->
        o' = PSDictionary ∅).
Proof.
  apply (@store_objects_are_stable unused_libc 1 "1 2 add" (new_interpreter [])
           (mkPSInterpreter [PSDictionary ∅; PSInteger 1; PSInteger 2; PSInteger 3]
              [3%nat] [0%nat] [Graphics.GraphicsState0])
           0%nat (PSDictionary ∅)).
  - vm_compute. reflexivity.
  - reflexivity.
Defined.

Lemma integer_prints_and_reads_back_example :
  toString (fun _ => "0.5") 1 [] (PSInteger (-42)) = Some (to_string (-42))
  /\ stoi (to_string (-42)) = Some (-42)
  /\ @executeToken unused_libc 1 (to_string (-42)) (new_interpreter [])
     = Done (Operators.push_new (PSInteger (-42)) (new_interpreter [])).
Proof.
  apply (@integer_prints_and_reads_back unused_libc (fun _ => "0.5") 0 [] (-42)
           (new_interpreter [])).
  - reflexivity.
  - vm_compute. reflexivity.
Defined.

Lemma procedure_prints_and_reads_back_example :
  toString (fun _ => "0.5") 1 [] (PSProcedure ["dup"; "1.5"; "mul"])
  = Some ("{" +:+ join " " ["dup"; "1.5"; "mul"] +:+ "}")
  /\ @executeToken unused_libc 1 ("{" +:+ join " " ["dup"; "1.5"; "mul"] +:+ "}")
       (new_interpreter [])
     = Done (Operators.push_new (PSProcedure ["dup"; "1.5"; "mul"]) (new_interpreter [])).
Proof.
  apply (@procedure_prints_and_reads_back unused_libc (fun _ => "0.5") 0 []
           ["dup"; "1.5"; "mul"] (new_interpreter [])).
  - repeat constructor.
  - vm_compute. reflexivity.
  - reflexivity.
Defined.

Lemma content_stream_is_renamed_program_example :
  @ContentStream.executeContentStream unused_libc 1
    (join " " ["10"; "20"; "m"; "30"; "40"; "l"; "S"]) (new_interpreter [])
  = @execute unused_libc 1
      (join " " (map renamed ["10"; "20"; "m"; "30"; "40"; "l"; "S"])) (new_interpreter [])
  /\ map renamed ["10"; "20"; "m"; "30"; "40"; "l"; "S"]
     = ["10"; "20"; "moveto"; "30"; "40"; "lineto"; "stroke"].
Proof.
  split; [| vm_compute; reflexivity].
  apply (@content_stream_is_renamed_program unused_libc 1
           ["10"; "20"; "m"; "30"; "40"; "l"; "S"] (new_interpreter [])).
  repeat constructor.
Defined.

Lemma unimplemented_operator_is_pushed_example :
  ContentStream.execute_tokens (@executeToken unused_libc 1) ["re"] (new_interpreter [])
  = Done (Operators.push_new (PSString "rectfill") (new_interpreter [])).
Proof.
  apply (@unimplemented_operator_is_pushed unused_libc 0 "re" "rectfill"
           (new_interpreter [])).
  - vm_compute. reflexivity.
  - vm_compute. reflexivity.
  - vm_compute. reflexivity.
Defined.

Lemma grestore_undoes_what_follows_gsave_example :
  Operators.grestore
    (mkPSInterpreter [PSDictionary ∅; PSInteger 3; PSInteger 10; PSInteger 20] []
       [0%nat]
       [Graphics.mkGraphicsState (Graphics.mkPoint 10 20)
          [Graphics.mkPathSegment Graphics.MoveTo [Graphics.mkPoint 10 20]]
          (Graphics.mkMatrix 1 0 0 1 0 0) 3 0 0 0;
        Graphics.GraphicsState0])
  = Done (mkPSInterpreter [PSDictionary ∅; PSInteger 3; PSInteger 10; PSInteger 20] []
            [0%nat] [Graphics.GraphicsState0]).
Proof.
  apply (@grestore_undoes_what_follows_gsave unused_libc
           [Operators.moveto; Operators.setlinewidth]
           (mkPSInterpreter [PSDictionary ∅; PSInteger 3; PSInteger 10; PSInteger 20]
              [3; 2; 1]%nat [0%nat] [Graphics.GraphicsState0])
           (mkPSInterpreter [PSDictionary ∅; PSInteger 3; PSInteger 10; PSInteger 20]
              [3; 2; 1]%nat [0%nat] [Graphics.GraphicsState0; Graphics.GraphicsState0])).
  - repeat constructor; set_solver.
  - reflexivity.
  - vm_compute. reflexivity.
Defined.

Lemma xref_field_is_big_endian_example :
  PDF.read_field 2 PDF.E6_bytes 5 = Some (big_endian (take 2 (drop 5 PDF.E6_bytes)))
  /\ 0 <= big_endian (take 2 (drop 5 PDF.E6_bytes)) < 256 ^ Z.of_nat 2.
Proof.
  apply (proj1 (xref_field_is_big_endian 2 PDF.E6_bytes 5)); simpl; lia.
Defined.

